(** * Vaulty icon and favicon generators

    A shallow embedding of [generate_icon.py] and [generate_favicon.py].

    - Python [int] is [Z]; Python [float] is IEEE binary64, modelled by
      Rocq's primitive [float], whose operations are specified bit for bit
      by [SpecFloat] (round to nearest, ties to even).
    - Python exceptions are an error monad [res].
    - The imaging library (Pillow) is outside the repository: an image is
      the term recording which library calls built it, except for the RGB
      raster written pixel by pixel by [vertical_gradient], which is kept
      as rows of pixels.  The calls that can refuse their arguments return
      in [res]: [Image.new] a side that is negative or does not fit a C
      int, [rounded_rectangle] a box whose corners are out of order.
    - The file system and standard output are threaded explicitly through
      the two output stages; how the environment answers a request to
      create a directory or to write a file is part of the world. *)

From stdpp Require Import gmap strings list.
From Stdlib Require Import ZArith Reals Floats Lra Lia Psatz Ascii DecimalString.
From Stdlib Require DecimalZ DecimalPos.

Local Open Scope Z_scope.

(* Decimal literals are read as the nearest binary64 number, as Python does. *)
#[local] Set Warnings "-inexact-float".

(* ================================================================== *)
(** * Python numbers *)
(* ================================================================== *)

Inductive exn :=
  | ZeroDivisionError
  | OverflowError
  | ValueError
  | IndexError
  | OSError
  | FileNotFoundError.

Inductive res (A : Type) :=
  | Ok (a : A)
  | Raise (e : exn).
Arguments Ok {A} a.
Arguments Raise {A} e.

#[export] Instance res_ret : MRet res := fun A a => Ok a.
#[export] Instance res_bind : MBind res := fun A B f m =>
  match m with
  | Ok a => f a
  | Raise e => Raise e
  end.

Definition is_finite_SF (x : spec_float) : bool :=
  match x with
  | S754_zero _ | S754_finite _ _ _ => true
  | _ => false
  end.

(** An integer as an (unrounded) binary number with exponent 0. *)
Definition Z2SF (z : Z) : spec_float :=
  match z with
  | Z0 => S754_zero false
  | Zpos p => S754_finite false p 0
  | Zneg p => S754_finite true p 0
  end.

(** [float(n)]: correctly rounded; [OverflowError] when [n] is too large. *)
Definition float_of_int (n : Z) : res float :=
  let x := binary_normalize prec emax n 0 false in
  if is_finite_SF x then Ok (SF2Prim x) else Raise OverflowError.

(** [a / b] on two [int]s: the correctly rounded quotient. *)
Definition int_truediv (a b : Z) : res float :=
  if b =? 0 then Raise ZeroDivisionError
  else
    let x := SFdiv prec emax (Z2SF a) (Z2SF b) in
    if is_finite_SF x then Ok (SF2Prim x) else Raise OverflowError.

(** [int(x)]: truncation toward zero. *)
Definition int_of_float (x : float) : res Z :=
  match Prim2SF x with
  | S754_nan => Raise ValueError
  | S754_infinity _ => Raise OverflowError
  | S754_zero _ => Ok 0
  | S754_finite s m e =>
      Ok (cond_Zopp s (if 0 <=? e then Z.pos m * 2 ^ e else Z.pos m / 2 ^ (- e)))
  end.

(** Mixed arithmetic converts the [int] operand first. *)
Definition int_mul_float (n : Z) (x : float) : res float :=
  f ← float_of_int n; Ok (f * x)%float.

Definition int_add_float (n : Z) (x : float) : res float :=
  f ← float_of_int n; Ok (f + x)%float.

Definition int_sub_float (n : Z) (x : float) : res float :=
  f ← float_of_int n; Ok (f - x)%float.

(** [range(n)] *)
Definition range (n : Z) : list Z := seqZ 0 n.

(** [str(n)] *)
Definition str (n : Z) : string := NilZero.string_of_int (Z.to_int n).

(** A [for] loop whose body may raise. *)
Fixpoint for_each {A S : Type} (body : S -> A -> res S) (l : list A) (s : S) : res S :=
  match l with
  | [] => Ok s
  | a :: l' => s' ← body s a; for_each body l' s'
  end.

(* ================================================================== *)
(** * The imaging library, as far as the scripts use it *)
(* ================================================================== *)

Inductive mode := L | RGB | RGBA.

Inductive ink :=
  | Ink1 (v : Z)
  | Ink3 (r g b : Z)
  | Ink4 (r g b a : Z).

Inductive resample := NEAREST | BILINEAR | BICUBIC | LANCZOS.

Definition rgb : Type := Z * Z * Z.
Definition point : Type := float * float.

Inductive image :=
  | Image_new (m : mode) (w h : Z) (fill : ink)
  | Raster (w h : Z) (px : list (list rgb))
  | Rounded_rectangle (im : image) (x0 y0 x1 y1 : Z) (radius : Z)
      (fill outline : option ink) (width : Z)
  | Polygon (im : image) (pts : list point) (fill : ink)
  | Paste (im src mask : image)
  | Alpha_composite (im1 im2 : image)
  | Resize (im : image) (w h : Z) (flt : resample).

(** [im.size] *)
Fixpoint im_size (im : image) : Z * Z :=
  match im with
  | Image_new _ w h _ => (w, h)
  | Raster w h _ => (w, h)
  | Rounded_rectangle im _ _ _ _ _ _ _ _ => im_size im
  | Polygon im _ _ => im_size im
  | Paste im _ _ => im_size im
  | Alpha_composite im1 _ => im_size im1
  | Resize _ w h _ => (w, h)
  end.

(** The sizes of all canvases allocated while building an image. *)
Fixpoint canvases (im : image) : list (Z * Z) :=
  match im with
  | Image_new _ w h _ => [(w, h)]
  | Raster w h _ => [(w, h)]
  | Rounded_rectangle im _ _ _ _ _ _ _ _ => canvases im
  | Polygon im _ _ => canvases im
  | Paste im src mask => canvases im ++ canvases src ++ canvases mask
  | Alpha_composite im1 im2 => canvases im1 ++ canvases im2
  | Resize im _ _ _ => canvases im
  end.

(** The resampling steps an image went through, innermost first. *)
Fixpoint resizes (im : image) : list (Z * Z * resample) :=
  match im with
  | Image_new _ _ _ _ | Raster _ _ _ => []
  | Rounded_rectangle im _ _ _ _ _ _ _ _ => resizes im
  | Polygon im _ _ => resizes im
  | Paste im src mask => resizes im ++ resizes src ++ resizes mask
  | Alpha_composite im1 im2 => resizes im1 ++ resizes im2
  | Resize im w h flt => resizes im ++ [(w, h, flt)]
  end.

(** What [Image.new] checks before it allocates: no negative side, and
    both sides fit a C int. *)
Definition check_size (w h : Z) : res unit :=
  if (w <? 0) || (h <? 0) then Raise ValueError
  else if (2 ^ 31 <=? w) || (2 ^ 31 <=? h) then Raise OverflowError
  else Ok tt.

(** [Image.new(mode, (w, h), fill)] *)
Definition image_new (m : mode) (w h : Z) (fill : ink) : res image :=
  _ ← check_size w h; Ok (Image_new m w h fill).

(** [Image.new("RGB", (w, h))]: a black raster. *)
Definition new_rgb (w h : Z) : res (list (list rgb)) :=
  _ ← check_size w h;
  Ok (replicate (Z.to_nat h) (replicate (Z.to_nat w) (0, 0, 0))).

(** [draw.rounded_rectangle([x0, y0, x1, y1], radius, fill, outline,
    width)]: the second corner may not lie before the first. *)
Definition rounded_rectangle (im : image) (x0 y0 x1 y1 : Z) (radius : Z)
    (fill outline : option ink) (width : Z) : res image :=
  if (x1 <? x0) || (y1 <? y0) then Raise ValueError
  else Ok (Rounded_rectangle im x0 y0 x1 y1 radius fill outline width).

(** [px[x, y] = v] on the pixel access object of a raster. *)
Definition putpixel (px : list (list rgb)) (x y : Z) (v : rgb) : res (list (list rgb)) :=
  match px !! Z.to_nat y with
  | Some row =>
      if bool_decide (0 <= y) && bool_decide (0 <= x < Z.of_nat (length row))
      then Ok (<[Z.to_nat y := <[Z.to_nat x := v]> row]> px)
      else Raise IndexError
  | None => Raise IndexError
  end.

Definition getpixel (px : list (list rgb)) (x y : Z) : option rgb :=
  if bool_decide (0 <= x) && bool_decide (0 <= y)
  then row ← px !! Z.to_nat y; row !! Z.to_nat x
  else None.

(** [os.path.dirname] and [os.path.join] on POSIX paths. *)
Fixpoint drop_slashes (s : string) : string :=
  match s with
  | String "/"%char s' => drop_slashes s'
  | _ => s
  end.

Fixpoint drop_to_slash (s : string) : string :=
  match s with
  | EmptyString => EmptyString
  | String "/"%char _ => s
  | String _ s' => drop_to_slash s'
  end.

Definition dirname (p : string) : string :=
  let head := String.rev (drop_to_slash (String.rev p)) in
  match drop_slashes head with
  | EmptyString => head
  | _ => String.rev (drop_slashes (String.rev head))
  end.

Definition path_join (a b : string) : string :=
  match b with
  | String "/"%char _ => b
  | _ =>
      match String.rev a with
      | EmptyString => b
      | String "/"%char _ => a +:+ b
      | _ => a +:+ "/" +:+ b
      end
  end.

(** The sizes the ICO writer embeds: the requested ones, sorted and
    without duplicates, that are no larger than the image and than 256. *)
Definition size_ltb (a b : Z * Z) : bool :=
  (a.1 <? b.1) || ((a.1 =? b.1) && (a.2 <? b.2)).

Fixpoint insert_size (a : Z * Z) (l : list (Z * Z)) : list (Z * Z) :=
  match l with
  | [] => [a]
  | b :: l' =>
      if size_ltb a b then a :: l
      else if size_ltb b a then b :: insert_size a l'
      else l
  end.

Definition ico_frames (im : image) (sizes : list (Z * Z)) : list (Z * Z) :=
  List.filter
    (fun s => negb (((im_size im).1 <? s.1) || ((im_size im).2 <? s.2)
                    || (256 <? s.1) || (256 <? s.2)))
    (foldr insert_size [] sizes).

(** The file system and the console. *)
Inductive file :=
  | File (format : string) (im : image) (sizes : option (list (Z * Z)))
  | Partial.   (* what a write that failed part-way leaves at its path *)

Inductive event :=
  | Makedirs (path : string)
  | Render (size : Z)
  | Save (path : string) (format : string)
  | Stdout (msg : string).

(** How a write to a path ends: the file is written; or it cannot be
    opened and nothing changes; or it is opened, which creates or empties
    it, and the write then fails. *)
Inductive write_outcome := Accepted | Refused | Cut_short.

(** The world a script runs in.  A run of either script creates one
    directory and writes each of its paths once, so how the environment
    answers is given per path; nothing is assumed of these answers. *)

Record world := World {
  fs : gmap string file;            (* the files, by path *)
  log : list event;                 (* what happened, oldest first *)
  dir_ok : string -> bool;          (* the directory exists or can be created *)
  write : string -> write_outcome;  (* how a write to the path ends *)
}.

(** A file can be opened only in a directory that exists; the empty
    directory name stands for the current directory. *)
Definition dir_ready (w : world) (d : string) : bool :=
  match d with
  | EmptyString => true
  | _ => dir_ok w d
  end.

Definition accepted (o : write_outcome) : bool :=
  match o with
  | Accepted => true
  | _ => false
  end.

(** Whether saving to the path succeeds. *)
Definition writable (w : world) (path : string) : bool :=
  dir_ready w (dirname path) && accepted (write w path).

Definition io (A : Type) : Type := world -> res A * world.

Definition io_ret {A} (a : A) : io A := fun w => (Ok a, w).

Definition io_bind {A B} (m : io A) (k : A -> io B) : io B := fun w =>
  match m w with
  | (Ok a, w') => k a w'
  | (Raise e, w') => (Raise e, w')
  end.

Declare Scope io_scope.
Delimit Scope io_scope with io.
Notation "x <- m ;; k" := (io_bind m (fun x => k))
  (at level 100, m at next level, right associativity) : io_scope.
Notation "m ;; k" := (io_bind m (fun _ => k))
  (at level 100, right associativity) : io_scope.

Definition emit (e : event) : io unit := fun w =>
  (Ok tt, World (fs w) (log w ++ [e]) (dir_ok w) (write w)).

(** [os.makedirs(path, exist_ok=True)]: the empty path is no directory. *)
Definition makedirs (path : string) : io unit := fun w =>
  match path with
  | EmptyString => (Raise FileNotFoundError, w)
  | _ => if dir_ok w path then emit (Makedirs path) w else (Raise OSError, w)
  end.

(** [print(msg)] *)
Definition print (msg : string) : io unit := emit (Stdout msg).

(** Calling a rendering function: the call is logged, its exception
    propagates. *)
Definition render (f : Z -> res image) (size : Z) : io image := fun w =>
  (f size, World (fs w) (log w ++ [Render size]) (dir_ok w) (write w)).

(** [im.save(path, format, sizes=...)] *)
Definition save (im : image) (path format : string) (sizes : option (list (Z * Z)))
  : io unit := fun w =>
  if dir_ready w (dirname path) then
    match write w path with
    | Accepted =>
        (Ok tt,
         World (<[path := File format im (ico_frames im <$> sizes)]> (fs w))
           (log w ++ [Save path format]) (dir_ok w) (write w))
    | Refused => (Raise OSError, w)
    | Cut_short =>
        (Raise OSError, World (<[path := Partial]> (fs w)) (log w) (dir_ok w) (write w))
    end
  else (Raise FileNotFoundError, w).

Fixpoint io_for {A} (l : list A) (body : A -> io unit) : io unit :=
  match l with
  | [] => io_ret tt
  | a :: l' => (body a ;; io_for l' body)%io
  end.

(* ================================================================== *)
(** * generate_icon.py *)
(* ================================================================== *)

Module generate_icon.

Definition INDIGO_TOP : rgb := (99, 102, 241).
Definition INDIGO_BOTTOM : rgb := (67, 56, 202).
Definition WHITE : ink := Ink3 255 255 255.
Definition SIZES : list Z := [16; 32; 48; 128].
Definition OUT_DIR : string := "extension/icons".

Definition rounded_rect_mask (size : Z) (radius_frac : float) : res image :=
  mask ← image_new L size size (Ink1 0);
  x ← int_mul_float size radius_frac;
  n ← int_of_float x;
  let r := Z.max 1 n in
  rounded_rectangle mask 0 0 (size - 1) (size - 1) r (Some (Ink1 255)) None 1.

(** [int(top + (bot - top) * t)] *)
Definition channel (top bot : Z) (t : float) : res Z :=
  d ← int_mul_float (bot - top) t;
  v ← int_add_float top d;
  int_of_float v.

Definition vertical_gradient (size : Z) (top_rgb bot_rgb : rgb) : res image :=
  img ← new_rgb size size;
  px ← for_each (fun px y =>
          t ← int_truediv y (size - 1);
          r ← channel top_rgb.1.1 bot_rgb.1.1 t;
          g ← channel top_rgb.1.2 bot_rgb.1.2 t;
          b ← channel top_rgb.2 bot_rgb.2 t;
          for_each (fun px x => putpixel px x y (r, g, b)) (range size) px)
        (range size) img;
  Ok (Raster size size px).

(** The two vertex lists [draw_v] hands to [draw.polygon]. *)
Definition v_arms (size : Z) : res (list point * list point) :=
  let s := size in
  pad ← int_mul_float s 0.16;
  tip_x ← int_mul_float s 0.50;
  tip_y ← int_mul_float s 0.74;
  thick ← int_mul_float s 0.175;
  let '(lx0, ly0) := (pad, pad) in
  let '(lx1, ly1) := ((pad + thick)%float, pad) in
  let apex_out := ((tip_x - thick * 0.38)%float, tip_y) in
  let apex_in := (tip_x, (tip_y - thick * 0.55)%float) in
  let left_arm := [(lx0, ly0); (lx1, ly1); apex_in; apex_out] in
  rx0 ← int_sub_float s pad;
  rx1' ← int_sub_float s pad;
  let '(rx0, ry0) := (rx0, pad) in
  let '(rx1, ry1) := ((rx1' - thick)%float, pad) in
  let right_arm := [(rx0, ry0); (rx1, ry1); apex_in; apex_out] in
  (* mirror right arm through the centre x *)
  right_arm ← mapM (fun '(x, y) =>
                 c ← int_mul_float 2 tip_x; Ok ((c - x)%float, y)) left_arm;
  Ok (left_arm, right_arm).

Definition draw_v (draw : image) (size : Z) (color : ink) : res image :=
  '(left_arm, right_arm) ← v_arms size;
  let draw := Polygon draw left_arm color in
  let draw := Polygon draw right_arm color in
  Ok draw.

Definition SCALE : Z := 4.

Definition make_icon (size : Z) : res image :=
  let S := size * SCALE in
  bg ← vertical_gradient S INDIGO_TOP INDIGO_BOTTOM;
  base ← image_new RGBA S S (Ink4 0 0 0 0);
  mask ← rounded_rect_mask S 0.22;
  let base := Paste base bg mask in
  layer ← image_new RGBA S S (Ink4 0 0 0 0);
  layer ← draw_v layer S WHITE;
  let base := Alpha_composite base layer in
  let icon := Resize base size size LANCZOS in
  Ok icon.

Definition icon_path (sz : Z) : string :=
  OUT_DIR +:+ "/icon-" +:+ str sz +:+ ".png".

Definition newline : string := String (Ascii.ascii_of_nat 10) EmptyString.

(** The body of the loop over [SIZES]. *)
Definition write_icon (sz : Z) : io unit :=
  (icon <- render make_icon sz ;;
   let path := icon_path sz in
   save icon path "PNG" None ;;
   print ("  ✓  " +:+ path +:+ "  (" +:+ str sz +:+ "×" +:+ str sz +:+ ")"))%io.

Definition main : io unit :=
  (makedirs OUT_DIR ;;
   io_for SIZES write_icon ;;
   print (newline +:+ "Done. All icons written to " +:+ OUT_DIR))%io.

End generate_icon.

(* ================================================================== *)
(** * generate_favicon.py *)
(* ================================================================== *)

Module generate_favicon.

Definition bg_color : ink := Ink3 15 23 42.
Definition accent : ink := Ink3 99 102 241.
Definition highlight : rgb := (139, 92, 246).

Definition with_alpha (c : rgb) (a : Z) : ink := Ink4 c.1.1 c.1.2 c.2 a.

(** One pass of the highlight loop, for loop index [i]. *)
Definition ring_step (size radius : Z) (img : image) (i : Z) : res image :=
  let alpha := Z.max 0 (60 - i * 15) in
  overlay ← image_new RGBA size size (Ink4 0 0 0 0);
  od ← rounded_rectangle overlay i i (size - 1 - i) (size - 1 - i) radius
         None (Some (with_alpha highlight alpha)) 1;
  Ok (Alpha_composite img od).

(** The vertex lists [v_poly] and [right_half]. *)
Definition v_polys (size : Z) : res (list point * list point) :=
  margin ← int_mul_float size 0.18;
  top_y ← int_mul_float size 0.22;
  bot_y ← int_mul_float size 0.78;
  mid_x ← int_truediv size 2;
  thick ← int_mul_float size 0.13;
  let left_outer_x := margin in
  let left_inner_x := (margin + thick * 1.6)%float in
  right_outer_x ← int_sub_float size margin;
  sm ← int_sub_float size margin;
  let right_inner_x := (sm - thick * 1.6)%float in
  let v_poly := [
    (left_outer_x, top_y);
    (left_inner_x, top_y);
    (mid_x, (bot_y - thick * 0.9)%float);
    (right_inner_x, top_y);
    (right_outer_x, top_y);
    (mid_x, bot_y)
  ] in
  let right_half := [
    (mid_x, top_y);
    (right_inner_x, top_y);
    (right_outer_x, top_y);
    (mid_x, bot_y)
  ] in
  Ok (v_poly, right_half).

Definition make_vaulty_favicon (size : Z) : res image :=
  img ← image_new RGBA size size (Ink4 0 0 0 0);
  let radius := size / 5 in
  img ← rounded_rectangle img 0 0 (size - 1) (size - 1) radius
          (Some bg_color) None 1;
  img ← for_each (ring_step size radius) (range 4) img;
  '(v_poly, right_half) ← v_polys size;
  let img := Polygon img v_poly accent in
  overlay2 ← image_new RGBA size size (Ink4 0 0 0 0);
  let od2 := Polygon overlay2 right_half (with_alpha highlight 200) in
  let img := Alpha_composite img od2 in
  Ok img.

Definition show_sizes (sizes : list Z) : string :=
  "[" +:+ String.concat ", " (str <$> sizes) +:+ "]".

Definition save_favicon (path : string) : io unit :=
  let sizes := [16; 32; 48; 64] in
  (makedirs (dirname path) ;;
   largest <- render make_vaulty_favicon (List.last sizes 0) ;;
   save largest path "ICO" (Some ((fun s => (s, s)) <$> sizes)) ;;
   print ("✓ Favicon saved → " +:+ path) ;;
   print ("  Sizes embedded: " +:+ show_sizes sizes))%io.

(** The script body, [file] standing for [__file__]. *)
Definition main (file : string) : io unit :=
  let out := path_join (path_join (path_join (dirname file) "web") "app") "favicon.ico" in
  save_favicon out.

End generate_favicon.

(* ================================================================== *)
(** * What a float means: values, rounding *)
(* ================================================================== *)

(** Powers of two. *)
Definition bpow (e : Z) : R := powerRZ 2 e.
Arguments bpow : simpl never.

(** The real number a (finite) binary float stands for. *)
Definition SF2R (x : spec_float) : R :=
  match x with
  | S754_finite s m e => (IZR (cond_Zopp s (Zpos m)) * bpow e)%R
  | _ => 0%R
  end.

Definition F2R (x : float) : R := SF2R (Prim2SF x).

Definition finite (x : float) : Prop := is_finite_SF (Prim2SF x) = true.

(** [u] lies in the unit interval starting at [m], at the place [l] says. *)
Definition inbetween (u : R) (m : Z) (l : location) : Prop :=
  match l with
  | loc_Exact => u = IZR m
  | loc_Inexact Lt => (IZR m < u < IZR m + /2)%R
  | loc_Inexact Eq => u = (IZR m + /2)%R
  | loc_Inexact Gt => (IZR m + /2 < u < IZR m + 1)%R
  end.

Definition fexp64 (e : Z) : Z := Z.max (e - 53) (-1074).

Definition inbetween_rec (u : R) (mrs : shr_record) : Prop :=
  inbetween u (shr_m mrs) (loc_of_shr_record mrs).

(** The result of rounding to [n] units of [2 ^ E]. *)
Definition mk_float (sx : bool) (n E : Z) : spec_float :=
  if n =? 0 then S754_zero sx
  else if n =? 2 ^ 53 then
    (if E + 1 <=? 971 then S754_finite sx (2 ^ 52)%positive (E + 1) else S754_infinity sx)
  else if E <=? 971 then S754_finite sx (Z.to_pos n) E else S754_infinity sx.

(** The largest finite binary64 number. *)
Definition max_float_R : R := (IZR (2 ^ 53 - 1) * bpow 971)%R.

(** [r] is a correct rounding of the real [y]: it is finite unless [y] is
    beyond the largest float, and then within half a unit in the last
    place of [y], and equal to [y] when [y] is representable. *)
Definition rnd_ok (y : R) (r : spec_float) : Prop :=
  valid_binary r = true /\
  ((Rabs y <= max_float_R)%R -> is_finite_SF r = true) /\
  (is_finite_SF r = true ->
   (Rabs (SF2R r - y) <= Rabs y * bpow (-53) + bpow (-1075))%R /\
   (forall j g, y = (IZR j * bpow g)%R -> -1074 <= g -> (Rabs y < bpow (g + 53))%R ->
      SF2R r = y)).

(** The colour of row [y] of the gradient, as the loop body computes it. *)
Definition row_color (size : Z) (top_rgb bot_rgb : rgb) (y : Z) : res rgb :=
  t ← int_truediv y (size - 1);
  r ← generate_icon.channel top_rgb.1.1 bot_rgb.1.1 t;
  g ← generate_icon.channel top_rgb.1.2 bot_rgb.1.2 t;
  b ← generate_icon.channel top_rgb.2 bot_rgb.2 t;
  Ok (r, g, b).

Definition row_color_or_black (size : Z) (top_rgb bot_rgb : rgb) (y : Z) : rgb :=
  match row_color size top_rgb bot_rgb y with
  | Ok c => c
  | Raise _ => (0, 0, 0)
  end.

(** A colour with 8-bit channels. *)
Definition color8 (c : rgb) : Prop :=
  0 <= c.1.1 <= 255 /\ 0 <= c.1.2 <= 255 /\ 0 <= c.2 <= 255.

(** [q] is the float nearest-or-so to [c * S]: finite, and off by at most
    [S / 2^48]. *)
Definition near (S : R) (q : float) (c : R) : Prop :=
  finite q /\ (Rabs (F2R q - c * S) <= S / 281474976710656)%R.

Definition near_pt (S : R) (p : point) (c : R * R) : Prop :=
  near S p.1 c.1 /\ near S p.2 c.2.

(** The proportions of the two glyphs, as fractions of the canvas size. *)
Definition icon_left_ideal : list (R * R) :=
  [(16 / 100, 16 / 100); (335 / 1000, 16 / 100);
   (1 / 2, 64375 / 100000); (4335 / 10000, 74 / 100)]%R.

Definition icon_right_ideal : list (R * R) :=
  [(84 / 100, 16 / 100); (665 / 1000, 16 / 100);
   (1 / 2, 64375 / 100000); (5665 / 10000, 74 / 100)]%R.

Definition favicon_v_ideal : list (R * R) :=
  [(18 / 100, 22 / 100); (388 / 1000, 22 / 100); (1 / 2, 663 / 1000);
   (612 / 1000, 22 / 100); (82 / 100, 22 / 100); (1 / 2, 78 / 100)]%R.

Definition favicon_right_half_ideal : list (R * R) :=
  [(1 / 2, 22 / 100); (612 / 1000, 22 / 100); (82 / 100, 22 / 100);
   (1 / 2, 78 / 100)]%R.

(** A vertex inside the canvas [0, size] x [0, size]. *)
Definition in_canvas (size : Z) (p : point) : Prop :=
  finite p.1 /\ finite p.2 /\
  (0 <= F2R p.1 <= IZR size)%R /\ (0 <= F2R p.2 <= IZR size)%R.

(** [p2] is [p1] scaled by [S2 / S1], exactly (as real numbers). *)
Definition scaled_pt (S1 S2 : Z) (p1 p2 : point) : Prop :=
  F2R p2.1 = (F2R p1.1 * (IZR S2 / IZR S1))%R /\
  F2R p2.2 = (F2R p1.2 * (IZR S2 / IZR S1))%R.

(** The same up to rounding: within [S2 / 2^47] in each coordinate. *)
Definition scaled_pt_approx (S1 S2 : Z) (p1 p2 : point) : Prop :=
  (Rabs (F2R p2.1 - F2R p1.1 * (IZR S2 / IZR S1)) <= IZR S2 / 140737488355328)%R /\
  (Rabs (F2R p2.2 - F2R p1.2 * (IZR S2 / IZR S1)) <= IZR S2 / 140737488355328)%R.

(** Reflection of a vertex through the vertical line [x = cx], in float
    arithmetic as [draw_v] writes it. *)
Definition mirror (cx : float) (p : point) : point := ((2 * cx - p.1)%float, p.2).

(** Proportions strictly inside the unit square. *)
Definition inner (c : R * R) : Prop :=
  (1 / 100 <= c.1 <= 99 / 100)%R /\ (1 / 100 <= c.2 <= 99 / 100)%R.

(** The sizes rendered and the paths written, in the order of the log. *)
Definition renders (l : list event) : list Z :=
  l ≫= (fun e => match e with Render s => [s] | _ => [] end).

Definition saves (l : list event) : list string :=
  l ≫= (fun e => match e with Save p _ => [p] | _ => [] end).

(** A world with an empty disk in which every directory can be created
    and every write is accepted. *)
Definition calm : world :=
  World ∅ [] (fun _ => true) (fun _ => Accepted).

(** The same, but that the write to [p] is refused. *)
Definition fails_at (p : string) : world :=
  World ∅ [] (fun _ => true) (fun q => if String.eqb q p then Refused else Accepted).

(** The channel value the specification gives for row [y] of a gradient
    whose last row is [n]: [int(top + (bot - top) * (y / n))], evaluated as
    Python evaluates it. *)
Definition interpolated (top bot y n : Z) : res Z :=
  t ← int_truediv y n;
  d ← float_of_int (bot - top);
  a ← float_of_int top;
  int_of_float (a + d * t)%float.

(** Overlay [i] of the highlight ring on size [size], as specified. *)
Definition ring_overlay (size radius i : Z) : image :=
  Rounded_rectangle (Image_new RGBA size size (Ink4 0 0 0 0))
    i i (size - 1 - i) (size - 1 - i) radius
    None (Some (Ink4 139 92 246 (Z.max 0 (60 - 15 * i)))) 1.

(** [n] is the real [x] truncated toward zero. *)
Definition is_trunc (x : R) (n : Z) : Prop :=
  ((0 <= x)%R -> (IZR n <= x < IZR n + 1)%R)
  /\ ((x <= 0)%R -> (IZR n - 1 < x <= IZR n)%R).

(** [v] is the exact interpolation [a + (b - a) * y / n] rounded down, or
    one less. *)
Definition within_one_below (n a b y v : Z) : Prop :=
  n * a + (b - a) * y - n <= n * v <= n * a + (b - a) * y.

(** [v] then [v'] go from [a] towards [b] without turning back. *)
Definition toward (a b v v' : Z) : Prop :=
  (a <= b -> a <= v <= v' /\ v' <= b) /\ (b <= a -> b <= v' <= v /\ v <= a).



(** Where a run stands after the write to [p] has failed, the disk being
    [f] and the log [l] before it: the write raised, and left a partial
    file if it had got as far as opening the path. *)
Definition failed_write (w : world) (f : gmap string file) (l : list event) (p : string)
  : res unit * world :=
  (Raise OSError,
   World (match write w p with Cut_short => <[p := Partial]> f | _ => f end)
     l (dir_ok w) (write w)).


Fixpoint no_slash (s : string) : Prop :=
  match s with
  | EmptyString => True
  | String c s' => c <> "/"%char /\ no_slash s'
  end.

(** The boxes of all rounded rectangles and the vertices of all polygons
    drawn while building an image. *)
Fixpoint boxes (im : image) : list (Z * Z * Z * Z) :=
  match im with
  | Image_new _ _ _ _ | Raster _ _ _ => []
  | Rounded_rectangle im x0 y0 x1 y1 _ _ _ _ => boxes im ++ [(x0, y0, x1, y1)]
  | Polygon im _ _ => boxes im
  | Paste im src mask => boxes im ++ boxes src ++ boxes mask
  | Alpha_composite im1 im2 => boxes im1 ++ boxes im2
  | Resize im _ _ _ => boxes im
  end.

Fixpoint vertices (im : image) : list point :=
  match im with
  | Image_new _ _ _ _ | Raster _ _ _ => []
  | Rounded_rectangle im _ _ _ _ _ _ _ _ => vertices im
  | Polygon im pts _ => vertices im ++ pts
  | Paste im src mask => vertices im ++ vertices src ++ vertices mask
  | Alpha_composite im1 im2 => vertices im1 ++ vertices im2
  | Resize im _ _ _ => vertices im
  end.

(** A box with its corners in order, on a canvas of the given size. *)
Definition box_on_canvas (size : Z) (b : Z * Z * Z * Z) : Prop :=
  0 <= b.1.1.1 <= b.1.2 /\ b.1.2 < size /\ 0 <= b.1.1.2 <= b.2 /\ b.2 < size.

(* ================================================================== *)
(** * Binary64 rounding: what [SpecFloat] computes *)
(* ================================================================== *)

Section Bpow.
Local Open Scope R_scope.

Lemma bpow_pos e : 0 < bpow e.
Proof. apply powerRZ_lt; lra. Qed.

Lemma bpow_add a b : bpow (a + b) = bpow a * bpow b.
Proof. apply powerRZ_add; lra. Qed.

Lemma bpow_0 : bpow 0 = 1.
Proof. reflexivity. Qed.

Lemma bpow_1 : bpow 1 = 2.
Proof. unfold bpow; simpl; lra. Qed.

Lemma bpow_opp e : bpow (- e) = / bpow e.
Proof. apply powerRZ_neg'. Qed.

Lemma bpow_IZR k : (0 <= k)%Z -> bpow k = IZR (2 ^ k).
Proof.
  intros Hk. destruct k as [|p|p]; [reflexivity| |lia].
  unfold bpow. change (2 ^ Z.pos p)%Z with (Z.pow_pos 2 p).
  now rewrite Zpower_pos_powerRZ.
Qed.

Lemma bpow_ge_1 k : (0 <= k)%Z -> 1 <= bpow k.
Proof.
  intros Hk. rewrite bpow_IZR by assumption. apply IZR_le.
  assert (0 < 2 ^ k)%Z by (apply Z.pow_pos_nonneg; lia). lia.
Qed.

Lemma bpow_le a b : (a <= b)%Z -> bpow a <= bpow b.
Proof.
  intros H. replace b with (a + (b - a))%Z by lia. rewrite bpow_add.
  pose proof (bpow_pos a). pose proof (bpow_ge_1 (b - a) ltac:(lia)). nra.
Qed.

Lemma bpow_lt a b : (a < b)%Z -> bpow a < bpow b.
Proof.
  intros H. replace b with (a + 1 + (b - a - 1))%Z by lia.
  rewrite !bpow_add, bpow_1.
  pose proof (bpow_pos a). pose proof (bpow_ge_1 (b - a - 1) ltac:(lia)). nra.
Qed.

Lemma bpow_lt_inv a b : bpow a < bpow b -> (a < b)%Z.
Proof.
  intros H. destruct (Z_lt_le_dec a b) as [|Hle]; [assumption|].
  apply bpow_le in Hle. lra.
Qed.

Lemma bpow_cancel e : bpow e * bpow (- e) = 1.
Proof. rewrite <- bpow_add. replace (e + - e)%Z with 0%Z by lia. apply bpow_0. Qed.

Lemma bpow_m1 : bpow (-1) = / 2.
Proof. unfold bpow. simpl. lra. Qed.

Lemma bpow_half e : bpow e * / 2 = bpow (e - 1).
Proof.
  replace (e - 1)%Z with (e + -1)%Z by lia. rewrite bpow_add.
  f_equal. unfold bpow. simpl. lra.
Qed.

End Bpow.

Global Opaque bpow.

(** digits *)
Lemma digits2_pos_bounds p :
  2 ^ (Zpos (digits2_pos p) - 1) <= Zpos p < 2 ^ Zpos (digits2_pos p).
Proof.
  induction p as [p IH|p IH|]; simpl digits2_pos.
  - rewrite Pos2Z.inj_succ.
    replace (Z.succ (Z.pos (digits2_pos p)) - 1) with (Z.pos (digits2_pos p) - 1 + 1) by lia.
    rewrite Z.pow_succ_r by lia.
    assert (0 <= Z.pos (digits2_pos p) - 1) by lia.
    rewrite Z.pow_add_r by lia. lia.
  - rewrite Pos2Z.inj_succ.
    replace (Z.succ (Z.pos (digits2_pos p)) - 1) with (Z.pos (digits2_pos p) - 1 + 1) by lia.
    rewrite Z.pow_succ_r by lia.
    rewrite Z.pow_add_r by lia. lia.
  - simpl. lia.
Qed.

Lemma digits2_pos_unique p d :
  2 ^ (d - 1) <= Zpos p < 2 ^ d -> Zpos (digits2_pos p) = d.
Proof.
  intros [H1 H2]. pose proof (digits2_pos_bounds p) as [H3 H4].
  set (d' := Zpos (digits2_pos p)) in *.
  assert (0 < d') by (subst d'; lia).
  destruct (Z_lt_le_dec d 1) as [Hd|Hd].
  { assert (2 ^ d <= 2 ^ 0) by (destruct (Z_lt_le_dec d 0); [rewrite Z.pow_neg_r; lia|apply Z.pow_le_mono_r; lia]).
    simpl in *. lia. }
  destruct (Z.lt_total d d') as [Hlt|[Heq|Hgt]]; [|lia|].
  - assert (2 ^ d <= 2 ^ (d' - 1)) by (apply Z.pow_le_mono_r; lia). lia.
  - assert (2 ^ d' <= 2 ^ (d - 1)) by (apply Z.pow_le_mono_r; lia). lia.
Qed.

(** iter_pos *)
Lemma iter_pos_nat {A} (f : A -> A) p x :
  iter_pos f p x = Nat.iter (Pos.to_nat p) f x.
Proof.
  revert x. induction p as [p IH|p IH|]; intros x; simpl iter_pos.
  - rewrite !IH. rewrite Pos2Nat.inj_xI.
    replace (S (2 * Pos.to_nat p))%nat with (Pos.to_nat p + (Pos.to_nat p + 1))%nat by lia.
    rewrite !Nat.iter_add. reflexivity.
  - rewrite !IH. rewrite Pos2Nat.inj_xO.
    replace (2 * Pos.to_nat p)%nat with (Pos.to_nat p + Pos.to_nat p)%nat by lia.
    rewrite Nat.iter_add. reflexivity.
  - reflexivity.
Qed.

Lemma shr_1_inbetween u mrs :
  0 <= shr_m mrs -> inbetween_rec u mrs ->
  inbetween_rec (u / 2) (shr_1 mrs) /\ 0 <= shr_m (shr_1 mrs).
Proof.
  destruct mrs as [m r s]. unfold inbetween_rec. simpl shr_m. intros Hm H.
  destruct m as [|p|p]; [| |lia].
  - destruct r, s; simpl in *; split; try lia; lra.
  - destruct p as [p|p|];
      [rewrite Pos2Z.inj_xI in H|rewrite Pos2Z.inj_xO in H|];
      destruct r, s; simpl in *; rewrite ?plus_IZR, ?mult_IZR in H;
      (split; [|lia]); lra.
Qed.

Lemma iter_shr_1_inbetween n : forall u mrs,
  0 <= shr_m mrs -> inbetween_rec u mrs ->
  inbetween_rec (u * bpow (- Z.of_nat n)) (Nat.iter n shr_1 mrs)
  /\ 0 <= shr_m (Nat.iter n shr_1 mrs).
Proof.
  induction n as [|n IH]; intros u mrs Hm H.
  - simpl Nat.iter. change (- Z.of_nat 0) with 0. rewrite bpow_0, Rmult_1_r. auto.
  - destruct (IH u mrs Hm H) as [H1 H2].
    destruct (shr_1_inbetween _ _ H2 H1) as [H3 H4].
    split; [|exact H4].
    replace (- Z.of_nat (S n)) with (- Z.of_nat n + -1) by lia.
    rewrite bpow_add, bpow_m1.
    simpl Nat.iter. replace (u * (bpow (- Z.of_nat n) * / 2))%R with (u * bpow (- Z.of_nat n) / 2)%R by lra.
    exact H3.
Qed.

Lemma fexp64_spec e :
  fexp64 e = e - 53 /\ -1074 <= e - 53 \/ fexp64 e = -1074 /\ e - 53 < -1074.
Proof. unfold fexp64. lia. Qed.

Lemma fexp64_eq e : fexp prec emax e = fexp64 e.
Proof. reflexivity. Qed.

Lemma loc_of_shr_record_of_loc m l :
  loc_of_shr_record (shr_record_of_loc m l) = l /\ shr_m (shr_record_of_loc m l) = m.
Proof. destruct l as [|[| |]]; auto. Qed.

Lemma shr_fexp_inbetween m e l x :
  0 < m -> inbetween (x * bpow (- e)) m l -> e <= fexp64 (Zdigits2 m + e) ->
  exists mrs, shr_fexp prec emax m e l = (mrs, fexp64 (Zdigits2 m + e))
    /\ inbetween_rec (x * bpow (- fexp64 (Zdigits2 m + e))) mrs /\ 0 <= shr_m mrs.
Proof.
  intros Hm Hx He. unfold shr_fexp. rewrite fexp64_eq.
  set (E := fexp64 (Zdigits2 m + e)) in *.
  destruct (loc_of_shr_record_of_loc m l) as [Hl Hsm].
  assert (Hin : inbetween_rec (x * bpow (- e)) (shr_record_of_loc m l)).
  { unfold inbetween_rec. now rewrite Hl, Hsm. }
  assert (Hnn : 0 <= shr_m (shr_record_of_loc m l)) by (rewrite Hsm; lia).
  unfold shr. destruct (E - e) as [|p|p] eqn:Hk; [| |lia].
  - exists (shr_record_of_loc m l). replace E with e by lia. auto.
  - exists (iter_pos shr_1 p (shr_record_of_loc m l)).
    split; [f_equal; lia|].
    rewrite iter_pos_nat.
    destruct (iter_shr_1_inbetween (Pos.to_nat p) _ _ Hnn Hin) as [H1 H2].
    split; [|exact H2].
    rewrite positive_nat_Z in H1.
    replace (- E) with (- e + - Z.pos p) by lia.
    rewrite bpow_add, <- Rmult_assoc. exact H1.
Qed.

Lemma inbetween_bounds u m l :
  inbetween u m l -> (IZR m <= u < IZR m + 1)%R.
Proof. destruct l as [|[| |]]; simpl; intros; lra. Qed.

Lemma rne_inbetween u m l :
  inbetween u m l ->
  (Rabs (IZR (round_nearest_even m l) - u) <= /2)%R
  /\ (round_nearest_even m l = m \/ round_nearest_even m l = m + 1).
Proof.
  destruct l as [|[| |]]; simpl; intros H.
  - split; [|auto]. subst u. rewrite Rminus_diag, Rabs_R0. lra.
  - destruct (Z.even m); (split; [|auto]); rewrite ?plus_IZR; subst u;
      apply Rabs_le; lra.
  - split; [|auto]. apply Rabs_le; lra.
  - split; [|auto]. rewrite plus_IZR. apply Rabs_le; lra.
Qed.

Lemma IZR_lt_succ_le (a b : Z) : (IZR a < IZR b + 1)%R -> a <= b.
Proof.
  intros H. rewrite <- plus_IZR in H. apply lt_IZR in H. lia.
Qed.

Lemma bra_core sx m e l x :
  0 < m -> inbetween (x * bpow (- e)) m l -> e <= fexp64 (Zdigits2 m + e) ->
  exists n,
    0 <= n <= 2 ^ 53
    /\ (Rabs (IZR n - x * bpow (- fexp64 (Zdigits2 m + e))) <= /2)%R
    /\ (-1074 < fexp64 (Zdigits2 m + e) -> 2 ^ 52 <= n)
    /\ binary_round_aux prec emax sx m e l = mk_float sx n (fexp64 (Zdigits2 m + e)).
Proof.
  intros Hm Hx He.
  destruct (shr_fexp_inbetween m e l x Hm Hx He) as (mrs & Hshr & Hin & Hnn).
  destruct m as [|p|p]; try lia.
  change (Zdigits2 (Z.pos p)) with (Z.pos (digits2_pos p)) in *.
  pose proof (digits2_pos_bounds p) as [Hd1 Hd2].
  set (d := Z.pos (digits2_pos p)) in *.
  assert (Hdpos : 0 < d) by (subst d; lia).
  set (E := fexp64 (d + e)) in *.
  set (u := (x * bpow (- E))%R) in *.
  destruct (rne_inbetween _ _ _ Hin) as [Hnear Hn].
  set (n := round_nearest_even (shr_m mrs) (loc_of_shr_record mrs)) in *.
  pose proof (inbetween_bounds _ _ _ Hin) as Hu.
  pose proof (inbetween_bounds _ _ _ Hx) as Hxm.
  (* x between powers *)
  assert (Hx1 : (bpow (d - 1 + e) <= x < bpow (d + e))%R).
  { rewrite !bpow_add. 
    assert (Hx' : x = (x * bpow (- e) * bpow e)%R).
    { rewrite Rmult_assoc, (Rmult_comm (bpow (- e))), bpow_cancel. lra. }
    pose proof (bpow_pos e).
    rewrite (bpow_IZR (d - 1)), (bpow_IZR d) by lia.
    apply IZR_le in Hd1. assert (IZR (Z.pos p) + 1 <= IZR (2 ^ d))%R.
    { rewrite <- plus_IZR. apply IZR_le. lia. }
    split; rewrite Hx'.
    - apply Rmult_le_compat_r; lra.
    - apply Rmult_lt_compat_r; lra. }
  assert (Hu53 : (u < bpow 53)%R).
  { unfold u. apply Rlt_le_trans with (bpow (d + e) * bpow (- E))%R.
    - apply Rmult_lt_compat_r; [apply bpow_pos|lra].
    - rewrite <- bpow_add. apply bpow_le. unfold E, fexp64. lia. }
  assert (Hm53 : shr_m mrs <= 2 ^ 53 - 1).
  { assert (IZR (shr_m mrs) < IZR (2 ^ 53))%R by (rewrite <- bpow_IZR by lia; lra).
    apply lt_IZR in H. lia. }
  assert (Hnorm : -1074 < E -> 2 ^ 52 <= shr_m mrs).
  { intros HE. assert (E = d + e - 53) by (unfold E, fexp64 in *; clear - HE; lia).
    assert (bpow 52 <= u)%R.
    { unfold u. apply Rle_trans with (bpow (d - 1 + e) * bpow (- E))%R.
      - rewrite <- bpow_add. apply bpow_le. lia.
      - apply Rmult_le_compat_r; [left; apply bpow_pos|lra]. }
    rewrite bpow_IZR in H0 by lia.
    assert (Hlt : (IZR (2 ^ 52) < IZR (shr_m mrs + 1))%R) by (rewrite plus_IZR; lra).
    apply lt_IZR in Hlt. clear - Hlt. lia. }
  exists n. split; [lia|]. split; [exact Hnear|]. split; [lia|].
  unfold binary_round_aux. rewrite Hshr. fold n.
  unfold mk_float.
  destruct (Z.eqb_spec n 0) as [Hn0|Hn0].
  { rewrite Hn0. unfold shr_fexp. simpl Zdigits2. rewrite fexp64_eq.
    unfold shr. destruct (fexp64 (0 + E) - E) as [|q|q] eqn:Hk; [reflexivity| |reflexivity].
    unfold E, fexp64 in Hk. lia. }
  destruct (Z.eqb_spec n (2 ^ 53)) as [Hn53|Hn53].
  { rewrite Hn53. unfold shr_fexp. change (Zdigits2 (2 ^ 53)) with 54. rewrite fexp64_eq.
    replace (fexp64 (54 + E) - E) with 1 by (unfold E, fexp64; lia).
    unfold shr. change (iter_pos shr_1 1 (shr_record_of_loc (2 ^ 53) loc_Exact))
      with (Build_shr_record (2 ^ 52) false false).
    cbv [shr_m]. change (2 ^ 52) with (Z.pos (2 ^ 52)).
    change (emax - prec) with 971. reflexivity. }
  destruct n as [|q|q] eqn:Hnq; try lia.
  unfold shr_fexp. simpl Zdigits2. rewrite fexp64_eq.
  pose proof (digits2_pos_bounds q) as [Hq1 Hq2].
  assert (Z.pos (digits2_pos q) <= 53).
  { destruct (Z_lt_le_dec 53 (Z.pos (digits2_pos q))) as [Hgt|]; [|lia].
    assert (2 ^ 53 <= 2 ^ (Z.pos (digits2_pos q) - 1)) by (apply Z.pow_le_mono_r; lia). lia. }
  unfold shr. change (emax - prec) with 971.
  destruct (fexp64 (Z.pos (digits2_pos q) + E) - E) as [|r|r] eqn:Hk.
  - reflexivity.
  - unfold E, fexp64 in Hk. clear - Hk H. lia.
  - reflexivity.
Qed.

Lemma rnd_ok_finite_intro y r :
  is_finite_SF r = true -> valid_binary r = true ->
  (Rabs (SF2R r - y) <= Rabs y * bpow (-53) + bpow (-1075))%R ->
  (forall j g, y = (IZR j * bpow g)%R -> -1074 <= g -> (Rabs y < bpow (g + 53))%R ->
     SF2R r = y) ->
  rnd_ok y r.
Proof. intros Hf Hv He Hx. split; [exact Hv|]. split; auto. Qed.

Lemma max_float_lt_bpow : (max_float_R < bpow 1024)%R.
Proof.
  unfold max_float_R. replace 1024 with (53 + 971) by lia.
  rewrite bpow_add, (bpow_IZR 53) by lia.
  apply Rmult_lt_compat_r; [apply bpow_pos|]. apply IZR_lt. lia.
Qed.

Lemma Rabs_le_bounds (a b : R) : (Rabs a <= b -> - b <= a <= b)%R.
Proof. unfold Rabs. destruct (Rcase_abs a); lra. Qed.

Lemma Rabs_IZR_half (a b : Z) : (Rabs (IZR a - IZR b) <= /2)%R -> a = b.
Proof.
  intros H. rewrite <- minus_IZR in H.
  assert (-1 < IZR (a - b) < 1)%R as H1.
  { apply Rabs_le_bounds in H. lra. }
  apply one_IZR_lt1 in H1. lia.
Qed.

Lemma valid_finite_intro sx n E :
  0 < n -> fexp64 (Z.pos (digits2_pos (Z.to_pos n)) + E) = E -> E <= 971 ->
  valid_binary (S754_finite sx (Z.to_pos n) E) = true.
Proof.
  intros Hn Hc HE. unfold SpecFloat.valid_binary, bounded, canonical_mantissa.
  rewrite fexp64_eq, Hc, Z.eqb_refl. change (emax - prec) with 971.
  apply Z.leb_le in HE. now rewrite HE.
Qed.

Lemma mk_float_real sx m e x n :
  let E := fexp64 (Zdigits2 m + e) in
  0 < m ->
  (IZR m * bpow e <= x < (IZR m + 1) * bpow e)%R ->
  0 <= n <= 2 ^ 53 ->
  (Rabs (IZR n - x * bpow (- E)) <= /2)%R ->
  (-1074 < E -> 2 ^ 52 <= n) ->
  let r := mk_float sx n E in
  valid_binary r = true /\
  ((x <= max_float_R)%R -> is_finite_SF r = true) /\
  (is_finite_SF r = true -> SF2R r = (IZR (cond_Zopp sx n) * bpow E)%R) /\
  (Rabs (IZR n * bpow E - x) <= x * bpow (-53) + bpow (-1075))%R /\
  (forall j g, x = (IZR j * bpow g)%R -> -1074 <= g -> (x < bpow (g + 53))%R ->
     (IZR n * bpow E)%R = x).
Proof.
  intros E Hm Hxm Hn Hnear Hnorm r.
  destruct m as [|p|p]; try lia.
  change (Zdigits2 (Z.pos p)) with (Z.pos (digits2_pos p)) in *.
  pose proof (digits2_pos_bounds p) as [Hd1 Hd2].
  set (d := Z.pos (digits2_pos p)) in *.
  assert (Hdpos : 0 < d) by (subst d; lia).
  assert (Hx1 : (bpow (d - 1 + e) <= x < bpow (d + e))%R).
  { rewrite !bpow_add. pose proof (bpow_pos e).
    rewrite (bpow_IZR (d - 1)), (bpow_IZR d) by lia.
    apply IZR_le in Hd1. assert (IZR (Z.pos p) + 1 <= IZR (2 ^ d))%R.
    { rewrite <- plus_IZR. apply IZR_le. lia. }
    split.
    - apply Rle_trans with (IZR (Z.pos p) * bpow e)%R; [|lra].
      apply Rmult_le_compat_r; lra.
    - apply Rlt_le_trans with ((IZR (Z.pos p) + 1) * bpow e)%R; [lra|].
      apply Rmult_le_compat_r; lra. }
  assert (Hxpos : (0 < x)%R).
  { pose proof (bpow_pos (d - 1 + e)). lra. }
  assert (HEmin : -1074 <= E).
  { destruct (fexp64_spec (d + e)) as [[HE1 HE2]|[HE1 HE2]]; fold E in HE1; lia. }
  assert (Hov1 : (x <= max_float_R)%R -> E <= 971).
  { intros Hx. pose proof max_float_lt_bpow.
    assert (bpow (d - 1 + e) < bpow 1024)%R as Hlt by lra.
    apply bpow_lt_inv in Hlt.
    destruct (fexp64_spec (d + e)) as [[HE1 HE2]|[HE1 HE2]]; fold E in HE1; lia. }
  assert (Hov2 : (x <= max_float_R)%R -> n = 2 ^ 53 -> E + 1 <= 971).
  { intros Hx Hn53. destruct (Z_le_gt_dec (E + 1) 971) as [|Hgt]; [assumption|exfalso].
    apply Rabs_le_bounds in Hnear. rewrite Hn53 in Hnear.
    assert (x * bpow (- E) <= IZR (2 ^ 53 - 1))%R.
    { apply Rle_trans with (max_float_R * bpow (- E))%R.
      - apply Rmult_le_compat_r; [left; apply bpow_pos|exact Hx].
      - unfold max_float_R. rewrite Rmult_assoc, <- bpow_add.
        assert (bpow (971 + - E) <= bpow 0)%R by (apply bpow_le; lia).
        rewrite bpow_0 in H.
        assert (0 < IZR (2 ^ 53 - 1))%R by (apply IZR_lt; lia).
        pose proof (bpow_pos (971 + - E)). nra. }
    rewrite minus_IZR in H. lra. }
  assert (Herr : (Rabs (IZR n * bpow E - x) <= x * bpow (-53) + bpow (-1075))%R).
  { replace (IZR n * bpow E - x)%R with ((IZR n - x * bpow (- E)) * bpow E)%R
      by (rewrite Rmult_minus_distr_r, Rmult_assoc, (Rmult_comm (bpow (- E))), bpow_cancel; lra).
    rewrite Rabs_mult, (Rabs_pos_eq (bpow E)) by (left; apply bpow_pos).
    pose proof (bpow_pos E) as HbE. pose proof (bpow_pos (-53)) as Hb53.
    pose proof (bpow_pos (-1075)) as Hb1075. pose proof (bpow_half E) as Hhalf.
    apply Rle_trans with (bpow (E - 1)); [rewrite <- Hhalf; nra|].
    destruct (fexp64_spec (d + e)) as [[HE1 HE2]|[HE1 HE2]]; fold E in HE1.
    - replace (E - 1) with (d - 1 + e + -53) by lia. rewrite bpow_add.
      assert (bpow (d - 1 + e) * bpow (-53) <= x * bpow (-53))%R by (apply Rmult_le_compat_r; lra).
      lra.
    - replace (E - 1) with (-1075) by lia. nra. }
  assert (Hexact : forall j g, x = (IZR j * bpow g)%R -> -1074 <= g -> (x < bpow (g + 53))%R ->
     (IZR n * bpow E)%R = x).
  { intros j g Hj Hg Hxg.
    assert (HEg : E <= g).
    { assert (bpow (d - 1 + e) < bpow (g + 53))%R as Hlt by lra.
      apply bpow_lt_inv in Hlt.
      destruct (fexp64_spec (d + e)) as [[HE1 HE2]|[HE1 HE2]]; fold E in HE1; lia. }
    assert (Hu : (x * bpow (- E) = IZR (j * 2 ^ (g - E)))%R).
    { rewrite mult_IZR, <- bpow_IZR by lia. rewrite Hj, Rmult_assoc, <- bpow_add.
      f_equal; f_equal; lia. }
    rewrite Hu in Hnear. apply Rabs_IZR_half in Hnear. rewrite Hnear, <- Hu.
    rewrite Rmult_assoc, (Rmult_comm (bpow (- E))), bpow_cancel. lra. }
  assert (Hcanon : 0 < n -> n < 2 ^ 53 -> fexp64 (Z.pos (digits2_pos (Z.to_pos n)) + E) = E).
  { intros Hnpos Hlt.
    pose proof (digits2_pos_bounds (Z.to_pos n)) as [Hq1 Hq2].
    rewrite Z2Pos.id in Hq1, Hq2 by lia.
    assert (Hdn : Z.pos (digits2_pos (Z.to_pos n)) <= 53).
    { destruct (Z_lt_le_dec 53 (Z.pos (digits2_pos (Z.to_pos n)))) as [Hgt|]; [|lia].
      assert (2 ^ 53 <= 2 ^ (Z.pos (digits2_pos (Z.to_pos n)) - 1)) by (apply Z.pow_le_mono_r; lia). lia. }
    destruct (fexp64_spec (d + e)) as [[HE1 HE2]|[HE1 HE2]]; fold E in HE1.
    - destruct (Z.eq_dec E (-1074)) as [HEe|HEe].
      + unfold fexp64. lia.
      + assert (Z.pos (digits2_pos (Z.to_pos n)) = 53).
        { apply digits2_pos_unique. rewrite Z2Pos.id by lia. specialize (Hnorm ltac:(lia)). lia. }
        rewrite H. unfold fexp64. lia.
    - unfold fexp64. lia. }
  clearbody E. clear Hnear Hnorm.
  split; [|split; [|split; [|split; [exact Herr|exact Hexact]]]];
    subst r; unfold mk_float.
  - (* validity *)
    destruct (Z.eqb_spec n 0) as [Hn0|Hn0]; [reflexivity|].
    destruct (Z.eqb_spec n (2 ^ 53)) as [Hn53|Hn53].
    + destruct (Z.leb_spec (E + 1) 971) as [HE|HE]; [|reflexivity].
      unfold SpecFloat.valid_binary, bounded, canonical_mantissa. rewrite fexp64_eq.
      change (Z.pos (digits2_pos (2 ^ 52))) with 53. change (emax - prec) with 971.
      replace (fexp64 (53 + (E + 1))) with (E + 1) by (unfold fexp64; lia).
      rewrite Z.eqb_refl. apply Z.leb_le in HE. rewrite HE. reflexivity.
    + destruct (Z.leb_spec E 971) as [HE|HE]; [|reflexivity].
      apply valid_finite_intro; [lia|apply Hcanon; lia|lia].
  - (* no overflow below the largest float *)
    intros Hx.
    destruct (Z.eqb_spec n 0) as [Hn0|Hn0]; [reflexivity|].
    destruct (Z.eqb_spec n (2 ^ 53)) as [Hn53|Hn53].
    + specialize (Hov2 Hx Hn53). apply Z.leb_le in Hov2. rewrite Hov2. reflexivity.
    + specialize (Hov1 Hx). apply Z.leb_le in Hov1. rewrite Hov1. reflexivity.
  - (* value *)
    destruct (Z.eqb_spec n 0) as [Hn0|Hn0].
    { intros _. subst n. unfold SF2R. destruct sx; cbn [cond_Zopp]; change (- 0) with 0; lra. }
    destruct (Z.eqb_spec n (2 ^ 53)) as [Hn53|Hn53].
    + destruct (E + 1 <=? 971); [intros _|discriminate]. subst n.
      unfold SF2R. rewrite bpow_add, bpow_1.
      replace (cond_Zopp sx (2 ^ 53)) with (cond_Zopp sx (Z.pos (2 ^ 52)) * 2)
        by (destruct sx; reflexivity).
      rewrite mult_IZR. lra.
    + destruct (E <=? 971); [intros _|discriminate].
      unfold SF2R. destruct sx; simpl cond_Zopp; rewrite <- ?Pos2Z.opp_pos, ?Z2Pos.id by lia; reflexivity.
Qed.

Lemma bra_rnd_ok (sx : bool) m e l y :
  0 < m -> inbetween (Rabs y * bpow (- e)) m l -> e <= fexp64 (Zdigits2 m + e) ->
  y = (if sx then - Rabs y else Rabs y)%R ->
  rnd_ok y (binary_round_aux prec emax sx m e l).
Proof.
  intros Hm Hin He Hs.
  destruct (bra_core sx m e l (Rabs y) Hm Hin He) as (n & Hn & Hnear & Hnorm & Hr).
  rewrite Hr.
  assert (Hb : (IZR m * bpow e <= Rabs y < (IZR m + 1) * bpow e)%R).
  { pose proof (inbetween_bounds _ _ _ Hin) as [H1 H2]. pose proof (bpow_pos e).
    assert (Rabs y = Rabs y * bpow (- e) * bpow e)%R as ->.
    { rewrite Rmult_assoc, (Rmult_comm (bpow (- e))), bpow_cancel. lra. }
    split; [apply Rmult_le_compat_r|apply Rmult_lt_compat_r]; lra. }
  destruct (mk_float_real sx m e (Rabs y) n Hm Hb Hn Hnear Hnorm)
    as (Hv & Hf & Hval & Herr & Hex).
  split; [exact Hv|]. split; [exact Hf|]. intros Hfin. specialize (Hval Hfin).
  assert (Hval' : SF2R (mk_float sx n (fexp64 (Zdigits2 m + e)))
                  = (if sx then - (IZR n * bpow (fexp64 (Zdigits2 m + e)))
                     else IZR n * bpow (fexp64 (Zdigits2 m + e)))%R).
  { rewrite Hval. destruct sx; simpl cond_Zopp; rewrite ?opp_IZR; lra. }
  split.
  - rewrite Hval'. rewrite Hs at 1.
    destruct sx.
    + replace (- (IZR n * bpow (fexp64 (Zdigits2 m + e))) - - Rabs y)%R
        with (- (IZR n * bpow (fexp64 (Zdigits2 m + e)) - Rabs y))%R by lra.
      rewrite Rabs_Ropp. exact Herr.
    + exact Herr.
  - intros j g Hj Hg Hlt.
    assert (Hj' : Rabs y = (IZR (Z.abs j) * bpow g)%R).
    { rewrite Hj, Rabs_mult, (Rabs_pos_eq (bpow g)) by (left; apply bpow_pos).
      now rewrite abs_IZR. }
    specialize (Hex _ _ Hj' Hg Hlt). rewrite Hval', Hex.
    destruct sx; lra.
Qed.

Lemma digits2_pos_mul_pow2 m m' k :
  0 <= k -> Z.pos m' = Z.pos m * 2 ^ k ->
  Z.pos (digits2_pos m') = Z.pos (digits2_pos m) + k.
Proof.
  intros Hk Hm. apply digits2_pos_unique.
  pose proof (digits2_pos_bounds m) as [H1 H2].
  set (d := Z.pos (digits2_pos m)) in *. assert (0 < d) by (subst d; lia).
  replace (d + k - 1) with (d - 1 + k) by lia.
  rewrite !Z.pow_add_r, Hm by lia.
  assert (0 < 2 ^ k) by (apply Z.pow_pos_nonneg; lia). nia.
Qed.

Lemma shl_align_spec mx ex ex' :
  exists mz ez, shl_align mx ex ex' = (mz, ez)
    /\ ez <= ex' /\ ez <= ex
    /\ Z.pos mz = Z.pos mx * 2 ^ (ex - ez)
    /\ Z.pos (digits2_pos mz) + ez = Z.pos (digits2_pos mx) + ex.
Proof.
  unfold shl_align. destruct (ex' - ex) as [|d|d] eqn:Hd.
  - exists mx, ex. rewrite Z.sub_diag. repeat split; lia.
  - exists mx, ex. rewrite Z.sub_diag. repeat split; lia.
  - exists (Pos.iter xO mx d), ex'.
    assert (Hm : Z.pos (Pos.iter xO mx d) = Z.pos mx * 2 ^ (ex - ex')).
    { change (Pos.iter xO mx d) with (shift_pos d mx). rewrite shift_pos_correct.
      replace (ex - ex') with (Z.pos d) by lia. change (Z.pow_pos 2 d) with (2 ^ Z.pos d). lia. }
    repeat split; try lia.
    rewrite (digits2_pos_mul_pow2 mx _ (ex - ex')); [lia|lia|exact Hm].
Qed.

Lemma shl_align_value mx ex mz ez :
  ez <= ex -> Z.pos mz = Z.pos mx * 2 ^ (ex - ez) ->
  (IZR (Z.pos mz) * bpow ez = IZR (Z.pos mx) * bpow ex)%R.
Proof.
  intros He ->. rewrite mult_IZR, <- bpow_IZR by lia.
  rewrite Rmult_assoc, <- bpow_add. do 2 f_equal. lia.
Qed.

Lemma rnd_ok_zero s : rnd_ok 0 (S754_zero s).
Proof.
  apply rnd_ok_finite_intro; auto.
  - simpl. rewrite Rminus_diag, Rabs_R0. pose proof (bpow_pos (-53)). pose proof (bpow_pos (-1075)). nra.
Qed.

Lemma binary_round_ok (sx : bool) m e y :
  Rabs y = (IZR (Z.pos m) * bpow e)%R ->
  y = (if sx then - Rabs y else Rabs y)%R ->
  rnd_ok y (binary_round prec emax sx m e).
Proof.
  intros Hy Hs. unfold binary_round. rewrite fexp64_eq.
  destruct (shl_align_spec m e (fexp64 (Z.pos (digits2_pos m) + e)))
    as (mz & ez & -> & H1 & H2 & H3 & H4).
  apply bra_rnd_ok; try assumption; try lia.
  - simpl. rewrite Hy, <- (shl_align_value m e mz ez H2 H3).
    rewrite Rmult_assoc, bpow_cancel. lra.
  - simpl Zdigits2. rewrite H4. exact H1.
Qed.

Lemma binary_normalize_ok z e :
  rnd_ok (IZR z * bpow e) (binary_normalize prec emax z e false).
Proof.
  pose proof (bpow_pos e) as Hb. destruct z as [|p|p]; simpl binary_normalize.
  - rewrite Rmult_0_l. apply rnd_ok_zero.
  - assert (Hp : (0 < IZR (Z.pos p))%R) by (apply IZR_lt; lia).
    assert (Ha : Rabs (IZR (Z.pos p) * bpow e) = (IZR (Z.pos p) * bpow e)%R) by (apply Rabs_pos_eq; nra).
    apply binary_round_ok; [exact Ha| rewrite Ha; reflexivity].
  - assert (Hp : (0 < IZR (Z.pos p))%R) by (apply IZR_lt; lia).
    assert (Hn : IZR (Z.neg p) = (- IZR (Z.pos p))%R) by (rewrite <- opp_IZR; reflexivity).
    assert (Ha : Rabs (IZR (Z.neg p) * bpow e) = (IZR (Z.pos p) * bpow e)%R).
    { rewrite Hn. replace (- IZR (Z.pos p) * bpow e)%R with (- (IZR (Z.pos p) * bpow e))%R by lra.
      rewrite Rabs_Ropp. apply Rabs_pos_eq; nra. }
    apply binary_round_ok; [exact Ha| rewrite Ha, Hn; lra].
Qed.

Lemma shl_align_le mx ex ez :
  ez <= ex ->
  Z.pos (fst (shl_align mx ex ez)) = Z.pos mx * 2 ^ (ex - ez).
Proof.
  intros He. unfold shl_align. destruct (ez - ex) as [|d|d] eqn:Hd; try lia; simpl fst.
  - replace (ex - ez) with 0 by lia. simpl. lia.
  - change (Pos.iter xO mx d) with (shift_pos d mx). rewrite shift_pos_correct.
    replace (ex - ez) with (Z.pos d) by lia. change (Z.pow_pos 2 d) with (2 ^ Z.pos d). lia.
Qed.

Lemma SF2R_finite s m e :
  SF2R (S754_finite s m e) = (IZR (cond_Zopp s (Z.pos m)) * bpow e)%R.
Proof. reflexivity. Qed.

Lemma aligned_value (s : bool) m e ez :
  ez <= e ->
  (IZR (cond_Zopp s (Z.pos (fst (shl_align m e ez)))) * bpow ez)%R
  = SF2R (S754_finite s m e).
Proof.
  intros He. rewrite shl_align_le by assumption. rewrite SF2R_finite.
  replace (cond_Zopp s (Z.pos m * 2 ^ (e - ez))) with (cond_Zopp s (Z.pos m) * 2 ^ (e - ez))
    by (destruct s; simpl; lia).
  rewrite mult_IZR, <- bpow_IZR by lia.
  rewrite Rmult_assoc, <- bpow_add. do 2 f_equal. lia.
Qed.

Lemma rnd_ok_self x :
  is_finite_SF x = true -> valid_binary x = true -> rnd_ok (SF2R x) x.
Proof.
  intros Hf Hv. apply rnd_ok_finite_intro; auto.
  rewrite Rminus_diag, Rabs_R0.
  pose proof (bpow_pos (-53)). pose proof (bpow_pos (-1075)). pose proof (Rabs_pos (SF2R x)). nra.
Qed.

Lemma rnd_ok_ext y y' r : y = y' -> rnd_ok y r -> rnd_ok y' r.
Proof. now intros ->. Qed.

Lemma SFadd_ok x y :
  is_finite_SF x = true -> is_finite_SF y = true ->
  valid_binary x = true -> valid_binary y = true ->
  rnd_ok (SF2R x + SF2R y) (SFadd prec emax x y).
Proof.
  intros Hfx Hfy Hvx Hvy.
  destruct x as [sx|sx| |sx mx ex], y as [sy|sy| |sy my ey]; try discriminate.
  - apply (rnd_ok_ext 0); [simpl; lra|].
    simpl. destruct sx, sy; apply rnd_ok_zero.
  - apply (rnd_ok_ext (SF2R (S754_finite sy my ey))); [simpl; lra|].
    apply rnd_ok_self; assumption.
  - apply (rnd_ok_ext (SF2R (S754_finite sx mx ex))); [simpl; lra|].
    apply rnd_ok_self; assumption.
  - unfold SFadd.
    assert (Hval : (IZR (cond_Zopp sx (Z.pos (fst (shl_align mx ex (Z.min ex ey))))
                   + cond_Zopp sy (Z.pos (fst (shl_align my ey (Z.min ex ey))))) * bpow (Z.min ex ey))%R
             = (SF2R (S754_finite sx mx ex) + SF2R (S754_finite sy my ey))%R).
    { rewrite plus_IZR, Rmult_plus_distr_r, !aligned_value by lia. reflexivity. }
    eapply rnd_ok_ext; [exact Hval|].
    apply binary_normalize_ok.
Qed.

Lemma SFsub_ok x y :
  is_finite_SF x = true -> is_finite_SF y = true ->
  valid_binary x = true -> valid_binary y = true ->
  rnd_ok (SF2R x - SF2R y) (SFsub prec emax x y).
Proof.
  intros Hfx Hfy Hvx Hvy.
  destruct x as [sx|sx| |sx mx ex], y as [sy|sy| |sy my ey]; try discriminate.
  - apply (rnd_ok_ext 0); [simpl; lra|].
    simpl. destruct sx, sy; apply rnd_ok_zero.
  - apply (rnd_ok_ext (SF2R (S754_finite (negb sy) my ey))).
    { rewrite !SF2R_finite. simpl SF2R. destruct sy; simpl cond_Zopp;
        rewrite <- ?Pos2Z.opp_pos, ?opp_IZR; lra. }
    apply rnd_ok_self; [reflexivity|exact Hvy].
  - apply (rnd_ok_ext (SF2R (S754_finite sx mx ex))); [simpl; lra|].
    apply rnd_ok_self; assumption.
  - unfold SFsub.
    assert (Hval : (IZR (cond_Zopp sx (Z.pos (fst (shl_align mx ex (Z.min ex ey))))
                   - cond_Zopp sy (Z.pos (fst (shl_align my ey (Z.min ex ey))))) * bpow (Z.min ex ey))%R
             = (SF2R (S754_finite sx mx ex) - SF2R (S754_finite sy my ey))%R).
    { rewrite minus_IZR, Rmult_minus_distr_r, !aligned_value by lia. reflexivity. }
    eapply rnd_ok_ext; [exact Hval|].
    apply binary_normalize_ok.
Qed.

Lemma canonical_cases m e :
  canonical_mantissa prec emax m e = true ->
  (Z.pos (digits2_pos m) = 53 /\ -1074 <= e) \/ (e = -1074 /\ Z.pos (digits2_pos m) <= 53).
Proof.
  unfold canonical_mantissa. rewrite fexp64_eq. intros H. apply Z.eqb_eq in H.
  revert H. generalize (Z.pos (digits2_pos m)). intros d. unfold fexp64. lia.
Qed.

Lemma valid_finite_canonical s m e :
  valid_binary (S754_finite s m e) = true -> canonical_mantissa prec emax m e = true.
Proof.
  simpl. unfold bounded. intros H. apply andb_true_iff in H. tauto.
Qed.

Lemma SFmul_ok x y :
  is_finite_SF x = true -> is_finite_SF y = true ->
  valid_binary x = true -> valid_binary y = true ->
  rnd_ok (SF2R x * SF2R y) (SFmul prec emax x y).
Proof.
  intros Hfx Hfy Hvx Hvy.
  destruct x as [sx|sx| |sx mx ex], y as [sy|sy| |sy my ey]; try discriminate.
  1-3: apply (rnd_ok_ext 0); [simpl; lra|]; simpl; apply rnd_ok_zero.
  unfold SFmul.
  apply valid_finite_canonical, canonical_cases in Hvx, Hvy.
  pose proof (digits2_pos_bounds mx) as [Hx1 Hx2].
  pose proof (digits2_pos_bounds my) as [Hy1 Hy2].
  pose proof (digits2_pos_bounds (mx * my)) as [Hp1 Hp2].
  set (dx := Z.pos (digits2_pos mx)) in *. set (dy := Z.pos (digits2_pos my)) in *.
  set (D := Z.pos (digits2_pos (mx * my))) in *.
  assert (Hdx : 0 < dx) by (subst dx; lia). assert (Hdy : 0 < dy) by (subst dy; lia).
  assert (HD : dx + dy - 1 <= D).
  { assert (2 ^ (dx - 1 + (dy - 1)) < 2 ^ D).
    { rewrite Z.pow_add_r by lia. rewrite Pos2Z.inj_mul in Hp2. nia. }
    apply Z.pow_lt_mono_r_iff in H; lia. }
  assert (Hprod : (SF2R (S754_finite sx mx ex) * SF2R (S754_finite sy my ey))%R
     = (IZR (cond_Zopp (xorb sx sy) (Z.pos (mx * my))) * bpow (ex + ey))%R).
  { rewrite !SF2R_finite, bpow_add.
    replace (cond_Zopp (xorb sx sy) (Z.pos (mx * my)))
      with (cond_Zopp sx (Z.pos mx) * cond_Zopp sy (Z.pos my)) by (destruct sx, sy; simpl; lia).
    rewrite mult_IZR. ring. }
  assert (Hpos : (0 < IZR (Z.pos (mx * my)) * bpow (ex + ey))%R).
  { apply Rmult_lt_0_compat; [apply IZR_lt; lia|apply bpow_pos]. }
  assert (Habs : Rabs (SF2R (S754_finite sx mx ex) * SF2R (S754_finite sy my ey))
     = (IZR (Z.pos (mx * my)) * bpow (ex + ey))%R).
  { rewrite Hprod. destruct (xorb sx sy); simpl cond_Zopp.
    - rewrite <- ?Pos2Z.opp_pos, ?opp_IZR.
      replace (- IZR (Z.pos (mx * my)) * bpow (ex + ey))%R
        with (- (IZR (Z.pos (mx * my)) * bpow (ex + ey)))%R by lra.
      rewrite Rabs_Ropp. apply Rabs_pos_eq. lra.
    - apply Rabs_pos_eq. lra. }
  apply bra_rnd_ok; try assumption; try lia.
  - cbv [inbetween]. rewrite Habs, Rmult_assoc, bpow_cancel. lra.
  - simpl Zdigits2. fold D. clearbody dx dy D. unfold fexp64. lia.
  - rewrite Habs, Hprod. destruct (xorb sx sy); simpl cond_Zopp; [|reflexivity].
    rewrite <- ?Pos2Z.opp_pos, ?opp_IZR. lra.
Qed.

Lemma new_location_inbetween b r q :
  0 < b -> 0 <= r < b ->
  inbetween (IZR q + IZR r / IZR b) q (new_location b r).
Proof.
  intros Hb Hr. assert (HbR : (0 < IZR b)%R) by (apply IZR_lt; lia).
  unfold new_location.
  destruct (Z.eq_dec r 0) as [Hr0|Hr0].
  { subst r. destruct (Z.even b); cbv [new_location_even new_location_odd Z.eqb inbetween];
      unfold Rdiv; ring. }
  assert (HrR : (0 < IZR r)%R) by (apply IZR_lt; lia).
  assert (Hrb : (IZR r < IZR b)%R) by (apply IZR_lt; lia).
  assert (Hfrac : (0 < IZR r / IZR b < 1)%R).
  { split.
    - apply Rdiv_lt_0_compat; lra.
    - apply Rmult_lt_reg_r with (IZR b); [lra|]. unfold Rdiv.
      rewrite Rmult_assoc, Rinv_l by lra. lra. }
  assert (Hcmp : forall c : Z, (IZR (2 * r) < IZR c -> IZR c = IZR b -> IZR r / IZR b < /2)%R).
  { intros c H1 H2. rewrite mult_IZR in H1. apply Rmult_lt_reg_r with (IZR b); [lra|]. unfold Rdiv.
    rewrite Rmult_assoc, Rinv_l by lra. lra. }
  assert (Hne : (r =? 0) = false) by (apply Z.eqb_neq; exact Hr0).
  destruct (Z.even b) eqn:Heven; unfold new_location_even, new_location_odd; rewrite Hne.
  - destruct (Z.compare_spec (2 * r) b) as [Heq|Hlt|Hgt]; cbv [inbetween].
    + assert (IZR r / IZR b = /2)%R; [|lra].
      rewrite <- Heq, mult_IZR. field. lra.
    + apply IZR_lt in Hlt. rewrite mult_IZR in Hlt.
      assert (IZR r / IZR b < /2)%R; [|lra].
      apply Rmult_lt_reg_r with (IZR b); [lra|]. unfold Rdiv.
      rewrite Rmult_assoc, Rinv_l by lra. lra.
    + apply IZR_lt in Hgt. rewrite mult_IZR in Hgt.
      assert (/2 < IZR r / IZR b)%R; [|lra].
      apply Rmult_lt_reg_r with (IZR b); [lra|]. unfold Rdiv.
      rewrite Rmult_assoc, Rinv_l by lra. lra.
  - assert (Hodd : 2 * r <> b).
    { intros <-. rewrite Z.even_mul in Heven. discriminate. }
    destruct (Z.compare_spec (2 * r + 1) b) as [Heq|Hlt|Hgt]; cbv [inbetween].
    + assert (2 * r < b) as Hlt by lia. apply IZR_lt in Hlt. rewrite mult_IZR in Hlt.
      assert (IZR r / IZR b < /2)%R; [|lra].
      apply Rmult_lt_reg_r with (IZR b); [lra|]. unfold Rdiv.
      rewrite Rmult_assoc, Rinv_l by lra. lra.
    + assert (2 * r < b) as Hlt' by lia. apply IZR_lt in Hlt'. rewrite mult_IZR in Hlt'.
      assert (IZR r / IZR b < /2)%R; [|lra].
      apply Rmult_lt_reg_r with (IZR b); [lra|]. unfold Rdiv.
      rewrite Rmult_assoc, Rinv_l by lra. lra.
    + assert (b < 2 * r) as Hgt' by lia. apply IZR_lt in Hgt'. rewrite mult_IZR in Hgt'.
      assert (/2 < IZR r / IZR b)%R; [|lra].
      apply Rmult_lt_reg_r with (IZR b); [lra|]. unfold Rdiv.
      rewrite Rmult_assoc, Rinv_l by lra. lra.
Qed.

Lemma tiny_multiple_zero y j g :
  y = (IZR j * bpow g)%R -> -1074 <= g -> (Rabs y < bpow (-1074))%R -> y = 0%R.
Proof.
  intros Hy Hg Hlt. destruct (Z.eq_dec j 0) as [->|Hj]; [rewrite Hy; lra|].
  exfalso. rewrite Hy, Rabs_mult, (Rabs_pos_eq (bpow g)) in Hlt by (left; apply bpow_pos).
  rewrite <- abs_IZR in Hlt.
  assert (1 <= IZR (Z.abs j))%R by (apply IZR_le; lia).
  pose proof (bpow_le (-1074) g Hg). pose proof (bpow_pos g). nra.
Qed.

Lemma bra_rnd_ok_zero (sx : bool) l y :
  inbetween (Rabs y * bpow 1074) 0 l ->
  y = (if sx then - Rabs y else Rabs y)%R ->
  rnd_ok y (binary_round_aux prec emax sx 0 (-1074) l).
Proof.
  intros Hin Hs.
  assert (Hc : (bpow 1074 * bpow (-1075) = /2)%R).
  { rewrite <- bpow_add. change (1074 + -1075) with (-1). apply bpow_m1. }
  assert (Hc' : (bpow 1074 * bpow (-1074) = 1)%R) by (apply (bpow_cancel 1074)).
  pose proof (bpow_pos 1074) as Hp1. pose proof (bpow_pos (-1075)) as Hp2.
  pose proof (bpow_pos (-1074)) as Hp3. pose proof (bpow_pos (-53)) as Hp4.
  pose proof (Rabs_pos y) as Hy0.
  assert (Hprod : (0 <= Rabs y * bpow (-53))%R) by (apply Rmult_le_pos; lra).
  assert (Hsc : (Rabs y * bpow 1074 * bpow (-1074) = Rabs y)%R) by (rewrite Rmult_assoc, Hc'; lra).
  assert (Hb : (bpow (-1074) = 2 * bpow (-1075))%R).
  { replace (-1074) with (-1075 + 1) by lia. rewrite bpow_add, bpow_1. lra. }
  destruct l as [|[| |]]; cbv [inbetween] in Hin.
  - (* exact zero *)
    assert (Rabs y = 0)%R by (apply Rmult_integral in Hin; destruct Hin; lra).
    assert (y = 0%R) by (destruct sx; cbv iota in Hs; lra). subst y.
    apply rnd_ok_zero.
  - change (binary_round_aux prec emax sx 0 (-1074) (loc_Inexact Eq)) with (S754_zero sx).
    assert (Hy : (Rabs y = bpow (-1075))%R).
    { rewrite <- Hsc, Hin. lra. }
    apply rnd_ok_finite_intro; auto.
    + simpl SF2R. rewrite Rminus_0_l, Rabs_Ropp. lra.
    + intros j g Hj Hg _. exfalso.
      assert (y = 0%R) by (apply (tiny_multiple_zero y j g); try assumption; lra).
      rewrite H, Rabs_R0 in Hy. lra.
  - change (binary_round_aux prec emax sx 0 (-1074) (loc_Inexact Lt)) with (S754_zero sx).
    assert (Hy : (0 < Rabs y < bpow (-1075))%R).
    { rewrite <- Hsc. destruct Hin as [Hin1 Hin2].
      apply (Rmult_lt_compat_r (bpow (-1074))) in Hin1, Hin2; try lra. }
    apply rnd_ok_finite_intro; auto.
    + simpl SF2R. rewrite Rminus_0_l, Rabs_Ropp. lra.
    + intros j g Hj Hg _. exfalso.
      assert (y = 0%R) by (apply (tiny_multiple_zero y j g); try assumption; lra).
      rewrite H, Rabs_R0 in Hy. lra.
  - change (binary_round_aux prec emax sx 0 (-1074) (loc_Inexact Gt))
      with (S754_finite sx 1 (-1074)).
    assert (Hy : (bpow (-1075) < Rabs y < bpow (-1074))%R).
    { rewrite <- Hsc. destruct Hin as [Hin1 Hin2].
      apply (Rmult_lt_compat_r (bpow (-1074))) in Hin1, Hin2; try lra. }
    apply rnd_ok_finite_intro; auto.
    + rewrite SF2R_finite. rewrite Hs at 1.
      destruct sx; cbv iota; simpl cond_Zopp; rewrite ?opp_IZR; apply Rabs_le; lra.
    + intros j g Hj Hg _. exfalso.
      assert (y = 0%R) by (apply (tiny_multiple_zero y j g); try assumption; lra).
      rewrite H, Rabs_R0 in Hy. lra.
Qed.

Lemma pow2_lt_inv a b : 0 <= b -> 2 ^ a < 2 ^ b -> a < b.
Proof.
  intros Hb H. destruct (Z_lt_le_dec a b) as [|Hle]; [assumption|].
  assert (2 ^ b <= 2 ^ a) by (apply Z.pow_le_mono_r; lia). lia.
Qed.

Lemma div_core_spec pa pb :
  exists q e' l,
    SFdiv_core_binary prec emax (Z.pos pa) 0 (Z.pos pb) 0 = (q, e', l)
    /\ inbetween (IZR (Z.pos pa) / IZR (Z.pos pb) * bpow (- e')) q l
    /\ ((0 < q /\ e' <= fexp64 (Zdigits2 q + e')) \/ (q = 0 /\ e' = -1074)).
Proof.
  unfold SFdiv_core_binary. rewrite fexp64_eq.
  change (Zdigits2 (Z.pos pa)) with (Z.pos (digits2_pos pa)).
  change (Zdigits2 (Z.pos pb)) with (Z.pos (digits2_pos pb)).
  pose proof (digits2_pos_bounds pa) as [Ha1 Ha2].
  pose proof (digits2_pos_bounds pb) as [Hb1 Hb2].
  set (d1 := Z.pos (digits2_pos pa)) in *. set (d2 := Z.pos (digits2_pos pb)) in *.
  assert (Hd1 : 0 < d1) by (subst d1; lia). assert (Hd2 : 0 < d2) by (subst d2; lia).
  replace (d1 + 0 - (d2 + 0)) with (d1 - d2) by lia. change (0 - 0) with 0.
  set (e' := Z.min (fexp64 (d1 - d2)) 0).
  assert (He'0 : e' <= 0) by (subst e'; lia).
  assert (He'f : e' <= fexp64 (d1 - d2)) by (subst e'; lia).
  assert (He'm : -1074 <= e') by (subst e'; unfold fexp64; lia).
  set (m' := match 0 - e' with Z.pos _ => Z.shiftl (Z.pos pa) (0 - e') | 0 => Z.pos pa | Z.neg _ => 0 end).
  assert (Hm' : m' = Z.pos pa * 2 ^ (- e')).
  { subst m'. destruct (0 - e') as [|s|s] eqn:Hs; try lia.
    - replace (- e') with 0 by lia. lia.
    - rewrite Z.shiftl_mul_pow2 by lia. f_equal. f_equal. lia. }
  clearbody m' e'.
  pose proof (Z_div_mod m' (Z.pos pb) ltac:(lia)) as Hdiv.
  destruct (Z.div_eucl m' (Z.pos pb)) as [q r]. destruct Hdiv as [Hqr Hr].
  exists q, e', (new_location (Z.pos pb) r). split; [reflexivity|].
  assert (Hpow : 0 < 2 ^ (- e')) by (apply Z.pow_pos_nonneg; lia).
  assert (Hq0 : 0 <= q) by nia.
  split.
  - assert (HbR : (0 < IZR (Z.pos pb))%R) by (apply IZR_lt; lia).
    replace (IZR (Z.pos pa) / IZR (Z.pos pb) * bpow (- e'))%R
      with (IZR q + IZR r / IZR (Z.pos pb))%R.
    + apply new_location_inbetween; lia.
    + rewrite bpow_IZR by lia.
      replace (IZR (Z.pos pa) / IZR (Z.pos pb) * IZR (2 ^ (- e')))%R
        with (IZR m' / IZR (Z.pos pb))%R by (rewrite Hm', mult_IZR; field; lra).
      rewrite Hqr, plus_IZR, mult_IZR. field. lra.
  - destruct (Z.eq_dec q 0) as [Hq|Hq].
    + right. split; [assumption|]. subst q.
      assert (2 ^ (d1 - 1 + - e') < 2 ^ d2).
      { rewrite Z.pow_add_r by lia. nia. }
      apply pow2_lt_inv in H; [|lia].
      unfold fexp64 in He'f. lia.
    + left. split; [lia|].
      destruct q as [|pq|pq]; try lia. simpl Zdigits2.
      pose proof (digits2_pos_bounds pq) as [Hq1 Hq2].
      set (dq := Z.pos (digits2_pos pq)) in *.
      assert (Hdq : 0 < dq) by (subst dq; lia).
      assert (Hk : d1 - d2 <= dq + e').
      { destruct (Z_lt_le_dec (d1 - 1 - e' - d2) 0) as [Hk|Hk]; [lia|].
        assert (2 ^ (d1 - 1 - e' - d2) < 2 ^ dq); [|apply pow2_lt_inv in H; lia].
        assert (2 ^ (d1 - 1 - e' - d2) * 2 ^ d2 = 2 ^ (d1 - 1) * 2 ^ (- e')).
        { rewrite <- !Z.pow_add_r by lia. f_equal. lia. }
        assert (0 < 2 ^ (d1 - 1 - e' - d2)) by (apply Z.pow_pos_nonneg; lia).
        nia. }
      clearbody dq d1 d2. unfold fexp64 in *. lia.
Qed.

Lemma SFdiv_pos_ok (s : bool) pa pb y :
  Rabs y = (IZR (Z.pos pa) / IZR (Z.pos pb))%R ->
  y = (if s then - Rabs y else Rabs y)%R ->
  rnd_ok y (let '(mz, ez, lz) := SFdiv_core_binary prec emax (Z.pos pa) 0 (Z.pos pb) 0 in
            binary_round_aux prec emax s mz ez lz).
Proof.
  intros Hy Hs.
  destruct (div_core_spec pa pb) as (q & e' & l & -> & Hin & [[Hq He]|[Hq He]]).
  - apply bra_rnd_ok; try assumption. now rewrite Hy.
  - subst q e'. apply bra_rnd_ok_zero; try assumption. now rewrite Hy.
Qed.

Lemma SFdiv_int_ok a b :
  b <> 0 ->
  rnd_ok (IZR a / IZR b) (SFdiv prec emax (Z2SF a) (Z2SF b)).
Proof.
  intros Hb.
  destruct b as [|pb|pb]; [lia| |]; destruct a as [|pa|pa]; simpl Z2SF; unfold SFdiv.
  1,4: apply (rnd_ok_ext 0); [unfold Rdiv; ring|apply rnd_ok_zero].
  all: assert (HpbR : (0 < IZR (Z.pos pb))%R) by (apply IZR_lt; lia).
  all: assert (HpaR : (0 < IZR (Z.pos pa))%R) by (apply IZR_lt; lia).
  all: assert (Hquot : (0 < IZR (Z.pos pa) / IZR (Z.pos pb))%R) by (apply Rdiv_lt_0_compat; lra).
  all: change (IZR (Z.neg pa)) with (IZR (- Z.pos pa)) in *;
       change (IZR (Z.neg pb)) with (IZR (- Z.pos pb)) in *;
       rewrite ?opp_IZR in *.
  - assert (Ha : Rabs (IZR (Z.pos pa) / IZR (Z.pos pb)) = (IZR (Z.pos pa) / IZR (Z.pos pb))%R)
      by (apply Rabs_pos_eq; lra).
    apply SFdiv_pos_ok; [exact Ha|simpl; rewrite Ha; reflexivity].
  - assert (He : (- IZR (Z.pos pa) / IZR (Z.pos pb) = - (IZR (Z.pos pa) / IZR (Z.pos pb)))%R)
      by (field; lra).
    rewrite He in *.
    assert (Ha : Rabs (- (IZR (Z.pos pa) / IZR (Z.pos pb))) = (IZR (Z.pos pa) / IZR (Z.pos pb))%R)
      by (rewrite Rabs_Ropp; apply Rabs_pos_eq; lra).
    apply SFdiv_pos_ok; [exact Ha|simpl; rewrite Ha; reflexivity].
  - assert (He : (IZR (Z.pos pa) / - IZR (Z.pos pb) = - (IZR (Z.pos pa) / IZR (Z.pos pb)))%R)
      by (field; lra).
    rewrite He in *.
    assert (Ha : Rabs (- (IZR (Z.pos pa) / IZR (Z.pos pb))) = (IZR (Z.pos pa) / IZR (Z.pos pb))%R)
      by (rewrite Rabs_Ropp; apply Rabs_pos_eq; lra).
    apply SFdiv_pos_ok; [exact Ha|simpl; rewrite Ha; reflexivity].
  - assert (He : (- IZR (Z.pos pa) / - IZR (Z.pos pb) = IZR (Z.pos pa) / IZR (Z.pos pb))%R)
      by (field; lra).
    rewrite He in *.
    assert (Ha : Rabs (IZR (Z.pos pa) / IZR (Z.pos pb)) = (IZR (Z.pos pa) / IZR (Z.pos pb))%R)
      by (apply Rabs_pos_eq; lra).
    apply SFdiv_pos_ok; [exact Ha|simpl; rewrite Ha; reflexivity].
Qed.

(* ================================================================== *)
(** * Python's float operations round correctly *)
(* ================================================================== *)

Lemma valid_finite_bounds s m e :
  valid_binary (S754_finite s m e) = true ->
  Z.pos m < 2 ^ 53 /\ -1074 <= e <= 971.
Proof.
  intros Hv. pose proof (valid_finite_canonical _ _ _ Hv) as Hc.
  apply canonical_cases in Hc.
  simpl in Hv. unfold bounded in Hv. apply andb_true_iff in Hv as [_ He].
  apply Z.leb_le in He. change (emax - prec) with 971 in He.
  pose proof (digits2_pos_bounds m) as [_ H2].
  assert (Z.pos (digits2_pos m) <= 53) by lia.
  assert (2 ^ Z.pos (digits2_pos m) <= 2 ^ 53) by (apply Z.pow_le_mono_r; lia).
  lia.
Qed.

Lemma Rabs_SF2R_finite s m e :
  Rabs (SF2R (S754_finite s m e)) = (IZR (Z.pos m) * bpow e)%R.
Proof.
  rewrite SF2R_finite. pose proof (bpow_pos e).
  assert (0 < IZR (Z.pos m))%R by (apply IZR_lt; lia).
  destruct s; simpl cond_Zopp; rewrite <- ?Pos2Z.opp_pos, ?opp_IZR.
  - replace (- IZR (Z.pos m) * bpow e)%R with (- (IZR (Z.pos m) * bpow e))%R by lra.
    rewrite Rabs_Ropp. apply Rabs_pos_eq. nra.
  - apply Rabs_pos_eq. nra.
Qed.

Lemma valid_le_max x :
  valid_binary x = true -> (Rabs (SF2R x) <= max_float_R)%R.
Proof.
  intros Hv.
  assert (H0 : (0 <= max_float_R)%R).
  { unfold max_float_R. pose proof (bpow_pos 971).
    assert (0 < IZR (2 ^ 53 - 1))%R by (apply IZR_lt; lia). nra. }
  destruct x as [s|s| |s m e]; simpl SF2R; rewrite ?Rabs_R0; try exact H0.
  fold (SF2R (S754_finite s m e)). rewrite Rabs_SF2R_finite.
  destruct (valid_finite_bounds _ _ _ Hv) as [Hm He].
  unfold max_float_R.
  assert (IZR (Z.pos m) <= IZR (2 ^ 53 - 1))%R by (apply IZR_le; lia).
  assert (0 < IZR (Z.pos m))%R by (apply IZR_lt; lia).
  assert (bpow e <= bpow 971)%R by (apply bpow_le; lia).
  pose proof (bpow_pos e). nra.
Qed.

Lemma valid_repr x :
  valid_binary x = true ->
  exists j g, SF2R x = (IZR j * bpow g)%R /\ -1074 <= g /\ (Rabs (SF2R x) < bpow (g + 53))%R.
Proof.
  intros Hv. destruct x as [s|s| |s m e].
  1-3: exists 0, 0; simpl SF2R; rewrite Rabs_R0; split; [lra|]; split; [lia|apply bpow_pos].
  destruct (valid_finite_bounds _ _ _ Hv) as [Hm He].
  exists (cond_Zopp s (Z.pos m)), e. split; [reflexivity|]. split; [lia|].
  rewrite Rabs_SF2R_finite, Z.add_comm, bpow_add, (bpow_IZR 53) by lia.
  apply Rmult_lt_compat_r; [apply bpow_pos|apply IZR_lt; lia].
Qed.

(** Two valid floats with the same nonzero value are the same float. *)
Lemma SF2R_inj x y :
  valid_binary x = true -> valid_binary y = true ->
  is_finite_SF x = true -> is_finite_SF y = true ->
  SF2R x = SF2R y -> SF2R x <> 0%R -> x = y.
Proof.
  intros Hvx Hvy Hfx Hfy Heq Hnz.
  destruct x as [sx|sx| |sx mx ex]; try discriminate; [simpl in Hnz; lra|].
  destruct y as [sy|sy| |sy my ey]; try discriminate.
  { rewrite Heq in Hnz. simpl in Hnz. lra. }
  pose proof (valid_finite_canonical _ _ _ Hvx) as Hcx.
  pose proof (valid_finite_canonical _ _ _ Hvy) as Hcy.
  unfold canonical_mantissa in Hcx, Hcy. rewrite fexp64_eq in Hcx, Hcy.
  apply Z.eqb_eq in Hcx, Hcy.
  pose proof (digits2_pos_bounds mx) as [Hx1 Hx2].
  pose proof (digits2_pos_bounds my) as [Hy1 Hy2].
  set (dx := Z.pos (digits2_pos mx)) in *. set (dy := Z.pos (digits2_pos my)) in *.
  assert (Hdx : 0 < dx) by (subst dx; lia). assert (Hdy : 0 < dy) by (subst dy; lia).
  assert (Habs : (IZR (Z.pos mx) * bpow ex = IZR (Z.pos my) * bpow ey)%R).
  { rewrite <- (Rabs_SF2R_finite sx mx ex), <- (Rabs_SF2R_finite sy my ey).
    now rewrite Heq. }
  assert (Hbx : (bpow (dx - 1 + ex) <= IZR (Z.pos mx) * bpow ex < bpow (dx + ex))%R).
  { rewrite !bpow_add, (bpow_IZR (dx - 1)), (bpow_IZR dx) by lia.
    pose proof (bpow_pos ex). apply IZR_le in Hx1. apply IZR_lt in Hx2. nra. }
  assert (Hby : (bpow (dy - 1 + ey) <= IZR (Z.pos my) * bpow ey < bpow (dy + ey))%R).
  { rewrite !bpow_add, (bpow_IZR (dy - 1)), (bpow_IZR dy) by lia.
    pose proof (bpow_pos ey). apply IZR_le in Hy1. apply IZR_lt in Hy2. nra. }
  assert (Hmag : dx + ex = dy + ey).
  { assert (bpow (dx - 1 + ex) < bpow (dy + ey))%R as H1 by lra.
    assert (bpow (dy - 1 + ey) < bpow (dx + ex))%R as H2 by lra.
    apply bpow_lt_inv in H1, H2. lia. }
  assert (Hee : ex = ey) by congruence.
  subst ey.
  assert (Hmm : Z.pos mx = Z.pos my).
  { apply eq_IZR. pose proof (bpow_pos ex). nra. }
  assert (Hs : sx = sy).
  { rewrite !SF2R_finite in Heq. rewrite Hmm in Heq.
    assert (0 < IZR (Z.pos my) * bpow ex)%R.
    { pose proof (bpow_pos ex). assert (0 < IZR (Z.pos my))%R by (apply IZR_lt; lia). nra. }
    destruct sx, sy; try reflexivity; simpl cond_Zopp in Heq;
      rewrite <- ?Pos2Z.opp_pos, ?opp_IZR in Heq; lra. }
  injection Hmm as ->. now subst sy.
Qed.

Lemma Prim2SF_finite_valid x : valid_binary (Prim2SF x) = true.
Proof. apply Prim2SF_valid. Qed.

Lemma mul_rnd a b :
  finite a -> finite b -> rnd_ok (F2R a * F2R b) (Prim2SF (a * b)).
Proof.
  intros Ha Hb. rewrite mul_spec. apply SFmul_ok; auto using Prim2SF_valid.
Qed.

Lemma add_rnd a b :
  finite a -> finite b -> rnd_ok (F2R a + F2R b) (Prim2SF (a + b)).
Proof.
  intros Ha Hb. rewrite add_spec. apply SFadd_ok; auto using Prim2SF_valid.
Qed.

Lemma sub_rnd a b :
  finite a -> finite b -> rnd_ok (F2R a - F2R b) (Prim2SF (a - b)).
Proof.
  intros Ha Hb. rewrite sub_spec. apply SFsub_ok; auto using Prim2SF_valid.
Qed.

Lemma float_of_int_inv n f :
  float_of_int n = Ok f -> finite f /\ rnd_ok (IZR n) (Prim2SF f).
Proof.
  unfold float_of_int. intros H.
  pose proof (binary_normalize_ok n 0) as Hr.
  rewrite bpow_0, Rmult_1_r in Hr.
  destruct (is_finite_SF (binary_normalize prec emax n 0 false)) eqn:Hf; [|discriminate].
  injection H as <-. unfold finite.
  rewrite Prim2SF_SF2Prim by apply Hr. auto.
Qed.

Lemma float_of_int_total n :
  Z.abs n <= (2 ^ 53 - 1) * 2 ^ 971 -> exists f, float_of_int n = Ok f.
Proof.
  intros Hn. unfold float_of_int.
  pose proof (binary_normalize_ok n 0) as (_ & Hf & _).
  rewrite bpow_0, Rmult_1_r in Hf. rewrite Hf; [eauto|].
  rewrite <- abs_IZR. unfold max_float_R. rewrite (bpow_IZR 971), <- mult_IZR by lia.
  apply IZR_le. exact Hn.
Qed.

Lemma int_truediv_inv a b f :
  int_truediv a b = Ok f ->
  b <> 0 /\ finite f /\ rnd_ok (IZR a / IZR b) (Prim2SF f).
Proof.
  unfold int_truediv. destruct (Z.eqb_spec b 0) as [|Hb]; [discriminate|]. intros H.
  pose proof (SFdiv_int_ok a b Hb) as Hr.
  destruct (is_finite_SF (SFdiv prec emax (Z2SF a) (Z2SF b))) eqn:Hf; [|discriminate].
  injection H as <-. unfold finite.
  rewrite Prim2SF_SF2Prim by apply Hr. auto.
Qed.

Lemma int_truediv_total a b :
  b <> 0 -> (Rabs (IZR a / IZR b) <= max_float_R)%R -> exists f, int_truediv a b = Ok f.
Proof.
  intros Hb Hle. unfold int_truediv.
  destruct (Z.eqb_spec b 0) as [|_]; [contradiction|].
  pose proof (SFdiv_int_ok a b Hb) as (_ & Hf & _).
  rewrite Hf by exact Hle. eauto.
Qed.

Lemma int_of_float_total x : finite x -> exists n, int_of_float x = Ok n.
Proof.
  unfold finite, int_of_float. destruct (Prim2SF x); try discriminate; eauto.
Qed.

Lemma finite_le_max x : (Rabs (F2R x) <= max_float_R)%R.
Proof. apply valid_le_max, Prim2SF_valid. Qed.

(** What a correct rounding gives, in the form the proofs below use. *)
Lemma rnd_ok_finite y r :
  rnd_ok y r -> (Rabs y <= max_float_R)%R -> is_finite_SF r = true.
Proof. intros (_ & H & _). exact H. Qed.

Lemma rnd_ok_error y r :
  rnd_ok y r -> is_finite_SF r = true ->
  (Rabs (SF2R r - y) <= Rabs y * bpow (-53) + bpow (-1075))%R.
Proof. intros (_ & _ & H) Hf. apply H, Hf. Qed.

Lemma rnd_ok_exact y r j g :
  rnd_ok y r -> is_finite_SF r = true ->
  y = (IZR j * bpow g)%R -> -1074 <= g -> (Rabs y < bpow (g + 53))%R ->
  SF2R r = y.
Proof. intros (_ & _ & H) Hf. apply (proj2 (H Hf)). Qed.

Lemma rnd_ok_int n r :
  rnd_ok (IZR n) r -> Z.abs n <= 2 ^ 53 -> SF2R r = IZR n.
Proof.
  intros Hr Hn.
  assert (Hmax : (Rabs (IZR n) <= max_float_R)%R).
  { rewrite <- abs_IZR. unfold max_float_R. rewrite (bpow_IZR 971), <- mult_IZR by lia.
    apply IZR_le. lia. }
  pose proof (rnd_ok_finite _ _ Hr Hmax) as Hf.
  destruct (Z.eq_dec (Z.abs n) (2 ^ 53)) as [He|Hne].
  - apply (rnd_ok_exact _ _ (n / 2) 1 Hr Hf); try lia.
    + rewrite bpow_1, <- mult_IZR. f_equal.
      assert (n = 2 ^ 53 \/ n = - 2 ^ 53) as [-> | ->] by lia; reflexivity.
    + rewrite <- abs_IZR, He, <- bpow_IZR by lia. apply bpow_lt. lia.
  - apply (rnd_ok_exact _ _ n 0 Hr Hf); try lia.
    + rewrite bpow_0. lra.
    + rewrite <- abs_IZR. rewrite (bpow_IZR (0 + 53)) by lia. apply IZR_lt. simpl. lia.
Qed.

(* ================================================================== *)
(** * The gradient *)
(* ================================================================== *)

Lemma small_le_max (x : R) : (Rabs x <= IZR (2 ^ 53 - 1))%R -> (Rabs x <= max_float_R)%R.
Proof.
  intros H. unfold max_float_R.
  assert (1 <= bpow 971)%R by (apply bpow_ge_1; lia).
  assert (0 < IZR (2 ^ 53 - 1))%R by (apply IZR_lt; lia).
  pose proof (Rabs_pos x). nra.
Qed.

Lemma bpow_m53_small : (bpow (-53) + bpow (-1075) <= / 2)%R.
Proof.
  assert (bpow (-53) <= bpow (-2))%R by (apply bpow_le; lia).
  assert (bpow (-1075) <= bpow (-2))%R by (apply bpow_le; lia).
  assert (bpow (-2) = / 4)%R.
  { change (-2) with (-1 + -1). rewrite bpow_add, bpow_m1. lra. }
  lra.
Qed.

(** A rounded result is at most half as far again from zero as its argument,
    up to an absolute one half. *)
Lemma rnd_ok_abs_bound y r (B : R) :
  rnd_ok y r -> is_finite_SF r = true -> (Rabs y <= B)%R -> (1 <= B)%R ->
  (Rabs (SF2R r) <= 2 * B)%R.
Proof.
  intros Hr Hf Hy HB. pose proof (rnd_ok_error _ _ Hr Hf) as He.
  pose proof bpow_m53_small. pose proof (bpow_pos (-53)). pose proof (bpow_pos (-1075)).
  pose proof (Rabs_pos y).
  assert (Rabs (SF2R r) <= Rabs y + Rabs (SF2R r - y))%R.
  { replace (SF2R r) with (y + (SF2R r - y))%R at 1 by lra. apply Rabs_triang. }
  nra.
Qed.

(** [int(x)] of a float whose value is an integer is that integer. *)
Lemma int_of_float_exact x n :
  finite x -> F2R x = IZR n -> int_of_float x = Ok n.
Proof.
  unfold finite, F2R, int_of_float. intros Hf Hv.
  pose proof (Prim2SF_valid x) as Hval.
  destruct (Prim2SF x) as [s|s| |s m e]; try discriminate.
  - simpl in Hv. f_equal. apply eq_IZR. lra.
  - f_equal. rewrite SF2R_finite in Hv.
    destruct (Z.leb_spec 0 e) as [He|He].
    + apply eq_IZR. rewrite <- Hv. rewrite bpow_IZR by lia.
      rewrite <- mult_IZR. f_equal. destruct s; simpl; lia.
    + assert (Hm : cond_Zopp s (Z.pos m) = n * 2 ^ (- e)).
      { apply eq_IZR. rewrite mult_IZR, <- bpow_IZR by lia.
        rewrite <- Hv, Rmult_assoc, bpow_cancel. lra. }
      assert (Hp : 0 < 2 ^ (- e)) by (apply Z.pow_pos_nonneg; lia).
      destruct s; simpl cond_Zopp in *.
      * assert (Z.pos m = (- n) * 2 ^ (- e)) as -> by lia.
        rewrite Z.div_mul by lia. lia.
      * rewrite Hm, Z.div_mul by lia. reflexivity.
Qed.

Lemma float_of_int_small n :
  Z.abs n <= 2 ^ 53 ->
  exists f, float_of_int n = Ok f /\ finite f /\ F2R f = IZR n.
Proof.
  intros Hn. destruct (float_of_int_total n) as [f Hf]; [lia|].
  exists f. split; [exact Hf|]. destruct (float_of_int_inv _ _ Hf) as [Hfin Hr].
  split; [exact Hfin|]. apply rnd_ok_int; assumption.
Qed.

Lemma int_truediv_zero n : 0 < n -> int_truediv 0 n = Ok 0%float.
Proof.
  intros Hn. unfold int_truediv. destruct (Z.eqb_spec n 0); [lia|].
  destruct n; try lia. reflexivity.
Qed.

Lemma F2R_one : SF2R (S754_finite false (2 ^ 52) (-52)) = 1%R.
Proof.
  rewrite SF2R_finite. simpl cond_Zopp. change (Z.pos (2 ^ 52)) with (2 ^ 52).
  rewrite <- bpow_IZR by lia. apply bpow_cancel.
Qed.

Lemma int_truediv_self n : 0 < n -> int_truediv n n = Ok 1%float.
Proof.
  intros Hn. unfold int_truediv. destruct (Z.eqb_spec n 0); [lia|].
  pose proof (SFdiv_int_ok n n ltac:(lia)) as Hr.
  assert (Hq : (IZR n / IZR n = 1)%R).
  { assert (0 < IZR n)%R by (apply IZR_lt; lia). field. lra. }
  rewrite Hq in Hr.
  assert (Hf : is_finite_SF (SFdiv prec emax (Z2SF n) (Z2SF n)) = true).
  { apply (rnd_ok_finite _ _ Hr). apply small_le_max. rewrite Rabs_R1.
    apply IZR_le. lia. }
  rewrite Hf. f_equal.
  assert (Hv : SF2R (SFdiv prec emax (Z2SF n) (Z2SF n)) = 1%R).
  { apply (rnd_ok_exact _ _ 1 0 Hr Hf); try lia.
    - rewrite bpow_0. lra.
    - rewrite Rabs_R1. change 1%R with (bpow 0). apply bpow_lt. lia. }
  rewrite (SF2R_inj _ (S754_finite false (2 ^ 52) (-52))); try reflexivity; try assumption.
  - apply Hr.
  - rewrite Hv, F2R_one. reflexivity.
  - rewrite Hv. lra.
Qed.

Lemma channel_spec top bot t :
  Z.abs top <= 255 -> Z.abs bot <= 255 -> finite t -> (Rabs (F2R t) <= 2)%R ->
  exists fd ft v,
    float_of_int (bot - top) = Ok fd /\ F2R fd = IZR (bot - top) /\
    float_of_int top = Ok ft /\ F2R ft = IZR top /\
    finite (fd * t) /\ finite (ft + fd * t) /\
    int_of_float (ft + fd * t) = Ok v /\
    generate_icon.channel top bot t = Ok v.
Proof.
  intros Htop Hbot Hft Ht.
  destruct (float_of_int_small (bot - top)) as (fd & Hfd & Hfdf & Hfdv); [lia|].
  destruct (float_of_int_small top) as (ft & Hftop & Hftf & Hftv); [lia|].
  assert (Hd : (Rabs (IZR (bot - top)) <= 510)%R).
  { rewrite <- abs_IZR. apply IZR_le. lia. }
  assert (Hprod : (Rabs (F2R fd * F2R t) <= 1020)%R).
  { rewrite Rabs_mult, Hfdv. pose proof (Rabs_pos (F2R t)).
    pose proof (Rabs_pos (IZR (bot - top))). nra. }
  pose proof (mul_rnd fd t Hfdf Hft) as Hm.
  assert (Hmf : finite (fd * t)).
  { apply (rnd_ok_finite _ _ Hm). apply small_le_max.
    eapply Rle_trans; [exact Hprod|]. apply IZR_le. lia. }
  pose proof (rnd_ok_abs_bound _ _ 1020 Hm Hmf Hprod ltac:(lra)) as Hmb.
  fold (F2R (fd * t)) in Hmb.
  pose proof (add_rnd ft (fd * t) Hftf Hmf) as Ha.
  assert (Hsum : (Rabs (F2R ft + F2R (fd * t)) <= 2295)%R).
  { eapply Rle_trans; [apply Rabs_triang|]. rewrite Hftv, <- abs_IZR.
    assert (IZR (Z.abs top) <= 255)%R by (apply IZR_le; lia). lra. }
  assert (Haf : finite (ft + fd * t)).
  { apply (rnd_ok_finite _ _ Ha). apply small_le_max.
    eapply Rle_trans; [exact Hsum|]. apply IZR_le. lia. }
  destruct (int_of_float_total _ Haf) as [v Hv].
  exists fd, ft, v. repeat split; try assumption.
  unfold generate_icon.channel, int_mul_float, int_add_float.
  rewrite Hfd, Hftop. simpl. exact Hv.
Qed.

Lemma channel_total top bot t :
  Z.abs top <= 255 -> Z.abs bot <= 255 -> finite t -> (Rabs (F2R t) <= 2)%R ->
  exists v, generate_icon.channel top bot t = Ok v.
Proof.
  intros H1 H2 H3 H4.
  destruct (channel_spec top bot t H1 H2 H3 H4) as (? & ? & v & ? & ? & ? & ? & ? & ? & ? & Hc).
  eauto.
Qed.

Lemma finite_zero : finite 0%float.
Proof. reflexivity. Qed.

Lemma finite_one : finite 1%float.
Proof. reflexivity. Qed.

Lemma F2R_zero : F2R 0%float = 0%R.
Proof. reflexivity. Qed.

Lemma F2R_1 : F2R 1%float = 1%R.
Proof. unfold F2R. change (Prim2SF 1) with (S754_finite false (2 ^ 52) (-52)). apply F2R_one. Qed.

(** At [t = 0] the channel is the top colour, at [t = 1] the bottom one. *)
Lemma channel_at_0 top bot :
  Z.abs top <= 255 -> Z.abs bot <= 255 -> generate_icon.channel top bot 0%float = Ok top.
Proof.
  intros Htop Hbot.
  destruct (channel_spec top bot 0%float Htop Hbot finite_zero)
    as (fd & ft & v & Hfd & Hfdv & Hft & Hftv & Hmf & Haf & Hv & Hc).
  { rewrite F2R_zero, Rabs_R0. lra. }
  rewrite Hc, <- Hv. apply int_of_float_exact; [exact Haf|].
  destruct (float_of_int_inv _ _ Hfd) as [Hfdf _].
  destruct (float_of_int_inv _ _ Hft) as [Hftf _].
  pose proof (mul_rnd fd 0%float Hfdf finite_zero) as Hm.
  rewrite F2R_zero, Rmult_0_r in Hm.
  assert (Hmv : F2R (fd * 0) = 0%R) by (apply (rnd_ok_int 0 _ Hm); lia).
  pose proof (add_rnd ft (fd * 0)%float Hftf Hmf) as Ha.
  rewrite Hmv, Hftv, Rplus_0_r in Ha.
  apply (rnd_ok_int _ _ Ha). lia.
Qed.

Lemma channel_at_1 top bot :
  Z.abs top <= 255 -> Z.abs bot <= 255 -> generate_icon.channel top bot 1%float = Ok bot.
Proof.
  intros Htop Hbot.
  destruct (channel_spec top bot 1%float Htop Hbot finite_one)
    as (fd & ft & v & Hfd & Hfdv & Hft & Hftv & Hmf & Haf & Hv & Hc).
  { rewrite F2R_1, Rabs_R1. lra. }
  rewrite Hc, <- Hv. apply int_of_float_exact; [exact Haf|].
  destruct (float_of_int_inv _ _ Hfd) as [Hfdf _].
  destruct (float_of_int_inv _ _ Hft) as [Hftf _].
  pose proof (mul_rnd fd 1%float Hfdf finite_one) as Hm.
  rewrite F2R_1, Hfdv, Rmult_1_r in Hm.
  assert (Hmv : F2R (fd * 1) = IZR (bot - top)) by (apply (rnd_ok_int _ _ Hm); lia).
  pose proof (add_rnd ft (fd * 1)%float Hftf Hmf) as Ha.
  rewrite Hmv, Hftv, <- plus_IZR in Ha.
  replace (top + (bot - top)) with bot in Ha by lia.
  apply (rnd_ok_int _ _ Ha). lia.
Qed.
Ltac res_step := cbn [mbind res_bind mret res_ret].

Lemma check_size_ok (w h : Z) :
  0 <= w < 2 ^ 31 -> 0 <= h < 2 ^ 31 -> check_size w h = Ok tt.
Proof.
  intros Hw Hh. unfold check_size.
  destruct (Z.ltb_spec w 0); [lia|]. destruct (Z.ltb_spec h 0); [lia|].
  destruct (Z.leb_spec (2 ^ 31) w); [lia|]. destruct (Z.leb_spec (2 ^ 31) h); [lia|].
  reflexivity.
Qed.

Lemma check_size_too_large (w h : Z) :
  0 <= w -> 0 <= h -> 2 ^ 31 <= w \/ 2 ^ 31 <= h -> check_size w h = Raise OverflowError.
Proof.
  intros Hw Hh Hbig. unfold check_size.
  destruct (Z.ltb_spec w 0); [lia|]. destruct (Z.ltb_spec h 0); [lia|].
  destruct (Z.leb_spec (2 ^ 31) w); [reflexivity|].
  destruct (Z.leb_spec (2 ^ 31) h); [reflexivity|lia].
Qed.

Lemma check_size_inv (w h : Z) :
  check_size w h = Ok tt -> 0 <= w < 2 ^ 31 /\ 0 <= h < 2 ^ 31.
Proof.
  unfold check_size.
  destruct (Z.ltb_spec w 0); [discriminate|]. destruct (Z.ltb_spec h 0); [discriminate|].
  destruct (Z.leb_spec (2 ^ 31) w); [discriminate|].
  destruct (Z.leb_spec (2 ^ 31) h); [discriminate|]. lia.
Qed.

Lemma image_new_ok (m : mode) (w h : Z) (fill : ink) :
  0 <= w < 2 ^ 31 -> 0 <= h < 2 ^ 31 -> image_new m w h fill = Ok (Image_new m w h fill).
Proof. intros Hw Hh. unfold image_new. now rewrite check_size_ok. Qed.

Lemma rounded_rectangle_ok im x0 y0 x1 y1 radius fill outline width :
  x0 <= x1 -> y0 <= y1 ->
  rounded_rectangle im x0 y0 x1 y1 radius fill outline width
  = Ok (Rounded_rectangle im x0 y0 x1 y1 radius fill outline width).
Proof.
  intros Hx Hy. unfold rounded_rectangle.
  destruct (Z.ltb_spec x1 x0); [lia|]. destruct (Z.ltb_spec y1 y0); [lia|]. reflexivity.
Qed.

Lemma rounded_rectangle_bad im x0 y0 x1 y1 radius fill outline width :
  x1 < x0 \/ y1 < y0 ->
  rounded_rectangle im x0 y0 x1 y1 radius fill outline width = Raise ValueError.
Proof.
  intros Hbad. unfold rounded_rectangle.
  destruct (Z.ltb_spec x1 x0); [reflexivity|].
  destruct (Z.ltb_spec y1 y0); [reflexivity|lia].
Qed.


Lemma for_each_ext {A S : Type} (f g : S -> A -> res S) (l : list A) (s : S) :
  (forall s a, f s a = g s a) -> for_each f l s = for_each g l s.
Proof.
  intros H. revert s. induction l as [|a l IH]; intros s; [reflexivity|].
  simpl. rewrite H. destruct (g s a); simpl; auto.
Qed.

Lemma putpixel_ok (px : list (list rgb)) (row : list rgb) (x y : nat) (c : rgb) :
  px !! y = Some row -> (x < length row)%nat ->
  putpixel px (Z.of_nat x) (Z.of_nat y) c = Ok (<[y := <[x := c]> row]> px).
Proof.
  intros Hrow Hx. unfold putpixel. rewrite !Nat2Z.id, Hrow.
  rewrite !bool_decide_eq_true_2 by lia. reflexivity.
Qed.

Lemma fill_row (y : nat) (c : rgb) : forall (m k : nat) (px : list (list rgb)) (row : list rgb),
  px !! y = Some row -> length row = (k + m)%nat ->
  for_each (fun px x => putpixel px x (Z.of_nat y) c)
           (seqZ (Z.of_nat k) (Z.of_nat m)) px
  = Ok (<[y := take k row ++ replicate m c]> px).
Proof.
  induction m as [|m IH]; intros k px row Hrow Hlen.
  - rewrite seqZ_nil by lia. simpl. f_equal.
    rewrite app_nil_r, firstn_all2 by lia. symmetry. now apply list_insert_id.
  - rewrite seqZ_cons by lia.
    replace (Z.succ (Z.of_nat k)) with (Z.of_nat (S k)) by lia.
    replace (Z.pred (Z.of_nat (S m))) with (Z.of_nat m) by lia.
    cbn [for_each]. rewrite (putpixel_ok px row k y c Hrow) by lia.
    change (mbind ?f (Ok ?a)) with (f a). cbv beta.
    assert (Hy : (y < length px)%nat) by (eapply lookup_lt_Some; eauto).
    rewrite (IH (S k) _ (<[k := c]> row)).
    + f_equal. rewrite list_insert_insert_eq. f_equal.
      rewrite (take_S_r _ _ c) by (apply list_lookup_insert_eq; lia).
      rewrite take_insert_ge by lia. rewrite <- app_assoc. reflexivity.
    + apply list_lookup_insert_eq. exact Hy.
    + rewrite length_insert. lia.
Qed.

Lemma gradient_body_eq (size : Z) (top bot : rgb) (px : list (list rgb)) (y : Z) :
  (t ← int_truediv y (size - 1);
   r ← generate_icon.channel top.1.1 bot.1.1 t;
   g ← generate_icon.channel top.1.2 bot.1.2 t;
   b ← generate_icon.channel top.2 bot.2 t;
   for_each (fun px x => putpixel px x y (r, g, b)) (range size) px)
  = (c ← row_color size top bot y;
     for_each (fun px x => putpixel px x y c) (range size) px).
Proof.
  unfold row_color.
  destruct (int_truediv y (size - 1)) as [t|]; [|reflexivity]. simpl.
  destruct (generate_icon.channel top.1.1 bot.1.1 t); [|reflexivity]. simpl.
  destruct (generate_icon.channel top.1.2 bot.1.2 t); [|reflexivity]. simpl.
  destruct (generate_icon.channel top.2 bot.2 t); reflexivity.
Qed.

Lemma fill_rows (n : nat) (top bot : rgb) : forall (m k : nat) (filled : list (list rgb)),
  length filled = k ->
  (forall y, Z.of_nat k <= y < Z.of_nat (k + m) ->
     exists c, row_color (Z.of_nat n) top bot y = Ok c) ->
  for_each (fun px y =>
      c ← row_color (Z.of_nat n) top bot y;
      for_each (fun px x => putpixel px x y c) (range (Z.of_nat n)) px)
    (seqZ (Z.of_nat k) (Z.of_nat m))
    (filled ++ replicate m (replicate n (0, 0, 0)))
  = Ok (filled ++ ((fun y => replicate n (row_color_or_black (Z.of_nat n) top bot y))
                     <$> seqZ (Z.of_nat k) (Z.of_nat m))).
Proof.
  induction m as [|m IH]; intros k filled Hlen Hcol.
  - rewrite seqZ_nil by lia. reflexivity.
  - rewrite seqZ_cons by lia.
    replace (Z.succ (Z.of_nat k)) with (Z.of_nat (S k)) by lia.
    replace (Z.pred (Z.of_nat (S m))) with (Z.of_nat m) by lia.
    cbn [for_each fmap list_fmap].
    destruct (Hcol (Z.of_nat k) ltac:(lia)) as [c Hc].
    unfold row_color_or_black at 1. rewrite Hc.
    change (mbind ?f (Ok ?a)) with (f a). cbv beta.
    assert (Hins : <[k := replicate n c]> (filled ++ replicate (S m) (replicate n (0, 0, 0)))
                   = (filled ++ [replicate n c]) ++ replicate m (replicate n (0, 0, 0))).
    { rewrite insert_app_r_alt by lia. rewrite Hlen, Nat.sub_diag, replicate_S.
      cbn [insert list_insert]. rewrite <- app_assoc. reflexivity. }
    unfold range at 1. change 0 with (Z.of_nat 0) at 1.
    rewrite (fill_row k c n 0 _ (replicate n (0, 0, 0))).
    + change (mbind ?f (Ok ?a)) with (f a). cbv beta.
      change (take 0 (replicate n (0, 0, 0))) with (@nil rgb). rewrite app_nil_l.
      rewrite Hins. rewrite (IH (S k)).
      * rewrite <- app_assoc. reflexivity.
      * rewrite length_app. simpl. lia.
      * intros y Hy. apply Hcol. lia.
    + rewrite replicate_S, <- Hlen. apply list_lookup_middle. reflexivity.
    + rewrite length_replicate. lia.
Qed.

(** The loops of [vertical_gradient] in closed form. *)
Lemma vertical_gradient_rows size top bot :
  0 <= size < 2 ^ 31 ->
  (forall y, 0 <= y < size -> exists c, row_color size top bot y = Ok c) ->
  generate_icon.vertical_gradient size top bot
  = Ok (Raster size size
         ((fun y => replicate (Z.to_nat size) (row_color_or_black size top bot y))
            <$> range size)).
Proof.
  intros Hsize Hcol. unfold generate_icon.vertical_gradient, new_rgb.
  rewrite check_size_ok by lia. res_step.
  erewrite (for_each_ext _ _ _ _ (fun px y => gradient_body_eq size top bot px y)).
  remember (Z.to_nat size) as n eqn:Hn.
  assert (Hs : size = Z.of_nat n) by lia. clear Hn. subst size.
  pose proof (fill_rows n top bot n 0 [] eq_refl) as H.
  cbn [app] in H. change (Z.of_nat 0) with 0 in H.
  unfold range in *. rewrite H; [reflexivity|].
  intros y Hy. apply Hcol. lia.
Qed.

Lemma truediv_unit y n :
  0 <= y <= n -> 0 < n ->
  exists t, int_truediv y n = Ok t /\ finite t /\ (Rabs (F2R t) <= 2)%R.
Proof.
  intros Hy Hn.
  assert (Hq : (Rabs (IZR y / IZR n) <= 1)%R).
  { assert (0 < IZR n)%R by (apply IZR_lt; lia).
    assert (0 <= IZR y)%R by (apply IZR_le; lia).
    assert (IZR y <= IZR n)%R by (apply IZR_le; lia).
    rewrite Rabs_pos_eq by (apply Rmult_le_pos; [lra|left; apply Rinv_0_lt_compat; lra]).
    apply Rmult_le_reg_r with (IZR n); [lra|]. unfold Rdiv.
    rewrite Rmult_assoc, Rinv_l by lra. lra. }
  destruct (int_truediv_total y n) as [t Ht]; [lia| |].
  { apply small_le_max. eapply Rle_trans; [exact Hq|]. apply IZR_le. lia. }
  exists t. split; [exact Ht|].
  destruct (int_truediv_inv _ _ _ Ht) as (_ & Hf & Hr).
  split; [exact Hf|].
  pose proof (rnd_ok_abs_bound _ _ 1 Hr Hf Hq ltac:(lra)) as H. unfold F2R. lra.
Qed.

Lemma color8_abs c : color8 c -> Z.abs c.1.1 <= 255 /\ Z.abs c.1.2 <= 255 /\ Z.abs c.2 <= 255.
Proof. unfold color8. lia. Qed.

Lemma row_color_total size top bot y :
  2 <= size -> 0 <= y < size -> color8 top -> color8 bot ->
  exists c, row_color size top bot y = Ok c.
Proof.
  intros Hs Hy Ht Hb. unfold row_color.
  destruct (truediv_unit y (size - 1)) as (t & -> & Hf & Hb2); try lia. res_step.
  apply color8_abs in Ht as (? & ? & ?). apply color8_abs in Hb as (? & ? & ?).
  destruct (channel_total top.1.1 bot.1.1 t) as [r ->]; try assumption. res_step.
  destruct (channel_total top.1.2 bot.1.2 t) as [g ->]; try assumption. res_step.
  destruct (channel_total top.2 bot.2 t) as [b ->]; try assumption. res_step.
  eauto.
Qed.

Lemma row_color_first size top bot :
  2 <= size -> color8 top -> color8 bot -> row_color size top bot 0 = Ok top.
Proof.
  intros Hs Ht Hb. unfold row_color. rewrite int_truediv_zero by lia.
  apply color8_abs in Ht as (? & ? & ?). apply color8_abs in Hb as (? & ? & ?).
  res_step. rewrite !channel_at_0 by assumption. res_step.
  destruct top as [[? ?] ?]. reflexivity.
Qed.

Lemma row_color_last size top bot :
  2 <= size -> color8 top -> color8 bot -> row_color size top bot (size - 1) = Ok bot.
Proof.
  intros Hs Ht Hb. unfold row_color. rewrite int_truediv_self by lia.
  apply color8_abs in Ht as (? & ? & ?). apply color8_abs in Hb as (? & ? & ?).
  res_step. rewrite !channel_at_1 by assumption. res_step.
  destruct bot as [[? ?] ?]. reflexivity.
Qed.

Lemma getpixel_rows (f : Z -> rgb) size x y :
  0 <= x < size -> 0 <= y < size ->
  getpixel ((fun y => replicate (Z.to_nat size) (f y)) <$> range size) x y = Some (f y).
Proof.
  intros Hx Hy. unfold getpixel, range.
  rewrite !bool_decide_eq_true_2 by lia. cbn [andb].
  rewrite list_lookup_fmap, lookup_seqZ_lt by lia. simpl.
  rewrite Z2Nat.id by lia. apply lookup_replicate_2. lia.
Qed.

Lemma channel_interpolated top bot y n :
  (t ← int_truediv y n; generate_icon.channel top bot t) = interpolated top bot y n.
Proof.
  unfold interpolated, generate_icon.channel, int_mul_float, int_add_float.
  destruct (int_truediv y n) as [t|]; [|reflexivity]. res_step.
  destruct (float_of_int (bot - top)) as [d|]; [|reflexivity]. res_step.
  destruct (float_of_int top) as [a|]; reflexivity.
Qed.

Lemma row_color_interpolated size top bot y c :
  row_color size top bot y = Ok c ->
  interpolated top.1.1 bot.1.1 y (size - 1) = Ok c.1.1
  /\ interpolated top.1.2 bot.1.2 y (size - 1) = Ok c.1.2
  /\ interpolated top.2 bot.2 y (size - 1) = Ok c.2.
Proof.
  intros Hc. rewrite <- !channel_interpolated. unfold row_color in Hc.
  destruct (int_truediv y (size - 1)) as [t|] eqn:Et; [|discriminate].
  cbn [mbind res_bind] in Hc |- *.
  destruct (generate_icon.channel top.1.1 bot.1.1 t) as [r|] eqn:Er; [|discriminate].
  destruct (generate_icon.channel top.1.2 bot.1.2 t) as [g|] eqn:Eg; [|discriminate].
  destruct (generate_icon.channel top.2 bot.2 t) as [b|] eqn:Eb; [|discriminate].
  cbn [mbind res_bind] in Hc. injection Hc as <-. auto.
Qed.

Lemma vertical_gradient_total size top bot :
  2 <= size < 2 ^ 31 -> color8 top -> color8 bot ->
  exists px, generate_icon.vertical_gradient size top bot = Ok (Raster size size px).
Proof.
  intros Hs Ht Hb. eexists. apply vertical_gradient_rows; [lia|].
  intros; apply row_color_total; [lia|assumption..].
Qed.

Lemma vertical_gradient_one top bot :
  generate_icon.vertical_gradient 1 top bot = Raise ZeroDivisionError.
Proof. reflexivity. Qed.

Lemma vertical_gradient_too_large size top bot :
  2 ^ 31 <= size -> generate_icon.vertical_gradient size top bot = Raise OverflowError.
Proof.
  intros Hs. unfold generate_icon.vertical_gradient, new_rgb.
  rewrite check_size_too_large by lia. reflexivity.
Qed.

Lemma vertical_gradient_no_division size top bot :
  2 <= size -> color8 top -> color8 bot ->
  generate_icon.vertical_gradient size top bot <> Raise ZeroDivisionError.
Proof.
  intros Hs Ht Hb. destruct (Z_lt_le_dec size (2 ^ 31)) as [Hlt|Hge].
  - destruct (vertical_gradient_total size top bot ltac:(lia) Ht Hb) as [px ->]. discriminate.
  - rewrite vertical_gradient_too_large by lia. discriminate.
Qed.

Lemma INDIGO_color8 :
  color8 generate_icon.INDIGO_TOP /\ color8 generate_icon.INDIGO_BOTTOM.
Proof. unfold color8; simpl; lia. Qed.

(** C9: [vertical_gradient] fails with a division by zero at size 1, and
    at no size from 2 on; up to 4096 it returns an image exactly from size 2
    on.  [make_icon] calls it with size * 4, which for every requested size
    >= 1 is never 1, so that call never fails with a division by zero, and
    up to icon size 1024 it returns an image. *)
Theorem C9_gradient_division (top_rgb bot_rgb : rgb) :
  color8 top_rgb -> color8 bot_rgb ->
  generate_icon.vertical_gradient 1 top_rgb bot_rgb = Raise ZeroDivisionError
  /\ (forall size, 1 <= size ->
        (generate_icon.vertical_gradient size top_rgb bot_rgb = Raise ZeroDivisionError
         <-> size = 1))
  /\ (forall size, 1 <= size <= 4096 ->
        ((exists img, generate_icon.vertical_gradient size top_rgb bot_rgb = Ok img)
         <-> 2 <= size))
  /\ (forall size, 1 <= size ->
        size * generate_icon.SCALE <> 1
        /\ generate_icon.vertical_gradient (size * generate_icon.SCALE)
             generate_icon.INDIGO_TOP generate_icon.INDIGO_BOTTOM
           <> Raise ZeroDivisionError)
  /\ (forall size, 1 <= size <= 1024 ->
        exists img,
          generate_icon.vertical_gradient (size * generate_icon.SCALE)
            generate_icon.INDIGO_TOP generate_icon.INDIGO_BOTTOM = Ok img).
Proof.
  intros Ht Hb. destruct INDIGO_color8 as [H1 H2].
  split; [apply vertical_gradient_one|]. split; [|split; [|split]].
  - intros size Hs. split.
    + intros Hz. destruct (Z.eq_dec size 1) as [->|Hne]; [reflexivity|].
      exfalso. exact (vertical_gradient_no_division size _ _ ltac:(lia) Ht Hb Hz).
    + intros ->. apply vertical_gradient_one.
  - intros size Hs. split.
    + intros [img Himg]. destruct (Z.eq_dec size 1) as [->|]; [|lia].
      rewrite vertical_gradient_one in Himg. discriminate.
    + intros Hge.
      destruct (vertical_gradient_total size top_rgb bot_rgb ltac:(lia) Ht Hb) as [px Hpx].
      eauto.
  - intros size Hs. unfold generate_icon.SCALE. split; [lia|].
    apply vertical_gradient_no_division; [lia|assumption..].
  - intros size Hs. unfold generate_icon.SCALE.
    destruct (vertical_gradient_total (size * 4) _ _ ltac:(lia) H1 H2) as [px Hpx]. eauto.
Qed.

Lemma C9_gradient_division_witness :
  generate_icon.vertical_gradient 1 generate_icon.INDIGO_TOP generate_icon.INDIGO_BOTTOM
    = Raise ZeroDivisionError
  /\ exists img,
       generate_icon.vertical_gradient (16 * generate_icon.SCALE)
         generate_icon.INDIGO_TOP generate_icon.INDIGO_BOTTOM = Ok img.
Proof.
  destruct INDIGO_color8 as [H1 H2].
  destruct (C9_gradient_division _ _ H1 H2) as (Hone & _ & _ & _ & Hicon).
  split; [exact Hone|]. apply (Hicon 16). lia.
Defined.

(* ================================================================== *)
(** * The geometry of the V *)
(* ================================================================== *)

Lemma bpow_neg_IZR k : 0 <= k -> bpow (- k) = (/ IZR (2 ^ k))%R.
Proof. intros Hk. rewrite bpow_opp, bpow_IZR by assumption. reflexivity. Qed.

Lemma bpow_m52 : bpow (-52) = (/ 4503599627370496)%R.
Proof. apply (bpow_neg_IZR 52). lia. Qed.

Lemma bpow_m53 : bpow (-53) = (/ 9007199254740992)%R.
Proof. apply (bpow_neg_IZR 53). lia. Qed.

Lemma bpow_m1075_le : (bpow (-1075) <= / 9007199254740992)%R.
Proof. rewrite <- bpow_m53. apply bpow_le. lia. Qed.

Lemma max_float_ge : (9007199254740991 <= max_float_R)%R.
Proof.
  unfold max_float_R. change (2 ^ 53 - 1) with 9007199254740991.
  pose proof (bpow_ge_1 971 ltac:(lia)). nra.
Qed.

(** The value of a float literal, read off its bits. *)
Lemma F2R_bits x s m e :
  Prim2SF x = S754_finite s m e -> finite x /\ F2R x = (IZR (cond_Zopp s (Z.pos m)) * bpow e)%R.
Proof. unfold finite, F2R. intros ->. split; reflexivity. Qed.

(** [float(size)] for a positive size: within one part in 2^52 of [size],
    and [size] itself is not much beyond the largest float. *)
Lemma float_of_pos_size size s :
  0 < size -> float_of_int size = Ok s ->
  finite s
  /\ ((1 - / 4503599627370496) * IZR size <= F2R s <= (1 + / 4503599627370496) * IZR size)%R
  /\ (1 <= IZR size)%R
  /\ (99 / 100 * IZR size <= max_float_R)%R.
Proof.
  intros Hpos Hs. destruct (float_of_int_inv _ _ Hs) as [Hf Hr].
  pose proof (rnd_ok_error _ _ Hr Hf) as He. fold (F2R s) in He.
  assert (H1 : (1 <= IZR size)%R) by (apply IZR_le; lia).
  rewrite (Rabs_pos_eq (IZR size)) in He by lra.
  rewrite bpow_m53 in He. pose proof bpow_m1075_le. pose proof (bpow_pos (-1075)).
  apply Rabs_le_bounds in He.
  pose proof (finite_le_max s) as Hmax. apply Rabs_le_bounds in Hmax.
  pose proof max_float_ge.
  split; [exact Hf|]. split; [lra|]. split; [exact H1|]. lra.
Qed.

(** One rounded operation: an enclosure of the exact result, as multiples
    of [S], gives an enclosure of the rounded one, one part in 2^52 wider. *)
Lemma encl_step (S y : R) (r : float) (lo hi lo' hi' : R) :
  rnd_ok y (Prim2SF r) ->
  (1 <= S)%R -> (99 / 100 * S <= max_float_R)%R ->
  (lo * S <= y <= hi * S)%R ->
  (- (99 / 100) <= lo)%R -> (hi <= 99 / 100)%R ->
  (lo' <= lo - / 4503599627370496)%R -> (hi + / 4503599627370496 <= hi')%R ->
  finite r /\ (lo' * S <= F2R r <= hi' * S)%R.
Proof.
  intros Hr HS Hmax Hy Hlo Hhi Hlo' Hhi'.
  assert (Habs : (Rabs y <= 99 / 100 * S)%R) by (apply Rabs_le; nra).
  assert (Hf : is_finite_SF (Prim2SF r) = true).
  { apply (rnd_ok_finite _ _ Hr). lra. }
  split; [exact Hf|].
  pose proof (rnd_ok_error _ _ Hr Hf) as He. fold (F2R r) in He.
  rewrite bpow_m53 in He. pose proof bpow_m1075_le. pose proof (bpow_pos (-1075)).
  apply Rabs_le_bounds in He. nra.
Qed.

(** Halving and doubling are exact. *)
Lemma half_exact s :
  finite s -> (/ 2 <= Rabs (F2R s))%R ->
  finite (s * 0.5) /\ F2R (s * 0.5) = (F2R s / 2)%R.
Proof.
  intros Hf Hs.
  destruct (F2R_bits 0.5 false (2 ^ 52) (-53) eq_refl) as [Hc Hcv].
  assert (Hhalf : F2R 0.5 = (/ 2)%R).
  { rewrite Hcv. simpl cond_Zopp. change (Z.pos (2 ^ 52)) with (2 ^ 52).
    rewrite <- bpow_IZR, <- bpow_add by lia. apply bpow_m1. }
  pose proof (mul_rnd s 0.5 Hf Hc) as Hr. rewrite Hhalf in Hr.
  pose proof (finite_le_max s) as Hmax. pose proof (Rabs_pos (F2R s)).
  assert (Hfin : finite (s * 0.5)).
  { apply (rnd_ok_finite _ _ Hr). rewrite Rabs_mult, (Rabs_pos_eq (/ 2)) by lra. lra. }
  split; [exact Hfin|].
  destruct (valid_repr _ (Prim2SF_valid s)) as (j & g & Hj & Hg & Hlt). fold (F2R s) in Hj, Hlt.
  assert (Hg' : -53 <= g).
  { assert (bpow (-1) < bpow (g + 53))%R as H1 by (rewrite bpow_m1; lra).
    apply bpow_lt_inv in H1. lia. }
  unfold Rdiv. apply (rnd_ok_exact _ _ j (g - 1) Hr Hfin).
  - rewrite Hj, <- bpow_half. lra.
  - lia.
  - rewrite Rabs_mult, (Rabs_pos_eq (/ 2)) by lra.
    replace (g - 1 + 53) with (g + 53 - 1) by lia. rewrite <- bpow_half. lra.
Qed.

Lemma float_of_int_2 : float_of_int 2 = Ok 2%float.
Proof. reflexivity. Qed.

Lemma double_exact t :
  finite t -> (2 * Rabs (F2R t) <= max_float_R)%R ->
  finite (2 * t) /\ F2R (2 * t) = (2 * F2R t)%R.
Proof.
  intros Hf Hmax.
  destruct (float_of_int_small 2 ltac:(lia)) as (two & H2 & H2f & H2v).
  rewrite float_of_int_2 in H2. injection H2 as <-.
  pose proof (mul_rnd 2 t H2f Hf) as Hr. rewrite H2v in Hr.
  pose proof (Rabs_pos (F2R t)).
  assert (Ha : Rabs (2 * F2R t) = (2 * Rabs (F2R t))%R).
  { rewrite Rabs_mult, (Rabs_pos_eq 2) by lra. reflexivity. }
  assert (Hfin : finite (2 * t)).
  { apply (rnd_ok_finite _ _ Hr). rewrite Ha. exact Hmax. }
  split; [exact Hfin|].
  destruct (valid_repr _ (Prim2SF_valid t)) as (j & g & Hj & Hg & Hlt). fold (F2R t) in Hj, Hlt.
  apply (rnd_ok_exact _ _ j (g + 1) Hr Hfin).
  - rewrite Hj, bpow_add, bpow_1. lra.
  - lia.
  - rewrite Ha. replace (g + 1 + 53) with (g + 53 + 1) by lia. rewrite bpow_add, bpow_1. lra.
Qed.

Lemma v_arms_eq size s :
  float_of_int size = Ok s ->
  generate_icon.v_arms size =
    Ok (let pad := s * 0.16 in
        let tip_x := s * 0.50 in
        let tip_y := s * 0.74 in
        let thick := s * 0.175 in
        let lx1 := pad + thick in
        let ax := tip_x - thick * 0.38 in
        let ay := tip_y - thick * 0.55 in
        ([(pad, pad); (lx1, pad); (tip_x, ay); (ax, tip_y)],
         [(2 * tip_x - pad, pad); (2 * tip_x - lx1, pad);
          (2 * tip_x - tip_x, ay); (2 * tip_x - ax, tip_y)]))%float.
Proof.
  intros Hs. unfold generate_icon.v_arms, int_mul_float, int_sub_float.
  rewrite Hs. res_step. cbn [mapM]. rewrite float_of_int_2. res_step. reflexivity.
Qed.

Lemma v_arms_raise size e :
  float_of_int size = Raise e -> generate_icon.v_arms size = Raise e.
Proof.
  intros Hs. unfold generate_icon.v_arms, int_mul_float. rewrite Hs. reflexivity.
Qed.

Ltac float_const c H :=
  let Hfin := fresh "Hfin" in
  let sf := eval vm_compute in (Prim2SF c) in
  match sf with
  | S754_finite ?s ?m ?e => destruct (F2R_bits c s m e eq_refl) as [Hfin H]
  end;
  cbn [cond_Zopp] in H;
  match type of H with
  | context [bpow (Z.neg ?p)] =>
      change (bpow (Z.neg p)) with (bpow (- Z.pos p)) in H;
      rewrite (bpow_neg_IZR (Z.pos p)) in H by lia;
      let v := eval vm_compute in (2 ^ Z.pos p) in
      change (2 ^ Z.pos p) with v in H
  | context [bpow 0] => rewrite bpow_0 in H
  | context [bpow (Z.pos ?p)] =>
      rewrite (bpow_IZR (Z.pos p)) in H by lia;
      let v := eval vm_compute in (2 ^ Z.pos p) in
      change (2 ^ Z.pos p) with v in H
  end.

Lemma near_intro (S : R) (q : float) (c lo hi : R) :
  finite q /\ (lo * S <= F2R q <= hi * S)%R ->
  (0 <= S)%R ->
  (c - / 281474976710656 <= lo)%R -> (hi <= c + / 281474976710656)%R ->
  near S q c.
Proof.
  intros [Hf Hb] HS Hlo Hhi. split; [exact Hf|]. apply Rabs_le. nra.
Qed.

Ltac encl_with lo hi :=
  eapply (encl_step _ _ _ lo hi);
  [ first [apply mul_rnd | apply add_rnd | apply sub_rnd]; assumption
  | eassumption | eassumption | .. ].

Section IconGeometry.

Local Abbreviation d := (/ 4503599627370496)%R.

(** Every coordinate [draw_v] computes is the canvas size times a fixed
    proportion, up to rounding. *)
Lemma v_arms_near size la ra :
  0 < size -> generate_icon.v_arms size = Ok (la, ra) ->
  Forall2 (near_pt (IZR size)) la icon_left_ideal
  /\ Forall2 (near_pt (IZR size)) ra icon_right_ideal.
Proof.
  intros Hpos Hv.
  destruct (float_of_int size) as [s|e] eqn:Hs;
    [|rewrite (v_arms_raise _ _ Hs) in Hv; discriminate].
  rewrite (v_arms_eq _ _ Hs) in Hv. cbv zeta in Hv. injection Hv as <- <-.
  destruct (float_of_pos_size _ _ Hpos Hs) as (Hsf & Hsb & HS1 & HSmax).
  set (S := IZR size) in *.
  float_const 0.16%float H016. float_const 0.74%float H074.
  float_const 0.175%float H0175. float_const 0.38%float H038.
  float_const 0.55%float H055.
  assert (Hsabs : (/ 2 <= Rabs (F2R s))%R) by (rewrite Rabs_pos_eq; lra).
  destruct (half_exact s Hsf Hsabs) as [Htxf Htx].
  assert (Htx2 : (2 * Rabs (F2R (s * 0.5)) <= max_float_R)%R).
  { rewrite Htx, Rabs_pos_eq by lra. pose proof (finite_le_max s) as Hm.
    rewrite Rabs_pos_eq in Hm by lra. lra. }
  destruct (double_exact _ Htxf Htx2) as [Hc2f Hc2]. rewrite Htx in Hc2.
  assert (Hpad : finite (s * 0.16) /\
    ((16 / 100 - 2 * d) * S <= F2R (s * 0.16) <= (16 / 100 + 2 * d) * S)%R).
  { encl_with (16 / 100 - d)%R (16 / 100 + d)%R; rewrite ?H016; lra. }
  destruct Hpad as [Hpadf Hpad].
  assert (Hty : finite (s * 0.74) /\
    ((74 / 100 - 2 * d) * S <= F2R (s * 0.74) <= (74 / 100 + 2 * d) * S)%R).
  { encl_with (74 / 100 - d)%R (74 / 100 + d)%R; rewrite ?H074; lra. }
  destruct Hty as [Htyf Hty].
  assert (Hth : finite (s * 0.175) /\
    ((175 / 1000 - 2 * d) * S <= F2R (s * 0.175) <= (175 / 1000 + 2 * d) * S)%R).
  { encl_with (175 / 1000 - d)%R (175 / 1000 + d)%R; rewrite ?H0175; lra. }
  destruct Hth as [Hthf Hth].
  assert (Hlx1 : finite (s * 0.16 + s * 0.175) /\
    ((335 / 1000 - 5 * d) * S <= F2R (s * 0.16 + s * 0.175) <= (335 / 1000 + 5 * d) * S)%R).
  { encl_with (335 / 1000 - 4 * d)%R (335 / 1000 + 4 * d)%R; lra. }
  destruct Hlx1 as [Hlx1f Hlx1].
  assert (Ht38 : finite (s * 0.175 * 0.38) /\
    ((665 / 10000 - 2 * d) * S <= F2R (s * 0.175 * 0.38) <= (665 / 10000 + 2 * d) * S)%R).
  { encl_with (665 / 10000 - d)%R (665 / 10000 + d)%R; rewrite ?H038; lra. }
  destruct Ht38 as [Ht38f Ht38].
  assert (Hax : finite (s * 0.5 - s * 0.175 * 0.38) /\
    ((4335 / 10000 - 4 * d) * S <= F2R (s * 0.5 - s * 0.175 * 0.38)
       <= (4335 / 10000 + 4 * d) * S)%R).
  { encl_with (4335 / 10000 - 3 * d)%R (4335 / 10000 + 3 * d)%R; rewrite ?Htx; lra. }
  destruct Hax as [Haxf Hax].
  assert (Ht55 : finite (s * 0.175 * 0.55) /\
    ((9625 / 100000 - 3 * d) * S <= F2R (s * 0.175 * 0.55) <= (9625 / 100000 + 3 * d) * S)%R).
  { encl_with (9625 / 100000 - 2 * d)%R (9625 / 100000 + 2 * d)%R; rewrite ?H055; lra. }
  destruct Ht55 as [Ht55f Ht55].
  assert (Hay : finite (s * 0.74 - s * 0.175 * 0.55) /\
    ((64375 / 100000 - 6 * d) * S <= F2R (s * 0.74 - s * 0.175 * 0.55)
       <= (64375 / 100000 + 6 * d) * S)%R).
  { encl_with (64375 / 100000 - 5 * d)%R (64375 / 100000 + 5 * d)%R; lra. }
  destruct Hay as [Hayf Hay].
  assert (Hr0 : finite (2 * (s * 0.5) - s * 0.16) /\
    ((84 / 100 - 4 * d) * S <= F2R (2 * (s * 0.5) - s * 0.16) <= (84 / 100 + 4 * d) * S)%R).
  { encl_with (84 / 100 - 3 * d)%R (84 / 100 + 3 * d)%R; rewrite ?Hc2; lra. }
  assert (Hr1 : finite (2 * (s * 0.5) - (s * 0.16 + s * 0.175)) /\
    ((665 / 1000 - 7 * d) * S <= F2R (2 * (s * 0.5) - (s * 0.16 + s * 0.175))
       <= (665 / 1000 + 7 * d) * S)%R).
  { encl_with (665 / 1000 - 6 * d)%R (665 / 1000 + 6 * d)%R; rewrite ?Hc2; lra. }
  assert (Hr2 : finite (2 * (s * 0.5) - s * 0.5) /\
    ((1 / 2 - 2 * d) * S <= F2R (2 * (s * 0.5) - s * 0.5) <= (1 / 2 + 2 * d) * S)%R).
  { encl_with (1 / 2 - d)%R (1 / 2 + d)%R; rewrite ?Hc2, ?Htx; lra. }
  assert (Hr3 : finite (2 * (s * 0.5) - (s * 0.5 - s * 0.175 * 0.38)) /\
    ((5665 / 10000 - 6 * d) * S <= F2R (2 * (s * 0.5) - (s * 0.5 - s * 0.175 * 0.38))
       <= (5665 / 10000 + 6 * d) * S)%R).
  { encl_with (5665 / 10000 - 5 * d)%R (5665 / 10000 + 5 * d)%R; rewrite ?Hc2; lra. }
  assert (HS0 : (0 <= S)%R) by lra.
  assert (Ntx : near S (s * 0.5) (1 / 2)).
  { split; [exact Htxf|]. rewrite Htx. apply Rabs_le. lra. }
  assert (Npad : near S (s * 0.16) (16 / 100))
    by (apply (near_intro _ _ _ _ _ (conj Hpadf Hpad) HS0); lra).
  assert (Nty : near S (s * 0.74) (74 / 100))
    by (apply (near_intro _ _ _ _ _ (conj Htyf Hty) HS0); lra).
  assert (Nlx1 : near S (s * 0.16 + s * 0.175) (335 / 1000))
    by (apply (near_intro _ _ _ _ _ (conj Hlx1f Hlx1) HS0); lra).
  assert (Nax : near S (s * 0.5 - s * 0.175 * 0.38) (4335 / 10000))
    by (apply (near_intro _ _ _ _ _ (conj Haxf Hax) HS0); lra).
  assert (Nay : near S (s * 0.74 - s * 0.175 * 0.55) (64375 / 100000))
    by (apply (near_intro _ _ _ _ _ (conj Hayf Hay) HS0); lra).
  assert (Nr0 : near S (2 * (s * 0.5) - s * 0.16) (84 / 100))
    by (apply (near_intro _ _ _ _ _ Hr0 HS0); lra).
  assert (Nr1 : near S (2 * (s * 0.5) - (s * 0.16 + s * 0.175)) (665 / 1000))
    by (apply (near_intro _ _ _ _ _ Hr1 HS0); lra).
  assert (Nr2 : near S (2 * (s * 0.5) - s * 0.5) (1 / 2))
    by (apply (near_intro _ _ _ _ _ Hr2 HS0); lra).
  assert (Nr3 : near S (2 * (s * 0.5) - (s * 0.5 - s * 0.175 * 0.38)) (5665 / 10000))
    by (apply (near_intro _ _ _ _ _ Hr3 HS0); lra).
  unfold icon_left_ideal, icon_right_ideal.
  split; repeat (apply List.Forall2_cons; [split; cbn [fst snd]; assumption|]);
    apply List.Forall2_nil.
Qed.

End IconGeometry.


Lemma v_polys_eq size s mid_x :
  float_of_int size = Ok s -> int_truediv size 2 = Ok mid_x ->
  generate_favicon.v_polys size =
    Ok (let margin := s * 0.18 in
        let top_y := s * 0.22 in
        let bot_y := s * 0.78 in
        let thick := s * 0.13 in
        let left_inner_x := margin + thick * 1.6 in
        let right_outer_x := s - margin in
        let right_inner_x := s - margin - thick * 1.6 in
        ([(margin, top_y); (left_inner_x, top_y); (mid_x, bot_y - thick * 0.9);
          (right_inner_x, top_y); (right_outer_x, top_y); (mid_x, bot_y)],
         [(mid_x, top_y); (right_inner_x, top_y); (right_outer_x, top_y);
          (mid_x, bot_y)]))%float.
Proof.
  intros Hs Hm. unfold generate_favicon.v_polys, int_mul_float, int_sub_float.
  rewrite Hs, Hm. reflexivity.
Qed.

Lemma v_polys_raise size e :
  float_of_int size = Raise e -> generate_favicon.v_polys size = Raise e.
Proof.
  intros Hs. unfold generate_favicon.v_polys, int_mul_float. rewrite Hs. reflexivity.
Qed.

Lemma half_size_total size s :
  0 < size -> float_of_int size = Ok s -> exists m, int_truediv size 2 = Ok m.
Proof.
  intros Hpos Hs. destruct (float_of_pos_size _ _ Hpos Hs) as (_ & _ & H1 & Hmax).
  apply int_truediv_total; [lia|]. rewrite Rabs_pos_eq; lra.
Qed.

Section FaviconGeometry.

Local Abbreviation d := (/ 4503599627370496)%R.

(** Every coordinate of [v_poly] and [right_half] is the canvas size times
    a fixed proportion, up to rounding. *)
Lemma v_polys_near size v_poly right_half :
  0 < size -> generate_favicon.v_polys size = Ok (v_poly, right_half) ->
  Forall2 (near_pt (IZR size)) v_poly favicon_v_ideal
  /\ Forall2 (near_pt (IZR size)) right_half favicon_right_half_ideal.
Proof.
  intros Hpos Hv.
  destruct (float_of_int size) as [s|e] eqn:Hs;
    [|rewrite (v_polys_raise _ _ Hs) in Hv; discriminate].
  destruct (half_size_total _ _ Hpos Hs) as [m Hm].
  rewrite (v_polys_eq _ _ _ Hs Hm) in Hv. cbv zeta in Hv. injection Hv as <- <-.
  destruct (float_of_pos_size _ _ Hpos Hs) as (Hsf & Hsb & HS1 & HSmax).
  destruct (int_truediv_inv _ _ _ Hm) as (_ & Hmf0 & Hmr).
  set (S := IZR size) in *.
  float_const 0.18%float H018. float_const 0.22%float H022.
  float_const 0.78%float H078. float_const 0.13%float H013.
  float_const 1.6%float H16. float_const 0.9%float H09.
  assert (Hmid : finite m /\ ((1 / 2 - d) * S <= F2R m <= (1 / 2 + d) * S)%R).
  { eapply (encl_step S _ _ (1 / 2)%R (1 / 2)%R); [exact Hmr|..]; try assumption; lra. }
  destruct Hmid as [Hmf Hmid].
  assert (Hmg : finite (s * 0.18) /\
    ((18 / 100 - 2 * d) * S <= F2R (s * 0.18) <= (18 / 100 + 2 * d) * S)%R).
  { encl_with (18 / 100 - d)%R (18 / 100 + d)%R; rewrite ?H018; lra. }
  destruct Hmg as [Hmgf Hmg].
  assert (Hty : finite (s * 0.22) /\
    ((22 / 100 - 2 * d) * S <= F2R (s * 0.22) <= (22 / 100 + 2 * d) * S)%R).
  { encl_with (22 / 100 - d)%R (22 / 100 + d)%R; rewrite ?H022; lra. }
  destruct Hty as [Htyf Hty].
  assert (Hby : finite (s * 0.78) /\
    ((78 / 100 - 2 * d) * S <= F2R (s * 0.78) <= (78 / 100 + 2 * d) * S)%R).
  { encl_with (78 / 100 - d)%R (78 / 100 + d)%R; rewrite ?H078; lra. }
  destruct Hby as [Hbyf Hby].
  assert (Hth : finite (s * 0.13) /\
    ((13 / 100 - 2 * d) * S <= F2R (s * 0.13) <= (13 / 100 + 2 * d) * S)%R).
  { encl_with (13 / 100 - d)%R (13 / 100 + d)%R; rewrite ?H013; lra. }
  destruct Hth as [Hthf Hth].
  assert (Ht16 : finite (s * 0.13 * 1.6) /\
    ((208 / 1000 - 5 * d) * S <= F2R (s * 0.13 * 1.6) <= (208 / 1000 + 5 * d) * S)%R).
  { encl_with (208 / 1000 - 4 * d)%R (208 / 1000 + 4 * d)%R; rewrite ?H16; lra. }
  destruct Ht16 as [Ht16f Ht16].
  assert (Hli : finite (s * 0.18 + s * 0.13 * 1.6) /\
    ((388 / 1000 - 8 * d) * S <= F2R (s * 0.18 + s * 0.13 * 1.6)
       <= (388 / 1000 + 8 * d) * S)%R).
  { encl_with (388 / 1000 - 7 * d)%R (388 / 1000 + 7 * d)%R; lra. }
  assert (Hro : finite (s - s * 0.18) /\
    ((82 / 100 - 4 * d) * S <= F2R (s - s * 0.18) <= (82 / 100 + 4 * d) * S)%R).
  { encl_with (82 / 100 - 3 * d)%R (82 / 100 + 3 * d)%R; lra. }
  destruct Hro as [Hrof Hro].
  assert (Hri : finite (s - s * 0.18 - s * 0.13 * 1.6) /\
    ((612 / 1000 - 10 * d) * S <= F2R (s - s * 0.18 - s * 0.13 * 1.6)
       <= (612 / 1000 + 10 * d) * S)%R).
  { encl_with (612 / 1000 - 9 * d)%R (612 / 1000 + 9 * d)%R; lra. }
  assert (Ht09 : finite (s * 0.13 * 0.9) /\
    ((117 / 1000 - 3 * d) * S <= F2R (s * 0.13 * 0.9) <= (117 / 1000 + 3 * d) * S)%R).
  { encl_with (117 / 1000 - 2 * d)%R (117 / 1000 + 2 * d)%R; rewrite ?H09; lra. }
  destruct Ht09 as [Ht09f Ht09].
  assert (Hbi : finite (s * 0.78 - s * 0.13 * 0.9) /\
    ((663 / 1000 - 6 * d) * S <= F2R (s * 0.78 - s * 0.13 * 0.9)
       <= (663 / 1000 + 6 * d) * S)%R).
  { encl_with (663 / 1000 - 5 * d)%R (663 / 1000 + 5 * d)%R; lra. }
  assert (HS0 : (0 <= S)%R) by lra.
  assert (Nmid : near S m (1 / 2))
    by (apply (near_intro _ _ _ _ _ (conj Hmf Hmid) HS0); lra).
  assert (Nmg : near S (s * 0.18) (18 / 100))
    by (apply (near_intro _ _ _ _ _ (conj Hmgf Hmg) HS0); lra).
  assert (Nty : near S (s * 0.22) (22 / 100))
    by (apply (near_intro _ _ _ _ _ (conj Htyf Hty) HS0); lra).
  assert (Nby : near S (s * 0.78) (78 / 100))
    by (apply (near_intro _ _ _ _ _ (conj Hbyf Hby) HS0); lra).
  assert (Nli : near S (s * 0.18 + s * 0.13 * 1.6) (388 / 1000))
    by (apply (near_intro _ _ _ _ _ Hli HS0); lra).
  assert (Nro : near S (s - s * 0.18) (82 / 100))
    by (apply (near_intro _ _ _ _ _ (conj Hrof Hro) HS0); lra).
  assert (Nri : near S (s - s * 0.18 - s * 0.13 * 1.6) (612 / 1000))
    by (apply (near_intro _ _ _ _ _ Hri HS0); lra).
  assert (Nbi : near S (s * 0.78 - s * 0.13 * 0.9) (663 / 1000))
    by (apply (near_intro _ _ _ _ _ Hbi HS0); lra).
  unfold favicon_v_ideal, favicon_right_half_ideal.
  split; repeat (apply List.Forall2_cons; [split; cbn [fst snd]; assumption|]);
    apply List.Forall2_nil.
Qed.

End FaviconGeometry.

Lemma near_in_range (S : R) q c :
  near S q c -> (1 <= S)%R -> (1 / 100 <= c <= 99 / 100)%R ->
  finite q /\ (0 <= F2R q <= S)%R.
Proof.
  intros [Hf Hb] HS Hc. split; [exact Hf|]. apply Rabs_le_bounds in Hb. nra.
Qed.

Lemma near_in_canvas size (l : list point) (ideal : list (R * R)) :
  0 < size -> Forall2 (near_pt (IZR size)) l ideal -> Forall inner ideal ->
  Forall (in_canvas size) l.
Proof.
  intros Hpos H. assert (HS : (1 <= IZR size)%R) by (apply IZR_le; lia).
  induction H as [|p c l ideal [Hx Hy] _ IH]; intros Hin; [constructor|].
  apply Forall_cons in Hin as [[Hc1 Hc2] Hin]. constructor; [|auto].
  destruct (near_in_range _ _ _ Hx HS Hc1) as [? ?].
  destruct (near_in_range _ _ _ Hy HS Hc2) as [? ?].
  unfold in_canvas. auto.
Qed.

Lemma ideals_inner :
  Forall inner icon_left_ideal /\ Forall inner icon_right_ideal
  /\ Forall inner favicon_v_ideal /\ Forall inner favicon_right_half_ideal.
Proof.
  unfold icon_left_ideal, icon_right_ideal, favicon_v_ideal, favicon_right_half_ideal, inner.
  repeat split; repeat (apply List.Forall_cons; [cbn [fst snd]; lra|]); apply List.Forall_nil.
Qed.

Lemma v_arms_total size :
  Z.abs size <= (2 ^ 53 - 1) * 2 ^ 971 ->
  exists la ra, generate_icon.v_arms size = Ok (la, ra).
Proof.
  intros Hs. destruct (float_of_int_total size Hs) as [s Hf].
  rewrite (v_arms_eq _ _ Hf). eauto.
Qed.

Lemma v_polys_total size :
  0 < size <= (2 ^ 53 - 1) * 2 ^ 971 ->
  exists vp rh, generate_favicon.v_polys size = Ok (vp, rh).
Proof.
  intros Hs. destruct (float_of_int_total size ltac:(lia)) as [s Hf].
  destruct (half_size_total size s ltac:(lia) Hf) as [m Hm].
  rewrite (v_polys_eq _ _ _ Hf Hm). eauto.
Qed.

(** C10: for every positive canvas size, every vertex of every V-glyph
    polygon either variant produces is a pair of finite numbers in
    [0, size] x [0, size]; and the polygons are produced for every size the
    float conversion accepts. *)
Theorem C10_vertices_in_canvas (size : Z) :
  0 < size ->
  (forall left_arm right_arm,
      generate_icon.v_arms size = Ok (left_arm, right_arm) ->
      Forall (in_canvas size) (left_arm ++ right_arm))
  /\ (forall v_poly right_half,
        generate_favicon.v_polys size = Ok (v_poly, right_half) ->
        Forall (in_canvas size) (v_poly ++ right_half))
  /\ (size <= (2 ^ 53 - 1) * 2 ^ 971 ->
        (exists left_arm right_arm, generate_icon.v_arms size = Ok (left_arm, right_arm))
        /\ (exists v_poly right_half,
              generate_favicon.v_polys size = Ok (v_poly, right_half))).
Proof.
  intros Hpos. destruct ideals_inner as (I1 & I2 & I3 & I4).
  split; [|split].
  - intros la ra Hv. destruct (v_arms_near _ _ _ Hpos Hv) as [Hl Hr].
    apply Forall_app. split; eapply near_in_canvas; eauto.
  - intros vp rh Hv. destruct (v_polys_near _ _ _ Hpos Hv) as [Hl Hr].
    apply Forall_app. split; eapply near_in_canvas; eauto.
  - intros Hle. split; [apply v_arms_total; lia|apply v_polys_total; lia].
Qed.

Lemma C10_vertices_in_canvas_witness :
  0 < 64 /\
  exists left_arm right_arm,
    generate_icon.v_arms 64 = Ok (left_arm, right_arm)
    /\ Forall (in_canvas 64) (left_arm ++ right_arm).
Proof.
  assert (H : 0 < 64) by lia. split; [exact H|].
  destruct (C10_vertices_in_canvas 64 H) as (Hicon & _ & Htot).
  destruct Htot as [(la & ra & Hv) _]; [lia|].
  exists la, ra. split; [exact Hv|]. apply Hicon, Hv.
Defined.

Lemma near_scaled (S1 S2 : Z) (p1 p2 : point) (c : R * R) :
  0 < S1 -> 0 < S2 ->
  near_pt (IZR S1) p1 c -> near_pt (IZR S2) p2 c -> scaled_pt_approx S1 S2 p1 p2.
Proof.
  intros H1 H2 [[_ Hx1] [_ Hy1]] [[_ Hx2] [_ Hy2]].
  assert (HS1 : (1 <= IZR S1)%R) by (apply IZR_le; lia).
  assert (HS2 : (1 <= IZR S2)%R) by (apply IZR_le; lia).
  assert (Hk : (0 < IZR S2 / IZR S1)%R) by (apply Rdiv_lt_0_compat; lra).
  assert (Hscale : forall a c0 : R,
    (Rabs (a - c0 * IZR S1) <= IZR S1 / 281474976710656)%R ->
    (Rabs (a * (IZR S2 / IZR S1) - c0 * IZR S2) <= IZR S2 / 281474976710656)%R).
  { intros a c0 Ha.
    replace (a * (IZR S2 / IZR S1) - c0 * IZR S2)%R
      with ((a - c0 * IZR S1) * (IZR S2 / IZR S1))%R by (field; lra).
    rewrite Rabs_mult, (Rabs_pos_eq (IZR S2 / IZR S1)) by lra.
    replace (IZR S2 / 281474976710656)%R
      with (IZR S1 / 281474976710656 * (IZR S2 / IZR S1))%R by (field; lra).
    apply Rmult_le_compat_r; lra. }
  assert (Hsum : forall a1 a2 c0 : R,
    (Rabs (a1 - c0 * IZR S1) <= IZR S1 / 281474976710656)%R ->
    (Rabs (a2 - c0 * IZR S2) <= IZR S2 / 281474976710656)%R ->
    (Rabs (a2 - a1 * (IZR S2 / IZR S1)) <= IZR S2 / 140737488355328)%R).
  { intros a1 a2 c0 Ha1 Ha2. apply Hscale in Ha1.
    apply Rabs_le_bounds in Ha1, Ha2. apply Rabs_le. lra. }
  split; eapply Hsum; eauto.
Qed.

Lemma near_scaled_list (S1 S2 : Z) (ideal : list (R * R)) : forall l1 l2,
  0 < S1 -> 0 < S2 ->
  Forall2 (near_pt (IZR S1)) l1 ideal -> Forall2 (near_pt (IZR S2)) l2 ideal ->
  Forall2 (scaled_pt_approx S1 S2) l1 l2.
Proof.
  induction ideal as [|c ideal IH]; intros l1 l2 H1 H2 Hl1 Hl2;
    inversion Hl1; inversion Hl2; subst; constructor.
  - eapply near_scaled; eauto.
  - apply IH; assumption.
Qed.

(** C2 (as amended): for all positive sizes S1 < S2, each vertex coordinate
    computed for S2 is the corresponding coordinate for S1 multiplied by
    S2 / S1 up to binary64 rounding: the two differ by at most S2 / 2^47,
    in both variants. *)
Theorem C2_proportional_up_to_rounding (S1 S2 : Z) :
  0 < S1 < S2 ->
  (forall l1 r1 l2 r2,
      generate_icon.v_arms S1 = Ok (l1, r1) -> generate_icon.v_arms S2 = Ok (l2, r2) ->
      Forall2 (scaled_pt_approx S1 S2) (l1 ++ r1) (l2 ++ r2))
  /\ (forall v1 h1 v2 h2,
        generate_favicon.v_polys S1 = Ok (v1, h1) ->
        generate_favicon.v_polys S2 = Ok (v2, h2) ->
        Forall2 (scaled_pt_approx S1 S2) (v1 ++ h1) (v2 ++ h2)).
Proof.
  intros [H1 H2]. assert (H2' : 0 < S2) by lia. split.
  - intros l1 r1 l2 r2 Hv1 Hv2.
    destruct (v_arms_near _ _ _ H1 Hv1) as [Hl1 Hr1].
    destruct (v_arms_near _ _ _ H2' Hv2) as [Hl2 Hr2].
    apply Forall2_app; eapply near_scaled_list; eauto.
  - intros v1 h1 v2 h2 Hv1 Hv2.
    destruct (v_polys_near _ _ _ H1 Hv1) as [Hl1 Hr1].
    destruct (v_polys_near _ _ _ H2' Hv2) as [Hl2 Hr2].
    apply Forall2_app; eapply near_scaled_list; eauto.
Qed.

Lemma C2_proportional_up_to_rounding_witness :
  0 < 64 < 192 /\
  exists l1 r1 l2 r2,
    generate_icon.v_arms 64 = Ok (l1, r1) /\ generate_icon.v_arms 192 = Ok (l2, r2)
    /\ Forall2 (scaled_pt_approx 64 192) (l1 ++ r1) (l2 ++ r2).
Proof.
  assert (H : 0 < 64 < 192) by lia. split; [exact H|].
  destruct (v_arms_total 64 ltac:(lia)) as (l1 & r1 & Hv1).
  destruct (v_arms_total 192 ltac:(lia)) as (l2 & r2 & Hv2).
  exists l1, r1, l2, r2. split; [exact Hv1|]. split; [exact Hv2|].
  exact (proj1 (C2_proportional_up_to_rounding 64 192 H) l1 r1 l2 r2 Hv1 Hv2).
Defined.

(** C2 as stated fails: between the canvases of icon sizes 16 and 48
    (64 and 192 pixels) the inner apex is not scaled by exactly 3, neither
    as real numbers nor when the product is computed in binary64. *)
Lemma C2_counterexample :
  exists l1 r1 l2 r2,
    generate_icon.v_arms 64 = Ok (l1, r1) /\ generate_icon.v_arms 192 = Ok (l2, r2)
    /\ ~ Forall2 (scaled_pt 64 192) (l1 ++ r1) (l2 ++ r2)
    /\ ~ Forall2 (fun p1 p2 : point => p2.2 = (p1.2 * (192 / 64))%float)
           (l1 ++ r1) (l2 ++ r2).
Proof.
  eexists _, _, _, _.
  split; [vm_compute; reflexivity|]. split; [vm_compute; reflexivity|].
  split.
  - intros H. cbn [app] in H.
    apply List.Forall2_cons_iff in H as [_ H].
    apply List.Forall2_cons_iff in H as [_ H].
    apply List.Forall2_cons_iff in H as [[_ Hy] _].
    cbn [fst snd] in Hy. revert Hy.
    float_const 41.200000000000003%float Ha.
    float_const 123.59999999999999%float Hb.
    rewrite Ha, Hb. lra.
  - intros H. cbn [app] in H.
    apply List.Forall2_cons_iff in H as [_ H].
    apply List.Forall2_cons_iff in H as [_ H].
    apply List.Forall2_cons_iff in H as [Hy _].
    cbn [fst snd] in Hy. vm_compute in Hy.
    apply (f_equal Prim2SF) in Hy. vm_compute in Hy. discriminate.
Qed.

Lemma v_arms_inv size la ra :
  generate_icon.v_arms size = Ok (la, ra) ->
  exists s, float_of_int size = Ok s.
Proof.
  intros Hv. destruct (float_of_int size) as [s|e] eqn:Hs; [eauto|].
  rewrite (v_arms_raise _ _ Hs) in Hv. discriminate.
Qed.

Lemma half_of_size size s :
  0 < size < 2 ^ 53 -> float_of_int size = Ok s ->
  F2R (s * 0.5) = (IZR size / 2)%R /\ int_truediv size 2 = Ok (s * 0.5)%float.
Proof.
  intros Hs Hf.
  destruct (float_of_int_small size ltac:(lia)) as (s' & Hf' & Hfin & Hval).
  rewrite Hf in Hf'. injection Hf' as <-.
  assert (H1 : (1 <= IZR size)%R) by (apply IZR_le; lia).
  assert (H53 : (IZR size < 9007199254740992)%R) by (apply IZR_lt; lia).
  destruct (half_exact s Hfin) as [Hhf Hhv].
  { rewrite Hval, Rabs_pos_eq; lra. }
  rewrite Hval in Hhv. split; [exact Hhv|].
  destruct (int_truediv_total size 2 ltac:(lia)) as [f Hdiv].
  { apply small_le_max. rewrite Rabs_pos_eq by lra.
    apply Rle_trans with (IZR size); [lra|]. apply IZR_le. lia. }
  rewrite Hdiv. f_equal.
  destruct (int_truediv_inv _ _ _ Hdiv) as (_ & Hff & Hrnd).
  assert (Hfv : F2R f = (IZR size / 2)%R).
  { apply (rnd_ok_exact _ _ size (-1) Hrnd Hff).
    - rewrite bpow_m1. lra.
    - lia.
    - change (-1 + 53) with 52. rewrite (bpow_IZR 52) by lia.
      change (2 ^ 52) with 4503599627370496. rewrite Rabs_pos_eq; lra. }
  apply Prim2SF_inj. apply SF2R_inj.
  - apply Prim2SF_finite_valid.
  - apply Prim2SF_finite_valid.
  - exact Hff.
  - exact Hhf.
  - change (F2R f = F2R (s * 0.5)). rewrite Hfv, Hhv. reflexivity.
  - change (F2R f <> 0%R). rewrite Hfv. lra.
Qed.

(** C1: in the icon variant's draw_v the right arm is the pointwise mirror
    of the left arm through the vertical centre line: with centerX the
    computed centre (the float size * 0.5, which is size / 2), the right arm
    is the list of the points (2 * centerX - x, y) for (x, y) running through
    the four vertices of the left arm; so it contains the reflection of
    every left-arm vertex. *)
Theorem C1_right_arm_mirrors_left (size : Z) (left_arm right_arm : list point) :
  generate_icon.v_arms size = Ok (left_arm, right_arm) ->
  exists s,
    float_of_int size = Ok s
    /\ right_arm = mirror (s * 0.5) <$> left_arm
    /\ length left_arm = 4%nat
    /\ (forall x y, (x, y) ∈ left_arm -> ((2 * (s * 0.5) - x)%float, y) ∈ right_arm)
    /\ (0 < size < 2 ^ 53 ->
        F2R (s * 0.5) = (IZR size / 2)%R /\ int_truediv size 2 = Ok (s * 0.5)%float).
Proof.
  intros Hv. destruct (v_arms_inv _ _ _ Hv) as [s Hs]. exists s.
  rewrite (v_arms_eq _ _ Hs) in Hv. cbv zeta in Hv.
  injection Hv as <- <-.
  assert (Hmap : forall l : list point,
            forall x y, (x, y) ∈ l -> ((2 * (s * 0.5) - x)%float, y) ∈ mirror (s * 0.5) <$> l).
  { intros l x y Hin. apply (list_elem_of_fmap_2 (mirror (s * 0.5)) l (x, y)) in Hin.
    exact Hin. }
  split; [exact Hs|]. split; [reflexivity|]. split; [reflexivity|].
  split.
  - intros x y Hin. apply (Hmap _ x y Hin).
  - intros Hsz. apply half_of_size; assumption.
Qed.

Lemma C1_right_arm_mirrors_left_witness :
  exists left_arm right_arm,
    generate_icon.v_arms 64 = Ok (left_arm, right_arm)
    /\ right_arm = mirror 32 <$> left_arm.
Proof.
  destruct (v_arms_total 64 ltac:(lia)) as (la & ra & Hv).
  exists la, ra. split; [exact Hv|].
  destruct (C1_right_arm_mirrors_left 64 la ra Hv) as (s & Hs & Hra & _).
  vm_compute in Hs. injection Hs as <-. exact Hra.
Defined.

(* ------------------------------------------------------------------ *)
(** ** The rendering pipelines *)

Lemma vertical_gradient_inv size top bot img :
  generate_icon.vertical_gradient size top bot = Ok img ->
  exists px, img = Raster size size px.
Proof.
  unfold generate_icon.vertical_gradient.
  destruct (new_rgb size size) as [img0|]; res_step; [|discriminate].
  destruct (for_each _ _ _) as [px|e]; res_step; intros H; [|discriminate].
  injection H as <-. eauto.
Qed.

Lemma rounded_rect_mask_inv size frac mask :
  generate_icon.rounded_rect_mask size frac = Ok mask ->
  exists r, mask = Rounded_rectangle (Image_new L size size (Ink1 0))
                     0 0 (size - 1) (size - 1) r (Some (Ink1 255)) None 1.
Proof.
  unfold generate_icon.rounded_rect_mask, image_new.
  destruct (check_size size size) as [[]|]; res_step; [|discriminate].
  destruct (int_mul_float size frac) as [x|e]; res_step; [|discriminate].
  destruct (int_of_float x) as [n|e]; res_step; [|discriminate].
  unfold rounded_rectangle. destruct (_ || _); [discriminate|].
  intros H. injection H as <-. eauto.
Qed.

Lemma make_icon_inv size icon :
  generate_icon.make_icon size = Ok icon ->
  let S := size * 4 in
  exists px r left_arm right_arm,
    generate_icon.vertical_gradient S generate_icon.INDIGO_TOP generate_icon.INDIGO_BOTTOM
      = Ok (Raster S S px)
    /\ generate_icon.rounded_rect_mask S 0.22
       = Ok (Rounded_rectangle (Image_new L S S (Ink1 0)) 0 0 (S - 1) (S - 1) r
               (Some (Ink1 255)) None 1)
    /\ generate_icon.v_arms S = Ok (left_arm, right_arm)
    /\ icon =
       Resize
         (Alpha_composite
            (Paste (Image_new RGBA S S (Ink4 0 0 0 0)) (Raster S S px)
               (Rounded_rectangle (Image_new L S S (Ink1 0)) 0 0 (S - 1) (S - 1) r
                  (Some (Ink1 255)) None 1))
            (Polygon (Polygon (Image_new RGBA S S (Ink4 0 0 0 0))
                        left_arm generate_icon.WHITE)
               right_arm generate_icon.WHITE))
         size size LANCZOS.
Proof.
  intros H S. unfold generate_icon.make_icon, generate_icon.draw_v, image_new in H.
  change (size * generate_icon.SCALE) with S in H.
  destruct (generate_icon.vertical_gradient S _ _) as [bg|e] eqn:Hbg;
    cbn [mbind res_bind] in H; [|discriminate].
  destruct (vertical_gradient_inv _ _ _ _ Hbg) as [px ->].
  destruct (check_size S S) as [[]|]; cbn [mbind res_bind] in H; [|discriminate].
  destruct (generate_icon.rounded_rect_mask S _) as [mask|e] eqn:Hmask;
    cbn [mbind res_bind] in H; [|discriminate].
  destruct (rounded_rect_mask_inv _ _ _ Hmask) as [r ->].
  destruct (generate_icon.v_arms S) as [[la ra]|e] eqn:Hv;
    cbn [mbind res_bind] in H; [|discriminate].
  injection H as <-. exists px, r, la, ra. auto.
Qed.

Lemma rounded_rect_mask_total size :
  1 <= size < 2 ^ 31 ->
  exists mask, generate_icon.rounded_rect_mask size 0.22 = Ok mask.
Proof.
  intros Hs. destruct (float_of_int_total size ltac:(lia)) as [s Hf].
  destruct (float_of_pos_size size s ltac:(lia) Hf) as (Hsf & Hsb & HS1 & HSmax).
  float_const 0.22%float H022.
  assert (Hx : finite (s * 0.22) /\
    ((21 / 100) * IZR size <= F2R (s * 0.22) <= (23 / 100) * IZR size)%R).
  { eapply (encl_step _ _ _ (215 / 1000)%R (225 / 1000)%R);
      [apply mul_rnd; assumption | eassumption | eassumption | ..];
      rewrite ?H022; lra. }
  destruct Hx as [Hxf _].
  destruct (int_of_float_total _ Hxf) as [n Hn].
  unfold generate_icon.rounded_rect_mask, int_mul_float.
  rewrite image_new_ok by lia. res_step. rewrite Hf. res_step.
  rewrite Hn. res_step. rewrite rounded_rectangle_ok by lia. eauto.
Qed.

Lemma make_icon_total size :
  1 <= size -> size * 4 < 2 ^ 31 ->
  exists icon, generate_icon.make_icon size = Ok icon.
Proof.
  intros H1 Hmax. destruct INDIGO_color8 as [Ht Hb].
  destruct (vertical_gradient_total (size * 4) _ _ ltac:(lia) Ht Hb) as [px Hpx].
  destruct (rounded_rect_mask_total (size * 4) ltac:(lia)) as (mask & Hmask).
  destruct (v_arms_total (size * 4) ltac:(lia)) as (la & ra & Hv).
  unfold generate_icon.make_icon, generate_icon.draw_v.
  change (size * generate_icon.SCALE) with (size * 4).
  rewrite Hpx. res_step. rewrite !image_new_ok by lia. res_step.
  rewrite Hmask. res_step. rewrite Hv. res_step. eauto.
Qed.

Lemma range_4 : range 4 = [0; 1; 2; 3].
Proof. reflexivity. Qed.

Lemma ring_step_inv size radius img i img' :
  generate_favicon.ring_step size radius img i = Ok img' ->
  img' = Alpha_composite img (ring_overlay size radius i).
Proof.
  unfold generate_favicon.ring_step, image_new, rounded_rectangle.
  destruct (check_size size size) as [[]|]; res_step; [|discriminate].
  destruct (_ || _); res_step; [discriminate|].
  intros H. injection H as <-.
  unfold ring_overlay, generate_favicon.with_alpha, generate_favicon.highlight.
  cbn [fst snd]. rewrite (Z.mul_comm i 15). reflexivity.
Qed.

Lemma ring_step_ok size radius img i :
  0 <= size < 2 ^ 31 -> i <= size - 1 - i ->
  generate_favicon.ring_step size radius img i
  = Ok (Alpha_composite img (ring_overlay size radius i)).
Proof.
  intros Hs Hi. unfold generate_favicon.ring_step.
  rewrite image_new_ok by lia. res_step. rewrite rounded_rectangle_ok by lia. res_step.
  unfold ring_overlay, generate_favicon.with_alpha, generate_favicon.highlight.
  cbn [fst snd]. rewrite (Z.mul_comm i 15). reflexivity.
Qed.

Lemma ring_step_bad size radius img i :
  0 <= size < 2 ^ 31 -> size - 1 - i < i ->
  generate_favicon.ring_step size radius img i = Raise ValueError.
Proof.
  intros Hs Hi. unfold generate_favicon.ring_step.
  rewrite image_new_ok by lia. res_step. rewrite rounded_rectangle_bad by lia.
  reflexivity.
Qed.

Lemma ring_overlay_shape size radius i :
  im_size (ring_overlay size radius i) = (size, size)
  /\ canvases (ring_overlay size radius i) = [(size, size)]
  /\ resizes (ring_overlay size radius i) = [].
Proof. auto. Qed.

(** The image [make_vaulty_favicon] builds from the two vertex lists. *)
Lemma make_vaulty_favicon_inv size img :
  generate_favicon.make_vaulty_favicon size = Ok img ->
  exists v_poly right_half,
    generate_favicon.v_polys size = Ok (v_poly, right_half)
    /\ img =
       let radius := size / 5 in
       let bg := Rounded_rectangle (Image_new RGBA size size (Ink4 0 0 0 0))
                   0 0 (size - 1) (size - 1) radius (Some (Ink3 15 23 42)) None 1 in
       let rings :=
         Alpha_composite
           (Alpha_composite
              (Alpha_composite
                 (Alpha_composite bg (ring_overlay size radius 0))
                 (ring_overlay size radius 1))
              (ring_overlay size radius 2))
           (ring_overlay size radius 3) in
       Alpha_composite (Polygon rings v_poly (Ink3 99 102 241))
         (Polygon (Image_new RGBA size size (Ink4 0 0 0 0)) right_half
            (Ink4 139 92 246 200)).
Proof.
  unfold generate_favicon.make_vaulty_favicon, image_new.
  destruct (check_size size size) as [[]|]; res_step; [|discriminate].
  unfold rounded_rectangle at 1. destruct (_ || _); res_step; [discriminate|].
  rewrite range_4. cbn [for_each].
  destruct (generate_favicon.ring_step size (size / 5) _ 0) as [i0|] eqn:H0;
    res_step; [|discriminate].
  apply ring_step_inv in H0. subst i0.
  destruct (generate_favicon.ring_step size (size / 5) _ 1) as [i1|] eqn:H1;
    res_step; [|discriminate].
  apply ring_step_inv in H1. subst i1.
  destruct (generate_favicon.ring_step size (size / 5) _ 2) as [i2|] eqn:H2;
    res_step; [|discriminate].
  apply ring_step_inv in H2. subst i2.
  destruct (generate_favicon.ring_step size (size / 5) _ 3) as [i3|] eqn:H3;
    res_step; [|discriminate].
  apply ring_step_inv in H3. subst i3.
  destruct (generate_favicon.v_polys size) as [[v h]|]; res_step; [|discriminate].
  intros H. injection H as <-. exists v, h. split; reflexivity.
Qed.

Lemma make_vaulty_favicon_total size :
  7 <= size < 2 ^ 31 ->
  exists img, generate_favicon.make_vaulty_favicon size = Ok img.
Proof.
  intros Hs. destruct (v_polys_total size ltac:(lia)) as (v & h & Hv).
  unfold generate_favicon.make_vaulty_favicon.
  rewrite !image_new_ok by lia. res_step. rewrite rounded_rectangle_ok by lia. res_step.
  rewrite range_4. cbn [for_each].
  rewrite ring_step_ok by lia. res_step. rewrite ring_step_ok by lia. res_step.
  rewrite ring_step_ok by lia. res_step. rewrite ring_step_ok by lia. res_step.
  rewrite Hv. res_step. eauto.
Qed.

Lemma make_vaulty_favicon_small size :
  1 <= size < 7 -> generate_favicon.make_vaulty_favicon size = Raise ValueError.
Proof.
  intros Hs.
  assert (Hc : size = 1 \/ size = 2 \/ size = 3 \/ size = 4 \/ size = 5 \/ size = 6) by lia.
  destruct Hc as [->|[->|[->|[->|[->| ->]]]]]; reflexivity.
Qed.

(** C4: for every icon size from 1 to 1024, make_icon builds the
    gradient background, the rounded mask and the glyph on canvases of
    size * 4 pixels: it pastes the gradient through the mask onto a
    transparent canvas, composites the two white glyph polygons drawn on a
    second transparent canvas over it, and resamples the result once, with
    LANCZOS, to size x size, the size of the image it returns.  For every
    size from 7 to 4096, make_vaulty_favicon draws background, rings and
    glyph on canvases of the requested size itself and resamples nothing. *)
Theorem C4_supersample_then_downsample (size : Z) :
  let S := size * 4 in
  (1 <= size <= 1024 ->
     exists px r left_arm right_arm,
       generate_icon.vertical_gradient S generate_icon.INDIGO_TOP generate_icon.INDIGO_BOTTOM
         = Ok (Raster S S px)
       /\ generate_icon.rounded_rect_mask S 0.22
          = Ok (Rounded_rectangle (Image_new L S S (Ink1 0)) 0 0 (S - 1) (S - 1) r
                  (Some (Ink1 255)) None 1)
       /\ generate_icon.v_arms S = Ok (left_arm, right_arm)
       /\ generate_icon.make_icon size =
          Ok (Resize
                (Alpha_composite
                   (Paste (Image_new RGBA S S (Ink4 0 0 0 0)) (Raster S S px)
                      (Rounded_rectangle (Image_new L S S (Ink1 0))
                         0 0 (S - 1) (S - 1) r (Some (Ink1 255)) None 1))
                   (Polygon (Polygon (Image_new RGBA S S (Ink4 0 0 0 0))
                               left_arm (Ink3 255 255 255))
                      right_arm (Ink3 255 255 255)))
                size size LANCZOS))
  /\ (forall icon, generate_icon.make_icon size = Ok icon ->
        exists base,
          icon = Resize base size size LANCZOS
          /\ im_size icon = (size, size)
          /\ im_size base = (S, S)
          /\ Forall (fun c => c = (S, S)) (canvases icon)
          /\ resizes base = []
          /\ resizes icon = [(size, size, LANCZOS)])
  /\ (7 <= size <= 4096 ->
        exists v_poly right_half,
          generate_favicon.v_polys size = Ok (v_poly, right_half)
          /\ generate_favicon.make_vaulty_favicon size =
             Ok (let radius := size / 5 in
                 let bg := Rounded_rectangle (Image_new RGBA size size (Ink4 0 0 0 0))
                             0 0 (size - 1) (size - 1) radius (Some (Ink3 15 23 42))
                             None 1 in
                 let rings :=
                   Alpha_composite
                     (Alpha_composite
                        (Alpha_composite
                           (Alpha_composite bg (ring_overlay size radius 0))
                           (ring_overlay size radius 1))
                        (ring_overlay size radius 2))
                     (ring_overlay size radius 3) in
                 Alpha_composite (Polygon rings v_poly (Ink3 99 102 241))
                   (Polygon (Image_new RGBA size size (Ink4 0 0 0 0)) right_half
                      (Ink4 139 92 246 200))))
  /\ (forall img, generate_favicon.make_vaulty_favicon size = Ok img ->
        im_size img = (size, size)
        /\ Forall (fun c => c = (size, size)) (canvases img)
        /\ resizes img = []).
Proof.
  intros S. split; [|split; [|split]].
  - intros Hs. destruct (make_icon_total size ltac:(lia) ltac:(lia)) as [icon Hicon].
    destruct (make_icon_inv _ _ Hicon) as (px & r & la & ra & Hbg & Hmask & Hv & ->).
    exists px, r, la, ra. auto.
  - intros icon H. destruct (make_icon_inv _ _ H) as (px & r & la & ra & _ & _ & _ & ->).
    eexists. split; [reflexivity|]. cbn [im_size canvases resizes app].
    repeat split; try reflexivity.
    repeat (apply List.Forall_cons; [reflexivity|]). apply List.Forall_nil.
  - intros Hs. destruct (make_vaulty_favicon_total size ltac:(lia)) as [img Himg].
    destruct (make_vaulty_favicon_inv _ _ Himg) as (v & h & Hv & ->).
    exists v, h. auto.
  - intros img H. destruct (make_vaulty_favicon_inv _ _ H) as (v & h & _ & ->).
    cbv zeta. cbn [im_size canvases resizes app ring_overlay].
    repeat split; try reflexivity.
    repeat (apply List.Forall_cons; [reflexivity|]). apply List.Forall_nil.
Qed.

Lemma C4_supersample_then_downsample_witness :
  exists icon base,
    generate_icon.make_icon 16 = Ok icon
    /\ icon = Resize base 16 16 LANCZOS
    /\ im_size base = (64, 64)
    /\ length (vertices icon) = 8%nat.
Proof.
  destruct (C4_supersample_then_downsample 16) as (Hicon & _).
  destruct (Hicon ltac:(lia)) as (px & r & la & ra & _ & _ & Hv & Hi).
  eexists _, _. split; [exact Hi|]. split; [reflexivity|]. split; [reflexivity|].
  vm_compute in Hv. injection Hv as <- <-. reflexivity.
Defined.

(** C8: the highlight loop of make_vaulty_favicon runs over i = 0, 1, 2,
    3; whenever pass i returns, it has alpha-composited onto the image so
    far a fresh transparent overlay of the canvas size carrying a
    rounded-rectangle outline of width 1 from (i, i) to (size-1-i,
    size-1-i) in the highlight colour with alpha max(0, 60 - 15 i), that is
    60, 45, 30, 15; for sizes from 7 to 4096 all four passes return and the
    image returned is the background with these four overlays composited in
    this order, then the two glyph fills; for sizes from 1 to 6 a ring's box
    has its corners out of order and the function raises ValueError. *)
Theorem C8_highlight_ring (size : Z) :
  range 4 = [0; 1; 2; 3]
  /\ (forall radius img i img',
        generate_favicon.ring_step size radius img i = Ok img' ->
        img' = Alpha_composite img
                 (Rounded_rectangle (Image_new RGBA size size (Ink4 0 0 0 0))
                    i i (size - 1 - i) (size - 1 - i) radius
                    None (Some (Ink4 139 92 246 (Z.max 0 (60 - 15 * i)))) 1))
  /\ (fun i => Z.max 0 (60 - 15 * i)) <$> range 4 = [60; 45; 30; 15]
  /\ (7 <= size <= 4096 ->
      (forall radius img i, 0 <= i <= 3 ->
         generate_favicon.ring_step size radius img i
         = Ok (Alpha_composite img (ring_overlay size radius i)))
      /\ exists v_poly right_half,
           generate_favicon.v_polys size = Ok (v_poly, right_half)
           /\ generate_favicon.make_vaulty_favicon size =
              Ok (let radius := size / 5 in
                  let bg := Rounded_rectangle (Image_new RGBA size size (Ink4 0 0 0 0))
                              0 0 (size - 1) (size - 1) radius (Some (Ink3 15 23 42))
                              None 1 in
                  let rings :=
                    Alpha_composite
                      (Alpha_composite
                         (Alpha_composite
                            (Alpha_composite bg (ring_overlay size radius 0))
                            (ring_overlay size radius 1))
                         (ring_overlay size radius 2))
                      (ring_overlay size radius 3) in
                  Alpha_composite (Polygon rings v_poly (Ink3 99 102 241))
                    (Polygon (Image_new RGBA size size (Ink4 0 0 0 0)) right_half
                       (Ink4 139 92 246 200))))
  /\ (1 <= size < 7 -> generate_favicon.make_vaulty_favicon size = Raise ValueError).
Proof.
  split; [reflexivity|]. split; [apply ring_step_inv|]. split; [reflexivity|].
  split; [|apply make_vaulty_favicon_small].
  intros Hs. split.
  - intros radius img i Hi. apply ring_step_ok; lia.
  - destruct (make_vaulty_favicon_total size ltac:(lia)) as [img Himg].
    destruct (make_vaulty_favicon_inv _ _ Himg) as (v & h & Hv & ->).
    exists v, h. auto.
Qed.

Lemma C8_highlight_ring_witness :
  exists img,
    generate_favicon.make_vaulty_favicon 64 = Ok img
    /\ boxes img = [(0, 0, 63, 63); (0, 0, 63, 63); (1, 1, 62, 62); (2, 2, 61, 61);
                    (3, 3, 60, 60)].
Proof.
  destruct (C8_highlight_ring 64) as (_ & _ & _ & Hok & _).
  destruct (Hok ltac:(lia)) as (_ & v & h & _ & Hi).
  eexists. split; [exact Hi|]. reflexivity.
Defined.

(* ------------------------------------------------------------------ *)
(** ** The output stages *)

Lemma io_bind_eq {A B} (m : io A) (k : A -> io B) w :
  io_bind m k w =
    match m w with
    | (Ok a, w') => k a w'
    | (Raise e, w') => (Raise e, w')
    end.
Proof. reflexivity. Qed.

Lemma writable_inv w p :
  writable w p = true -> dir_ready w (dirname p) = true /\ write w p = Accepted.
Proof.
  unfold writable. intros H. apply andb_prop in H as [Hd Ha]. split; [exact Hd|].
  destruct (write w p); [reflexivity|discriminate..].
Qed.

Lemma not_writable_inv w p :
  writable w p = false -> dir_ready w (dirname p) = true -> accepted (write w p) = false.
Proof. unfold writable. intros H Hd. rewrite Hd in H. exact H. Qed.

Lemma write_icon_ok sz icon w :
  generate_icon.make_icon sz = Ok icon ->
  writable w (generate_icon.icon_path sz) = true ->
  generate_icon.write_icon sz w =
    (Ok tt,
     World (<[generate_icon.icon_path sz := File "PNG" icon None]> (fs w))
       (log w ++ [Render sz; Save (generate_icon.icon_path sz) "PNG";
                  Stdout ("  ✓  " +:+ generate_icon.icon_path sz +:+ "  (" +:+ str sz
                         +:+ "×" +:+ str sz +:+ ")")])
       (dir_ok w) (write w)).
Proof.
  intros Hi Hw. apply writable_inv in Hw as [Hd Ha].
  unfold generate_icon.write_icon.
  rewrite io_bind_eq. unfold render. rewrite Hi.
  rewrite io_bind_eq. unfold save.
  change (dir_ready (World _ _ (dir_ok w) _) ?d) with (dir_ready w d).
  cbn [fs write log dir_ok]. rewrite Hd, Ha.
  unfold print, emit. cbn [fs write log dir_ok fmap option_fmap option_map].
  rewrite <- !app_assoc. reflexivity.
Qed.

Lemma write_icon_fail sz icon w :
  generate_icon.make_icon sz = Ok icon ->
  dir_ready w (dirname (generate_icon.icon_path sz)) = true ->
  accepted (write w (generate_icon.icon_path sz)) = false ->
  generate_icon.write_icon sz w =
    failed_write w (fs w) (log w ++ [Render sz]) (generate_icon.icon_path sz).
Proof.
  intros Hi Hd Ha. unfold generate_icon.write_icon, failed_write.
  rewrite io_bind_eq. unfold render. rewrite Hi.
  rewrite io_bind_eq. unfold save.
  change (dir_ready (World _ _ (dir_ok w) _) ?d) with (dir_ready w d).
  cbn [fs write log dir_ok]. rewrite Hd.
  destruct (write w (generate_icon.icon_path sz)); [discriminate|reflexivity..].
Qed.

Lemma icons_total :
  exists i16 i32 i48 i128,
    generate_icon.make_icon 16 = Ok i16 /\ generate_icon.make_icon 32 = Ok i32
    /\ generate_icon.make_icon 48 = Ok i48 /\ generate_icon.make_icon 128 = Ok i128.
Proof.
  destruct (make_icon_total 16) as [i16 H16]; [lia|lia|].
  destruct (make_icon_total 32) as [i32 H32]; [lia|lia|].
  destruct (make_icon_total 48) as [i48 H48]; [lia|lia|].
  destruct (make_icon_total 128) as [i128 H128]; [lia|lia|].
  exists i16, i32, i48, i128. auto.
Qed.

Lemma renders_app l1 l2 : renders (l1 ++ l2) = renders l1 ++ renders l2.
Proof. apply bind_app. Qed.

Lemma saves_app l1 l2 : saves (l1 ++ l2) = saves l1 ++ saves l2.
Proof. apply bind_app. Qed.

Lemma favicon_64_total : exists img, generate_favicon.make_vaulty_favicon 64 = Ok img.
Proof. apply make_vaulty_favicon_total. lia. Qed.


Lemma makedirs_ok path w :
  path <> "" -> dir_ok w path = true ->
  makedirs path w = (Ok tt, World (fs w) (log w ++ [Makedirs path]) (dir_ok w) (write w)).
Proof.
  intros Hne Hd. unfold makedirs. destruct path; [congruence|]. rewrite Hd. reflexivity.
Qed.

Lemma makedirs_refused path w :
  path <> "" -> dir_ok w path = false -> makedirs path w = (Raise OSError, w).
Proof.
  intros Hne Hd. unfold makedirs. destruct path; [congruence|]. rewrite Hd. reflexivity.
Qed.

Lemma dir_ready_nonempty w d : d <> "" -> dir_ready w d = dir_ok w d.
Proof. intros Hne. destruct d; [congruence|reflexivity]. Qed.


Lemma save_favicon_fail path w img :
  generate_favicon.make_vaulty_favicon 64 = Ok img ->
  dirname path <> "" -> dir_ok w (dirname path) = true -> accepted (write w path) = false ->
  generate_favicon.save_favicon path w =
    failed_write w (fs w) (log w ++ [Makedirs (dirname path); Render 64]) path.
Proof.
  intros Hi Hne Hd Ha. unfold generate_favicon.save_favicon, failed_write.
  rewrite io_bind_eq, makedirs_ok by assumption.
  rewrite io_bind_eq. unfold render. cbn [List.last fs write log dir_ok]. rewrite Hi.
  rewrite io_bind_eq. unfold save.
  change (dir_ready (World _ _ (dir_ok w) _) ?d) with (dir_ready w d).
  cbn [fs write log dir_ok]. rewrite dir_ready_nonempty, Hd by assumption.
  rewrite <- !app_assoc.
  destruct (write w path); [discriminate|reflexivity..].
Qed.

Lemma save_favicon_no_dir path w :
  dirname path = "" -> generate_favicon.save_favicon path w = (Raise FileNotFoundError, w).
Proof.
  intros He. unfold generate_favicon.save_favicon. rewrite io_bind_eq, He. reflexivity.
Qed.

Lemma save_favicon_dir_refused path w :
  dirname path <> "" -> dir_ok w (dirname path) = false ->
  generate_favicon.save_favicon path w = (Raise OSError, w).
Proof.
  intros Hne Hd. unfold generate_favicon.save_favicon.
  rewrite io_bind_eq, makedirs_refused by assumption. reflexivity.
Qed.



Lemma eqb_false_ne (a b : string) : String.eqb a b = false -> a <> b.
Proof. intros H ->. rewrite String.eqb_refl in H. discriminate. Qed.

Lemma icon_paths :
  generate_icon.icon_path <$> generate_icon.SIZES
  = ["extension/icons/icon-16.png"; "extension/icons/icon-32.png";
     "extension/icons/icon-48.png"; "extension/icons/icon-128.png"].
Proof. reflexivity. Qed.

Lemma icon_paths_NoDup : NoDup (generate_icon.icon_path <$> generate_icon.SIZES).
Proof.
  rewrite icon_paths. apply (bool_decide_unpack _). vm_compute. reflexivity.
Qed.

Lemma icon_dirs :
  Forall (fun sz => dirname (generate_icon.icon_path sz) = generate_icon.OUT_DIR)
    generate_icon.SIZES.
Proof. repeat (apply List.Forall_cons; [reflexivity|]). apply List.Forall_nil. Qed.

Lemma out_dir_ready w : dir_ready w generate_icon.OUT_DIR = dir_ok w generate_icon.OUT_DIR.
Proof. reflexivity. Qed.

(** The icon script up to its loop. *)
Lemma main_start w :
  generate_icon.main w =
    if dir_ok w generate_icon.OUT_DIR then
      match io_for generate_icon.SIZES generate_icon.write_icon
              (World (fs w) (log w ++ [Makedirs generate_icon.OUT_DIR]) (dir_ok w) (write w))
      with
      | (Ok _, w') =>
          print (generate_icon.newline +:+ "Done. All icons written to "
                 +:+ generate_icon.OUT_DIR) w'
      | (Raise e, w') => (Raise e, w')
      end
    else (Raise OSError, w).
Proof.
  unfold generate_icon.main. rewrite io_bind_eq.
  change (makedirs generate_icon.OUT_DIR w)
    with (if dir_ok w generate_icon.OUT_DIR
          then emit (Makedirs generate_icon.OUT_DIR) w else (Raise OSError, w)).
  destruct (dir_ok w generate_icon.OUT_DIR); [|reflexivity].
  unfold emit. rewrite io_bind_eq. reflexivity.
Qed.

Ltac icon_written Hi Hw :=
  rewrite io_bind_eq; erewrite write_icon_ok; [|exact Hi|exact Hw];
  cbn [fs write log dir_ok].

Ltac icon_refused Hi Hd Ha :=
  rewrite io_bind_eq; erewrite write_icon_fail; [|exact Hi|exact Hd|exact Ha];
  unfold failed_write; cbn [fs write log dir_ok].

Ltac start_main Hdir :=
  rewrite main_start, Hdir; unfold generate_icon.SIZES; cbn [io_for].

Lemma writable_out_dir w sz :
  dirname (generate_icon.icon_path sz) = generate_icon.OUT_DIR ->
  writable w (generate_icon.icon_path sz) = true ->
  dir_ok w generate_icon.OUT_DIR = true.
Proof.
  intros Hdn Hw. apply writable_inv in Hw as [Hd _]. rewrite Hdn in Hd. exact Hd.
Qed.

(** C7: when the four writes succeed, the icon script renders make_icon
    once for each size of [16, 32, 48, 128], in this order, and after each
    rendering writes that image as PNG to extension/icons/icon-{size}.png;
    these are four different paths, and no other file is written. *)
Theorem C7_icon_per_size_files (w : world) :
  Forall (fun sz => writable w (generate_icon.icon_path sz) = true) generate_icon.SIZES ->
  exists i16 i32 i48 i128 w',
    generate_icon.make_icon 16 = Ok i16 /\ generate_icon.make_icon 32 = Ok i32
    /\ generate_icon.make_icon 48 = Ok i48 /\ generate_icon.make_icon 128 = Ok i128
    /\ generate_icon.main w = (Ok tt, w')
    /\ fs w' = <["extension/icons/icon-128.png" := File "PNG" i128 None]>
                 (<["extension/icons/icon-48.png" := File "PNG" i48 None]>
                    (<["extension/icons/icon-32.png" := File "PNG" i32 None]>
                       (<["extension/icons/icon-16.png" := File "PNG" i16 None]> (fs w))))
    /\ fs w' !! "extension/icons/icon-16.png" = Some (File "PNG" i16 None)
    /\ fs w' !! "extension/icons/icon-32.png" = Some (File "PNG" i32 None)
    /\ fs w' !! "extension/icons/icon-48.png" = Some (File "PNG" i48 None)
    /\ fs w' !! "extension/icons/icon-128.png" = Some (File "PNG" i128 None)
    /\ (forall p, p ∉ generate_icon.icon_path <$> generate_icon.SIZES ->
          fs w' !! p = fs w !! p)
    /\ generate_icon.icon_path <$> generate_icon.SIZES
       = ["extension/icons/icon-16.png"; "extension/icons/icon-32.png";
          "extension/icons/icon-48.png"; "extension/icons/icon-128.png"]
    /\ NoDup (generate_icon.icon_path <$> generate_icon.SIZES)
    /\ renders (log w') = renders (log w) ++ [16; 32; 48; 128]
    /\ saves (log w') = saves (log w) ++ (generate_icon.icon_path <$> generate_icon.SIZES).
Proof.
  intros Hw. destruct icons_total as (i16 & i32 & i48 & i128 & H16 & H32 & H48 & H128).
  unfold generate_icon.SIZES in Hw.
  apply List.Forall_cons_iff in Hw as [Hw16 Hw].
  apply List.Forall_cons_iff in Hw as [Hw32 Hw].
  apply List.Forall_cons_iff in Hw as [Hw48 Hw].
  apply List.Forall_cons_iff in Hw as [Hw128 _].
  pose proof (writable_out_dir w 16 eq_refl Hw16) as Hdir.
  exists i16, i32, i48, i128. eexists.
  split; [exact H16|]. split; [exact H32|]. split; [exact H48|]. split; [exact H128|].
  split.
  { start_main Hdir.
    icon_written H16 Hw16. icon_written H32 Hw32.
    icon_written H48 Hw48. icon_written H128 Hw128.
    unfold io_ret, print, emit. cbn [fs write log dir_ok]. reflexivity. }
  cbn [fs log]. rewrite icon_paths.
  change (generate_icon.icon_path 16) with "extension/icons/icon-16.png".
  change (generate_icon.icon_path 32) with "extension/icons/icon-32.png".
  change (generate_icon.icon_path 48) with "extension/icons/icon-48.png".
  change (generate_icon.icon_path 128) with "extension/icons/icon-128.png".
  split; [reflexivity|].
  split; [repeat (rewrite lookup_insert_ne by (apply eqb_false_ne; reflexivity));
          apply lookup_insert_eq|].
  split; [repeat (rewrite lookup_insert_ne by (apply eqb_false_ne; reflexivity));
          apply lookup_insert_eq|].
  split; [repeat (rewrite lookup_insert_ne by (apply eqb_false_ne; reflexivity));
          apply lookup_insert_eq|].
  split; [apply lookup_insert_eq|].
  split.
  { intros p Hp. repeat (rewrite lookup_insert_ne by (intros <-; apply Hp; repeat constructor)).
    reflexivity. }
  split; [reflexivity|]. split; [rewrite <- icon_paths; apply icon_paths_NoDup|].
  rewrite !renders_app, !saves_app. cbn. rewrite !app_nil_r.
  rewrite <- !app_assoc. auto.
Qed.

Lemma C7_icon_per_size_files_witness :
  exists w',
    generate_icon.main calm = (Ok tt, w')
    /\ renders (log w') = [16; 32; 48; 128].
Proof.
  assert (Hw : Forall (fun sz => writable calm (generate_icon.icon_path sz) = true)
                 generate_icon.SIZES).
  { repeat (apply List.Forall_cons; [reflexivity|]). apply List.Forall_nil. }
  destruct (C7_icon_per_size_files _ Hw)
    as (i16 & i32 & i48 & i128 & w' & _ & _ & _ & _ & Hrun & Hrest).
  exists w'. split; [exact Hrun|].
  destruct Hrest as (_ & _ & _ & _ & _ & _ & _ & _ & Hr & _). exact Hr.
Defined.

Lemma sizes_splits (pre post : list Z) (sz : Z) :
  generate_icon.SIZES = pre ++ sz :: post ->
  (pre = [] /\ sz = 16 /\ post = [32; 48; 128])
  \/ (pre = [16] /\ sz = 32 /\ post = [48; 128])
  \/ (pre = [16; 32] /\ sz = 48 /\ post = [128])
  \/ (pre = [16; 32; 48] /\ sz = 128 /\ post = []).
Proof.
  unfold generate_icon.SIZES. intros H.
  destruct pre as [|a pre]; cbn [app] in H.
  { injection H as <- <-. auto. }
  destruct pre as [|b pre]; cbn [app] in H.
  { injection H as <- <- <-. auto. }
  destruct pre as [|c pre]; cbn [app] in H.
  { injection H as <- <- <- <-. auto 6. }
  destruct pre as [|d pre]; cbn [app] in H.
  { injection H as <- <- <- <- <-. auto 6. }
  destruct pre; cbn [app] in H; discriminate.
Qed.

Ltac path_lookup :=
  repeat (rewrite lookup_insert_ne by (apply eqb_false_ne; reflexivity));
  first [apply lookup_insert_eq | reflexivity].

Ltac log_facts :=
  cbn [fs log]; rewrite !renders_app, !saves_app; cbn; rewrite ?app_nil_r;
  rewrite <- ?app_assoc; auto.

(** What a failed write leaves at its own path and elsewhere. *)
Lemma failed_write_disk w f l p :
  let w' := (failed_write w f l p).2 in
  (fs w' !! p = f !! p \/ fs w' !! p = Some Partial)
  /\ (forall q, q <> p -> fs w' !! q = f !! q)
  /\ log w' = l.
Proof.
  unfold failed_write. cbn [snd fs log]. destruct (write w p).
  - split; [left; reflexivity|]. split; reflexivity.
  - split; [left; reflexivity|]. split; reflexivity.
  - split; [right; apply lookup_insert_eq|]. split; [|reflexivity].
    intros q Hq. apply lookup_insert_ne. congruence.
Qed.

Ltac other_path Hp :=
  repeat (rewrite lookup_insert_ne by (intros <-; apply Hp; repeat constructor));
  reflexivity.

(** C5 (as amended): a run is not all-or-nothing.  Once the output
    directory is there, the icon script aborts with the write error at the
    first size whose file cannot be written: the files of the sizes before
    it have been written and stay, the path of the failed write is as
    before or holds a partial file, nothing else on the disk changes, and no
    later size is rendered or written.  When the directory cannot be
    created, the script raises before it renders anything.  The favicon
    script writes one file only: when that write fails, its path is as
    before or holds a partial file and nothing else changes; when its
    directory is missing, nothing is rendered or written. *)
Theorem C5_abort_at_first_failed_write :
  (forall (w : world) (pre post : list Z) (sz : Z),
      generate_icon.SIZES = pre ++ sz :: post ->
      dir_ok w generate_icon.OUT_DIR = true ->
      Forall (fun s => writable w (generate_icon.icon_path s) = true) pre ->
      writable w (generate_icon.icon_path sz) = false ->
      exists w',
        generate_icon.main w = (Raise OSError, w')
        /\ Forall (fun s => exists icon,
                     generate_icon.make_icon s = Ok icon
                     /\ fs w' !! generate_icon.icon_path s = Some (File "PNG" icon None)) pre
        /\ (fs w' !! generate_icon.icon_path sz = fs w !! generate_icon.icon_path sz
            \/ fs w' !! generate_icon.icon_path sz = Some Partial)
        /\ (forall p, p ∉ generate_icon.icon_path <$> (pre ++ [sz]) ->
              fs w' !! p = fs w !! p)
        /\ renders (log w') = renders (log w) ++ pre ++ [sz]
        /\ saves (log w') = saves (log w) ++ (generate_icon.icon_path <$> pre))
  /\ (forall w : world,
        dir_ok w generate_icon.OUT_DIR = false ->
        generate_icon.main w = (Raise OSError, w))
  /\ (forall (w : world) (path : string),
        dirname path <> "" -> dir_ok w (dirname path) = true ->
        writable w path = false ->
        exists w',
          generate_favicon.save_favicon path w = (Raise OSError, w')
          /\ (fs w' !! path = fs w !! path \/ fs w' !! path = Some Partial)
          /\ (forall p, p <> path -> fs w' !! p = fs w !! p)
          /\ saves (log w') = saves (log w))
  /\ (forall (w : world) (path : string),
        dirname path = "" \/ dir_ok w (dirname path) = false ->
        exists e, generate_favicon.save_favicon path w = (Raise e, w)).
Proof.
  split; [|split; [|split]].
  - intros w pre post sz Hsplit Hdir Hpre Hsz.
    destruct icons_total as (i16 & i32 & i48 & i128 & H16 & H32 & H48 & H128).
    assert (Hrd : dir_ready w generate_icon.OUT_DIR = true) by exact Hdir.
    destruct (sizes_splits _ _ _ Hsplit)
      as [(-> & -> & ->)|[(-> & -> & ->)|[(-> & -> & ->)|(-> & -> & ->)]]].
    + pose proof (not_writable_inv _ _ Hsz Hrd) as Ha.
      eexists. split; [start_main Hdir; icon_refused H16 Hrd Ha; reflexivity|].
      split; [apply List.Forall_nil|].
      destruct (failed_write_disk w (fs w) (log w) (generate_icon.icon_path 16))
        as (Hat & Hother & _).
      unfold failed_write in Hat, Hother. cbn [snd fs] in Hat, Hother.
      split; [exact Hat|]. split.
      { intros p Hp. apply Hother. intros ->. apply Hp. repeat constructor. }
      log_facts.
    + apply List.Forall_cons_iff in Hpre as [Hw16 _].
      pose proof (not_writable_inv _ _ Hsz Hrd) as Ha.
      eexists. split;
        [start_main Hdir; icon_written H16 Hw16; icon_refused H32 Hrd Ha; reflexivity|].
      destruct (failed_write_disk w
                  (<[generate_icon.icon_path 16 := File "PNG" i16 None]> (fs w))
                  (log w) (generate_icon.icon_path 32)) as (Hat & Hother & _).
      unfold failed_write in Hat, Hother. cbn [snd fs] in Hat, Hother. cbn [fs].
      split.
      { apply List.Forall_cons; [|apply List.Forall_nil]. exists i16. split; [exact H16|].
        rewrite Hother by (apply eqb_false_ne; reflexivity). apply lookup_insert_eq. }
      split.
      { rewrite lookup_insert_ne in Hat by (apply eqb_false_ne; reflexivity). exact Hat. }
      split.
      { intros p Hp. rewrite Hother by (intros ->; apply Hp; repeat constructor).
        other_path Hp. }
      log_facts.
    + apply List.Forall_cons_iff in Hpre as [Hw16 Hpre].
      apply List.Forall_cons_iff in Hpre as [Hw32 _].
      pose proof (not_writable_inv _ _ Hsz Hrd) as Ha.
      eexists. split;
        [start_main Hdir; icon_written H16 Hw16; icon_written H32 Hw32;
         icon_refused H48 Hrd Ha; reflexivity|].
      destruct (failed_write_disk w
                  (<[generate_icon.icon_path 32 := File "PNG" i32 None]>
                     (<[generate_icon.icon_path 16 := File "PNG" i16 None]> (fs w)))
                  (log w) (generate_icon.icon_path 48)) as (Hat & Hother & _).
      unfold failed_write in Hat, Hother. cbn [snd fs] in Hat, Hother. cbn [fs].
      split.
      { apply List.Forall_cons; [|apply List.Forall_cons; [|apply List.Forall_nil]].
        - exists i16. split; [exact H16|].
          rewrite Hother by (apply eqb_false_ne; reflexivity). path_lookup.
        - exists i32. split; [exact H32|].
          rewrite Hother by (apply eqb_false_ne; reflexivity). path_lookup. }
      split.
      { rewrite !lookup_insert_ne in Hat by (apply eqb_false_ne; reflexivity). exact Hat. }
      split.
      { intros p Hp. rewrite Hother by (intros ->; apply Hp; repeat constructor).
        other_path Hp. }
      log_facts.
    + apply List.Forall_cons_iff in Hpre as [Hw16 Hpre].
      apply List.Forall_cons_iff in Hpre as [Hw32 Hpre].
      apply List.Forall_cons_iff in Hpre as [Hw48 _].
      pose proof (not_writable_inv _ _ Hsz Hrd) as Ha.
      eexists. split;
        [start_main Hdir; icon_written H16 Hw16; icon_written H32 Hw32;
         icon_written H48 Hw48; icon_refused H128 Hrd Ha; reflexivity|].
      destruct (failed_write_disk w
                  (<[generate_icon.icon_path 48 := File "PNG" i48 None]>
                     (<[generate_icon.icon_path 32 := File "PNG" i32 None]>
                        (<[generate_icon.icon_path 16 := File "PNG" i16 None]> (fs w))))
                  (log w) (generate_icon.icon_path 128)) as (Hat & Hother & _).
      unfold failed_write in Hat, Hother. cbn [snd fs] in Hat, Hother. cbn [fs].
      split.
      { apply List.Forall_cons;
          [|apply List.Forall_cons; [|apply List.Forall_cons; [|apply List.Forall_nil]]].
        - exists i16. split; [exact H16|].
          rewrite Hother by (apply eqb_false_ne; reflexivity). path_lookup.
        - exists i32. split; [exact H32|].
          rewrite Hother by (apply eqb_false_ne; reflexivity). path_lookup.
        - exists i48. split; [exact H48|].
          rewrite Hother by (apply eqb_false_ne; reflexivity). path_lookup. }
      split.
      { rewrite !lookup_insert_ne in Hat by (apply eqb_false_ne; reflexivity). exact Hat. }
      split.
      { intros p Hp. rewrite Hother by (intros ->; apply Hp; repeat constructor).
        other_path Hp. }
      log_facts.
  - intros w Hdir. rewrite main_start, Hdir. reflexivity.
  - intros w path Hne Hdir Hw. destruct favicon_64_total as [img Hi].
    assert (Ha : accepted (write w path) = false).
    { apply not_writable_inv; [exact Hw|]. rewrite dir_ready_nonempty; assumption. }
    rewrite (save_favicon_fail path w img Hi Hne Hdir Ha).
    destruct (failed_write_disk w (fs w) (log w ++ [Makedirs (dirname path); Render 64]) path)
      as (Hat & Hother & Hlog).
    unfold failed_write in *. cbn [snd fs log] in Hat, Hother, Hlog.
    eexists. split; [reflexivity|]. cbn [fs log].
    split; [exact Hat|]. split; [exact Hother|].
    rewrite saves_app. cbn. apply app_nil_r.
  - intros w path [He|Hd].
    + exists FileNotFoundError. apply save_favicon_no_dir, He.
    + destruct (decide (dirname path = "")) as [He|Hne].
      * exists FileNotFoundError. apply save_favicon_no_dir, He.
      * exists OSError. apply save_favicon_dir_refused; assumption.
Qed.

Lemma C5_abort_at_first_failed_write_witness :
  exists w',
    generate_icon.main (fails_at "extension/icons/icon-48.png") = (Raise OSError, w')
    /\ is_Some (fs w' !! "extension/icons/icon-16.png")
    /\ is_Some (fs w' !! "extension/icons/icon-32.png")
    /\ fs w' !! "extension/icons/icon-128.png" = None
    /\ renders (log w') = [16; 32; 48].
Proof.
  destruct (proj1 C5_abort_at_first_failed_write
              (fails_at "extension/icons/icon-48.png") [16; 32] [128] 48 eq_refl eq_refl)
    as (w' & Hrun & Hpre & _ & Hother & Hr & _).
  { repeat (apply List.Forall_cons; [reflexivity|]). apply List.Forall_nil. }
  { reflexivity. }
  exists w'. split; [exact Hrun|].
  apply List.Forall_cons_iff in Hpre as [(i16 & _ & H16) Hpre].
  apply List.Forall_cons_iff in Hpre as [(i32 & _ & H32) _].
  split; [exists (File "PNG" i16 None); exact H16|].
  split; [exists (File "PNG" i32 None); exact H32|].
  split; [|exact Hr].
  rewrite Hother; [reflexivity|].
  intros Hin. apply (bool_decide_pack _) in Hin. vm_compute in Hin. exact Hin.
Defined.

(** C5 as stated fails: when the write of icon-48.png is refused on an
    empty disk, the icon script aborts with the files for sizes 16 and 32
    already written. *)
Lemma C5_counterexample :
  exists i16 i32 w',
    generate_icon.make_icon 16 = Ok i16 /\ generate_icon.make_icon 32 = Ok i32
    /\ fs (fails_at "extension/icons/icon-48.png") = ∅
    /\ generate_icon.main (fails_at "extension/icons/icon-48.png") = (Raise OSError, w')
    /\ fs w' = <["extension/icons/icon-32.png" := File "PNG" i32 None]>
                 (<["extension/icons/icon-16.png" := File "PNG" i16 None]> ∅)
    /\ fs w' <> fs (fails_at "extension/icons/icon-48.png").
Proof.
  destruct icons_total as (i16 & i32 & i48 & i128 & H16 & H32 & H48 & H128).
  exists i16, i32. eexists.
  split; [exact H16|]. split; [exact H32|]. split; [reflexivity|].
  split.
  { rewrite main_start. cbn [dir_ok fs log write fails_at].
    unfold generate_icon.SIZES. cbn [io_for].
    icon_written H16 (eq_refl true). icon_written H32 (eq_refl true).
    icon_refused H48 (eq_refl true) (eq_refl false). reflexivity. }
  cbn [fs fails_at]. split; [reflexivity|].
  apply insert_non_empty.
Qed.

(* ================================================================== *)
(** * The gradient, pixel by pixel *)
(* ================================================================== *)

Lemma int_of_float_trunc x n : int_of_float x = Ok n -> is_trunc (F2R x) n.
Proof.
  unfold int_of_float, F2R, is_trunc.
  destruct (Prim2SF x) as [s|s| |s m e]; try discriminate.
  - intros H. injection H as <-. cbn [SF2R]. lra.
  - intros H. injection H as <-. rewrite SF2R_finite.
    destruct (Z.leb_spec 0 e) as [He|He].
    + rewrite bpow_IZR by lia. rewrite <- mult_IZR.
      replace (cond_Zopp s (Z.pos m) * 2 ^ e) with (cond_Zopp s (Z.pos m * 2 ^ e))
        by (destruct s; cbn [cond_Zopp]; lia).
      lra.
    + assert (Hk : exists k, 0 < k /\ e = - k) by (exists (- e); lia).
      destruct Hk as (k & Hk & ->). rewrite Z.opp_involutive.
      rewrite (bpow_neg_IZR k) by lia.
      assert (Hp : 0 < 2 ^ k) by (apply Z.pow_pos_nonneg; lia).
      pose proof (Z.div_mod (Z.pos m) (2 ^ k) ltac:(lia)) as Hdm.
      pose proof (Z.mod_pos_bound (Z.pos m) (2 ^ k) Hp) as Hr.
      set (P := 2 ^ k) in *. set (q := Z.pos m / P) in *.
      set (r := Z.pos m mod P) in *.
      assert (HP : (0 < IZR P)%R) by (apply IZR_lt; lia).
      assert (Hm : IZR (Z.pos m) = (IZR P * IZR q + IZR r)%R).
      { rewrite <- mult_IZR, <- plus_IZR. f_equal. exact Hdm. }
      assert (Hr0 : (0 <= IZR r)%R) by (apply IZR_le; lia).
      assert (Hr1 : (IZR r < IZR P)%R) by (apply IZR_lt; lia).
      assert (Hq0 : (0 <= IZR q)%R).
      { apply IZR_le. apply Z.div_pos; lia. }
      assert (Hu : (IZR q <= IZR (Z.pos m) * / IZR P < IZR q + 1)%R).
      { rewrite Hm. split.
        - apply Rmult_le_reg_r with (IZR P); [lra|].
          rewrite Rmult_assoc, Rinv_l by lra. nra.
        - apply Rmult_lt_reg_r with (IZR P); [lra|].
          rewrite Rmult_assoc, Rinv_l by lra. nra. }
      destruct s; cbn [cond_Zopp].
      * rewrite ?opp_IZR. split; intros; lra.
      * split; intros; lra.
Qed.

Lemma Z_le_of_IZR_lt n1 n2 : (IZR n1 < IZR n2 + 1)%R -> n1 <= n2.
Proof.
  intros H. change 1%R with (IZR 1) in H. rewrite <- plus_IZR in H.
  apply lt_IZR in H. lia.
Qed.

Lemma is_trunc_mono x1 x2 n1 n2 :
  is_trunc x1 n1 -> is_trunc x2 n2 -> (x1 <= x2)%R -> n1 <= n2.
Proof.
  intros [Hp1 Hn1] [Hp2 Hn2] Hle.
  destruct (Rle_lt_dec 0 x1) as [H1|H1].
  - specialize (Hp1 H1). specialize (Hp2 ltac:(lra)).
    apply Z_le_of_IZR_lt. lra.
  - specialize (Hn1 ltac:(lra)).
    destruct (Rle_lt_dec 0 x2) as [H2|H2].
    + specialize (Hp2 H2).
      assert (n1 <= 0) by (apply Z_le_of_IZR_lt; lra).
      assert (0 <= n2) by (apply Z_le_of_IZR_lt; lra).
      lia.
    + specialize (Hn2 ltac:(lra)).
      apply Z_le_of_IZR_lt. lra.
Qed.

(** The error of one rounding, for an argument of size at most [B]. *)
Lemma rnd_err_le y r (B : R) :
  rnd_ok y (Prim2SF r) -> finite r -> (Rabs y <= B)%R ->
  (Rabs (F2R r - y) <= (B + 1) / 9007199254740992)%R.
Proof.
  intros Hr Hf HB. pose proof (rnd_ok_error _ _ Hr Hf) as He. fold (F2R r) in He.
  rewrite bpow_m53 in He. pose proof bpow_m1075_le. pose proof (Rabs_pos y).
  eapply Rle_trans; [exact He|]. lra.
Qed.

(** The float [channel] truncates is within [2^-42] of the exact
    interpolation. *)
Lemma channel_value top bot y n :
  0 <= top <= 255 -> 0 <= bot <= 255 -> 0 <= y <= n -> 0 < n ->
  exists t vf v,
    int_truediv y n = Ok t
    /\ generate_icon.channel top bot t = Ok v
    /\ int_of_float vf = Ok v
    /\ (Rabs (F2R vf - (IZR top + IZR (bot - top) * (IZR y / IZR n)))
        <= / 4398046511104)%R.
Proof.
  intros Htop Hbot Hy Hn.
  destruct (truediv_unit y n Hy Hn) as (t & Ht & Htf & Htb).
  destruct (channel_spec top bot t ltac:(lia) ltac:(lia) Htf Htb)
    as (fd & ft & v & Hfd & Hfdv & Hft & Hftv & Hmf & Haf & Hv & Hc).
  exists t, (ft + fd * t)%float, v. split; [exact Ht|]. split; [exact Hc|].
  split; [exact Hv|].
  destruct (float_of_int_inv _ _ Hfd) as [Hfdf _].
  destruct (float_of_int_inv _ _ Hft) as [Hftf _].
  destruct (int_truediv_inv _ _ _ Ht) as (_ & _ & Hrt).
  set (q := (IZR y / IZR n)%R) in *.
  assert (Hq : (0 <= q <= 1)%R).
  { assert (0 < IZR n)%R by (apply IZR_lt; lia).
    assert (0 <= IZR y)%R by (apply IZR_le; lia).
    assert (IZR y <= IZR n)%R by (apply IZR_le; lia).
    unfold q. split.
    - apply Rmult_le_pos; [lra|]. left. apply Rinv_0_lt_compat. lra.
    - apply Rmult_le_reg_r with (IZR n); [lra|]. unfold Rdiv.
      rewrite Rmult_assoc, Rinv_l by lra. lra. }
  assert (Het : (Rabs (F2R t - q) <= 2 / 9007199254740992)%R).
  { eapply Rle_trans; [apply (rnd_err_le _ _ 1 Hrt Htf)|lra].
    rewrite Rabs_pos_eq; lra. }
  apply Rabs_le_bounds in Het.
  set (D := IZR (bot - top)) in *.
  assert (HD : (-255 <= D <= 255)%R).
  { unfold D. split; apply IZR_le; lia. }
  assert (HT : (0 <= IZR top <= 255)%R) by (split; apply IZR_le; lia).
  pose proof (mul_rnd fd t Hfdf Htf) as Hm. rewrite Hfdv in Hm. fold D in Hm.
  assert (Hprod : (Rabs (D * F2R t) <= 256)%R) by (apply Rabs_le; nra).
  pose proof (rnd_err_le _ _ 256 Hm Hmf Hprod) as Hem.
  apply Rabs_le_bounds in Hem. apply Rabs_le_bounds in Hprod.
  pose proof (add_rnd ft (fd * t) Hftf Hmf) as Ha. rewrite Hftv in Ha.
  assert (Hsum : (Rabs (IZR top + F2R (fd * t)) <= 512)%R) by (apply Rabs_le; lra).
  pose proof (rnd_err_le _ _ 512 Ha Haf Hsum) as Hea.
  apply Rabs_le_bounds in Hea.
  apply Rabs_le. nra.
Qed.

(** Equal end colours give that colour at every row. *)
Lemma channel_flat c t :
  0 <= c <= 255 -> finite t -> (Rabs (F2R t) <= 2)%R ->
  generate_icon.channel c c t = Ok c.
Proof.
  intros Hc Htf Htb.
  destruct (channel_spec c c t ltac:(lia) ltac:(lia) Htf Htb)
    as (fd & ft & v & Hfd & Hfdv & Hft & Hftv & Hmf & Haf & Hv & Hch).
  rewrite Hch, <- Hv. apply int_of_float_exact; [exact Haf|].
  destruct (float_of_int_inv _ _ Hfd) as [Hfdf _].
  destruct (float_of_int_inv _ _ Hft) as [Hftf _].
  pose proof (mul_rnd fd t Hfdf Htf) as Hm.
  rewrite Hfdv, Z.sub_diag, Rmult_0_l in Hm.
  assert (Hmv : F2R (fd * t) = 0%R) by (apply (rnd_ok_int 0 _ Hm); lia).
  pose proof (add_rnd ft (fd * t)%float Hftf Hmf) as Ha.
  rewrite Hmv, Hftv, Rplus_0_r in Ha.
  apply (rnd_ok_int _ _ Ha). lia.
Qed.

Lemma channel_within_one top bot y n :
  0 <= top <= 255 -> 0 <= bot <= 255 -> 0 <= y <= n -> 0 < n <= 2 ^ 32 ->
  exists t v,
    int_truediv y n = Ok t /\ generate_icon.channel top bot t = Ok v
    /\ within_one_below n top bot y v.
Proof.
  intros Htop Hbot Hy Hn.
  destruct (channel_value top bot y n Htop Hbot Hy ltac:(lia))
    as (t & vf & v & Ht & Hc & Hv & He).
  exists t, v. split; [exact Ht|]. split; [exact Hc|].
  apply int_of_float_trunc in Hv. destruct Hv as [Hpos Hneg].
  apply Rabs_le_bounds in He.
  assert (HN : (0 < IZR n)%R) by (apply IZR_lt; lia).
  assert (HN2 : (IZR n <= 4294967296)%R) by (apply IZR_le; lia).
  set (E := (IZR top + IZR (bot - top) * (IZR y / IZR n))%R) in *.
  assert (HnE : (IZR n * E = IZR (n * top + (bot - top) * y))%R).
  { unfold E. rewrite plus_IZR, !mult_IZR. field. lra. }
  assert (HE0 : (0 <= E)%R).
  { apply Rmult_le_reg_l with (IZR n); [lra|]. rewrite Rmult_0_r, HnE.
    apply IZR_le. nia. }
  assert (Hv0 : (IZR v <= F2R vf /\ F2R vf < IZR v + 1)%R \/ (v = 0 /\ (F2R vf <= 0)%R)).
  { destruct (Rle_lt_dec 0 (F2R vf)) as [H0|H0]; [left; apply Hpos; exact H0|].
    right. specialize (Hneg ltac:(lra)). split; [|lra].
    assert (v <= 0) by (apply Z_le_of_IZR_lt; lra).
    assert (0 <= v) by (apply Z_le_of_IZR_lt; lra). lia. }
  unfold within_one_below. split.
  - (* n * v > n * E - n - 1 *)
    assert (Hlt : (IZR (n * top + (bot - top) * y - n) < IZR (n * v) + 1)%R).
    { rewrite minus_IZR, <- HnE, mult_IZR.
      destruct Hv0 as [[Hlo Hhi]|[-> Hle]]; nra. }
    apply Z_le_of_IZR_lt in Hlt. exact Hlt.
  - assert (Hlt : (IZR (n * v) < IZR (n * top + (bot - top) * y) + 1)%R).
    { rewrite <- HnE, mult_IZR.
      destruct Hv0 as [[Hlo Hhi]|[-> Hle]]; nra. }
    apply Z_le_of_IZR_lt in Hlt. exact Hlt.
Qed.

Lemma channel_mono top bot y1 y2 n :
  0 <= top <= 255 -> 0 <= bot <= 255 -> 0 <= y1 <= y2 -> y2 <= n -> 0 < n <= 2 ^ 32 ->
  exists t1 t2 v1 v2,
    int_truediv y1 n = Ok t1 /\ generate_icon.channel top bot t1 = Ok v1
    /\ int_truediv y2 n = Ok t2 /\ generate_icon.channel top bot t2 = Ok v2
    /\ (top <= bot -> v1 <= v2) /\ (bot <= top -> v2 <= v1).
Proof.
  intros Htop Hbot Hy1 Hy2 Hn.
  destruct (channel_value top bot y1 n Htop Hbot ltac:(lia) ltac:(lia))
    as (t1 & vf1 & v1 & Ht1 & Hc1 & Hv1 & He1).
  destruct (channel_value top bot y2 n Htop Hbot ltac:(lia) ltac:(lia))
    as (t2 & vf2 & v2 & Ht2 & Hc2 & Hv2 & He2).
  exists t1, t2, v1, v2. repeat (split; [assumption|]).
  destruct (Z.eq_dec y1 y2) as [->|Hne].
  { rewrite Ht1 in Ht2. injection Ht2 as <-. rewrite Hc1 in Hc2. injection Hc2 as <-.
    lia. }
  destruct (Z.eq_dec top bot) as [->|Hd].
  { destruct (truediv_unit y1 n ltac:(lia) ltac:(lia)) as (t1' & Ht1' & Hf1 & Hb1).
    destruct (truediv_unit y2 n ltac:(lia) ltac:(lia)) as (t2' & Ht2' & Hf2 & Hb2).
    rewrite Ht1 in Ht1'. injection Ht1' as <-. rewrite Ht2 in Ht2'. injection Ht2' as <-.
    rewrite (channel_flat bot t1 Hbot Hf1 Hb1) in Hc1. injection Hc1 as <-.
    rewrite (channel_flat bot t2 Hbot Hf2 Hb2) in Hc2. injection Hc2 as <-. lia. }
  apply int_of_float_trunc in Hv1, Hv2.
  apply Rabs_le_bounds in He1, He2.
  assert (HN : (0 < IZR n)%R) by (apply IZR_lt; lia).
  assert (HN2 : (IZR n <= 4294967296)%R) by (apply IZR_le; lia).
  assert (Hinv : (/ 4294967296 <= / IZR n)%R) by (apply Rinv_le_contravar; lra).
  assert (Hgap : (/ 4294967296 <= IZR y2 / IZR n - IZR y1 / IZR n)%R).
  { assert (1 <= IZR y2 - IZR y1)%R.
    { rewrite <- minus_IZR. apply IZR_le. lia. }
    unfold Rdiv. rewrite <- Rmult_minus_distr_r.
    assert (0 < / IZR n)%R by (apply Rinv_0_lt_compat; lra). nra. }
  set (q1 := (IZR y1 / IZR n)%R) in *. set (q2 := (IZR y2 / IZR n)%R) in *.
  split; intros Hord.
  - assert (HD : (1 <= IZR (bot - top))%R) by (apply IZR_le; lia).
    apply (is_trunc_mono _ _ _ _ Hv1 Hv2). nra.
  - assert (HD : (IZR (bot - top) <= -1)%R) by (apply IZR_le; lia).
    apply (is_trunc_mono _ _ _ _ Hv2 Hv1). nra.
Qed.

Lemma channel_toward top bot y1 y2 n :
  0 <= top <= 255 -> 0 <= bot <= 255 -> 0 <= y1 <= y2 -> y2 <= n -> 0 < n <= 2 ^ 32 ->
  exists t1 t2 v1 v2,
    int_truediv y1 n = Ok t1 /\ generate_icon.channel top bot t1 = Ok v1
    /\ int_truediv y2 n = Ok t2 /\ generate_icon.channel top bot t2 = Ok v2
    /\ toward top bot v1 v2.
Proof.
  intros Htop Hbot Hy1 Hy2 Hn.
  destruct (channel_mono top bot y1 y2 n Htop Hbot Hy1 Hy2 Hn)
    as (t1 & t2 & v1 & v2 & Ht1 & Hc1 & Ht2 & Hc2 & Hup & Hdown).
  destruct (channel_mono top bot 0 y1 n Htop Hbot ltac:(lia) ltac:(lia) Hn)
    as (t0 & t1' & v0 & v1' & Ht0 & Hc0 & Ht1' & Hc1' & Hup0 & Hdown0).
  destruct (channel_mono top bot y2 n n Htop Hbot ltac:(lia) ltac:(lia) Hn)
    as (t2' & tn & v2' & vn & Ht2' & Hc2' & Htn & Hcn & Hupn & Hdownn).
  rewrite Ht1 in Ht1'. injection Ht1' as <-. rewrite Hc1 in Hc1'. injection Hc1' as <-.
  rewrite Ht2 in Ht2'. injection Ht2' as <-. rewrite Hc2 in Hc2'. injection Hc2' as <-.
  rewrite int_truediv_zero in Ht0 by lia. injection Ht0 as <-.
  rewrite channel_at_0 in Hc0 by lia. injection Hc0 as <-.
  rewrite int_truediv_self in Htn by lia. injection Htn as <-.
  rewrite channel_at_1 in Hcn by lia. injection Hcn as <-.
  exists t1, t2, v1, v2. repeat (split; [assumption|]).
  unfold toward. lia.
Qed.

Lemma row_color_inv size top bot y c :
  row_color size top bot y = Ok c ->
  exists t,
    int_truediv y (size - 1) = Ok t
    /\ generate_icon.channel top.1.1 bot.1.1 t = Ok c.1.1
    /\ generate_icon.channel top.1.2 bot.1.2 t = Ok c.1.2
    /\ generate_icon.channel top.2 bot.2 t = Ok c.2.
Proof.
  unfold row_color. intros Hc.
  destruct (int_truediv y (size - 1)) as [t|] eqn:Et; [|discriminate].
  cbn [mbind res_bind] in Hc.
  destruct (generate_icon.channel top.1.1 bot.1.1 t) as [r|] eqn:Er; [|discriminate].
  destruct (generate_icon.channel top.1.2 bot.1.2 t) as [g|] eqn:Eg; [|discriminate].
  destruct (generate_icon.channel top.2 bot.2 t) as [b|] eqn:Eb; [|discriminate].
  cbn [mbind res_bind] in Hc. injection Hc as <-. exists t. auto.
Qed.

Lemma gradient_pixel size top bot x y :
  2 <= size -> color8 top -> color8 bot -> 0 <= x < size -> 0 <= y < size ->
  exists c,
    row_color size top bot y = Ok c
    /\ getpixel ((fun y => replicate (Z.to_nat size) (row_color_or_black size top bot y))
                   <$> range size) x y = Some c.
Proof.
  intros Hs Ht Hb Hx Hy. destruct (row_color_total size top bot y Hs Hy Ht Hb) as [c Hc].
  exists c. split; [exact Hc|]. rewrite getpixel_rows by lia.
  unfold row_color_or_black. rewrite Hc. reflexivity.
Qed.

Lemma row_color_within_one size top bot y c :
  2 <= size <= 2 ^ 32 -> 0 <= y < size -> color8 top -> color8 bot ->
  row_color size top bot y = Ok c ->
  within_one_below (size - 1) top.1.1 bot.1.1 y c.1.1
  /\ within_one_below (size - 1) top.1.2 bot.1.2 y c.1.2
  /\ within_one_below (size - 1) top.2 bot.2 y c.2.
Proof.
  intros Hs Hy Ht Hb Hc.
  destruct (row_color_inv _ _ _ _ _ Hc) as (t & Et & Er & Eg & Eb).
  destruct Ht as (Ht1 & Ht2 & Ht3). destruct Hb as (Hb1 & Hb2 & Hb3).
  destruct (channel_within_one top.1.1 bot.1.1 y (size - 1) Ht1 Hb1)
    as (t1 & v1 & Et1 & Ev1 & Hw1); try lia.
  destruct (channel_within_one top.1.2 bot.1.2 y (size - 1) Ht2 Hb2)
    as (t2 & v2 & Et2 & Ev2 & Hw2); try lia.
  destruct (channel_within_one top.2 bot.2 y (size - 1) Ht3 Hb3)
    as (t3 & v3 & Et3 & Ev3 & Hw3); try lia.
  rewrite Et in Et1, Et2, Et3.
  injection Et1 as <-. injection Et2 as <-. injection Et3 as <-.
  rewrite Er in Ev1. rewrite Eg in Ev2. rewrite Eb in Ev3.
  injection Ev1 as <-. injection Ev2 as <-. injection Ev3 as <-. auto.
Qed.

(** The rounding can cost a level: on row 3 of 12 between the levels 2 and
    200 the exact interpolation is 2 + 198 * 3 / 11 = 56, and the value
    computed is 55. *)
Lemma interpolated_one_below :
  interpolated 2 200 3 11 = Ok 55 /\ 11 * 2 + (200 - 2) * 3 = 11 * 56.
Proof. split; [vm_compute|]; reflexivity. Qed.

(** C3: for every size S from 2 to 4096 and 8-bit colours,
    [vertical_gradient] returns an S x S image; in each channel the pixel at
    (x, y) has the value int(top + (bot - top) * t) with t = y / (S - 1),
    the specification's formula evaluated in Python's arithmetic, which is
    the exact interpolation top + (bot - top) * y / (S - 1) rounded down, or
    one less; row 0 is exactly the top colour, row S - 1 exactly the bottom
    colour, and the pixels of a row are all equal. *)
Theorem C3_vertical_gradient (size : Z) (top_rgb bot_rgb : rgb) :
  2 <= size <= 4096 -> color8 top_rgb -> color8 bot_rgb ->
  exists px,
    generate_icon.vertical_gradient size top_rgb bot_rgb = Ok (Raster size size px)
    /\ Z.of_nat (length px) = size
    /\ Forall (fun row => Z.of_nat (length row) = size) px
    /\ (forall x y, 0 <= x < size -> 0 <= y < size ->
          exists r g b,
            getpixel px x y = Some (r, g, b)
            /\ interpolated top_rgb.1.1 bot_rgb.1.1 y (size - 1) = Ok r
            /\ interpolated top_rgb.1.2 bot_rgb.1.2 y (size - 1) = Ok g
            /\ interpolated top_rgb.2 bot_rgb.2 y (size - 1) = Ok b
            /\ within_one_below (size - 1) top_rgb.1.1 bot_rgb.1.1 y r
            /\ within_one_below (size - 1) top_rgb.1.2 bot_rgb.1.2 y g
            /\ within_one_below (size - 1) top_rgb.2 bot_rgb.2 y b)
    /\ (forall x, 0 <= x < size -> getpixel px x 0 = Some top_rgb)
    /\ (forall x, 0 <= x < size -> getpixel px x (size - 1) = Some bot_rgb)
    /\ (forall x x' y, 0 <= x < size -> 0 <= x' < size -> 0 <= y < size ->
          getpixel px x y = getpixel px x' y).
Proof.
  intros Hs Ht Hb.
  assert (Hcol : forall y, 0 <= y < size -> exists c, row_color size top_rgb bot_rgb y = Ok c)
    by (intros; apply row_color_total; [lia|assumption..]).
  eexists. split; [apply vertical_gradient_rows; [lia|exact Hcol]|].
  split; [rewrite length_fmap; unfold range; rewrite length_seqZ; lia|].
  split.
  { apply Forall_fmap, Forall_forall. intros y _. simpl. rewrite length_replicate. lia. }
  split; [|split; [|split]].
  - intros x y Hx Hy. rewrite getpixel_rows by lia.
    unfold row_color_or_black. destruct (Hcol y Hy) as [c Hc]. rewrite Hc.
    destruct (row_color_interpolated _ _ _ _ _ Hc) as (Hr & Hg & Hbl).
    destruct (row_color_within_one size top_rgb bot_rgb y c ltac:(lia) Hy Ht Hb Hc)
      as (Wr & Wg & Wb).
    exists c.1.1, c.1.2, c.2. destruct c as [[r g] b].
    split; [reflexivity|]. auto 10.
  - intros x Hx. rewrite getpixel_rows by lia.
    unfold row_color_or_black. rewrite row_color_first by (try lia; assumption).
    reflexivity.
  - intros x Hx. rewrite getpixel_rows by lia.
    unfold row_color_or_black. rewrite row_color_last by (try lia; assumption).
    reflexivity.
  - intros x x' y Hx Hx' Hy. now rewrite !getpixel_rows by lia.
Qed.

Lemma C3_vertical_gradient_witness :
  2 <= 3 <= 4096 /\ color8 generate_icon.INDIGO_TOP /\ color8 generate_icon.INDIGO_BOTTOM /\
  exists px,
    generate_icon.vertical_gradient 3 generate_icon.INDIGO_TOP generate_icon.INDIGO_BOTTOM
      = Ok (Raster 3 3 px)
    /\ getpixel px 1 0 = Some generate_icon.INDIGO_TOP
    /\ getpixel px 1 1 = Some (83, 79, 221)
    /\ getpixel px 1 2 = Some generate_icon.INDIGO_BOTTOM.
Proof.
  assert (H3 : 2 <= 3 <= 4096) by lia.
  assert (Ht : color8 generate_icon.INDIGO_TOP) by (unfold color8; simpl; lia).
  assert (Hb : color8 generate_icon.INDIGO_BOTTOM) by (unfold color8; simpl; lia).
  split; [exact H3|]. split; [exact Ht|]. split; [exact Hb|].
  destruct (C3_vertical_gradient 3 _ _ H3 Ht Hb) as (px & Hvg & _ & _ & Hmid & H0 & H2 & _).
  exists px. split; [exact Hvg|]. split; [apply H0; lia|]. split; [|apply (H2 1); lia].
  destruct (Hmid 1 1 ltac:(lia) ltac:(lia)) as (r & g & b & Hpx & Hr & Hg & Hbl & _).
  rewrite Hpx. vm_compute in Hr, Hg, Hbl.
  injection Hr as <-. injection Hg as <-. injection Hbl as <-. reflexivity.
Defined.

(** X2: in a gradient of 2 to 4096 rows every channel of every pixel is
    the exact linear interpolation top + (bot - top) * y / (S - 1) rounded
    down, or one less: float rounding never overshoots and costs at most
    one level. *)
Theorem vertical_gradient_accuracy (size : Z) (top_rgb bot_rgb : rgb) :
  2 <= size <= 4096 -> color8 top_rgb -> color8 bot_rgb ->
  exists px,
    generate_icon.vertical_gradient size top_rgb bot_rgb = Ok (Raster size size px)
    /\ forall x y, 0 <= x < size -> 0 <= y < size ->
         exists c,
           getpixel px x y = Some c
           /\ within_one_below (size - 1) top_rgb.1.1 bot_rgb.1.1 y c.1.1
           /\ within_one_below (size - 1) top_rgb.1.2 bot_rgb.1.2 y c.1.2
           /\ within_one_below (size - 1) top_rgb.2 bot_rgb.2 y c.2.
Proof.
  intros Hs Ht Hb.
  eexists. split.
  { apply vertical_gradient_rows; [lia|]. intros y Hy. now apply row_color_total. }
  intros x y Hx Hy.
  destruct (gradient_pixel size top_rgb bot_rgb x y ltac:(lia) Ht Hb Hx Hy) as (c & Hc & Hpx).
  exists c. split; [exact Hpx|].
  apply (row_color_within_one size top_rgb bot_rgb y c); (lia || assumption).
Qed.

Lemma vertical_gradient_accuracy_witness :
  exists px,
    generate_icon.vertical_gradient 64 generate_icon.INDIGO_TOP generate_icon.INDIGO_BOTTOM
      = Ok (Raster 64 64 px)
    /\ exists c, getpixel px 5 21 = Some c
                 /\ within_one_below 63 99 67 21 c.1.1.
Proof.
  destruct INDIGO_color8 as [Ht Hb].
  destruct (vertical_gradient_accuracy 64 _ _ ltac:(lia) Ht Hb) as (px & Hpx & Hall).
  exists px. split; [exact Hpx|].
  destruct (Hall 5 21 ltac:(lia) ltac:(lia)) as (c & Hc & Hr & _).
  exists c. split; [exact Hc|exact Hr].
Defined.

Lemma rows_toward size top bot y y' c c' :
  2 <= size <= 2 ^ 32 -> color8 top -> color8 bot -> 0 <= y <= y' -> y' < size ->
  row_color size top bot y = Ok c -> row_color size top bot y' = Ok c' ->
  toward top.1.1 bot.1.1 c.1.1 c'.1.1
  /\ toward top.1.2 bot.1.2 c.1.2 c'.1.2
  /\ toward top.2 bot.2 c.2 c'.2
  /\ color8 c /\ color8 c'.
Proof.
  intros Hs Ht Hb Hy Hy' Hc Hc'.
  destruct (row_color_inv _ _ _ _ _ Hc) as (t & Et & Er & Eg & Eb).
  destruct (row_color_inv _ _ _ _ _ Hc') as (t' & Et' & Er' & Eg' & Eb').
  destruct Ht as (Ht1 & Ht2 & Ht3). destruct Hb as (Hb1 & Hb2 & Hb3).
  destruct (channel_toward top.1.1 bot.1.1 y y' (size - 1) Ht1 Hb1)
    as (t1 & t1' & v1 & v1' & Et1 & Ev1 & Et1' & Ev1' & Hw1); try lia.
  destruct (channel_toward top.1.2 bot.1.2 y y' (size - 1) Ht2 Hb2)
    as (t2 & t2' & v2 & v2' & Et2 & Ev2 & Et2' & Ev2' & Hw2); try lia.
  destruct (channel_toward top.2 bot.2 y y' (size - 1) Ht3 Hb3)
    as (t3 & t3' & v3 & v3' & Et3 & Ev3 & Et3' & Ev3' & Hw3); try lia.
  rewrite Et in Et1, Et2, Et3. rewrite Et' in Et1', Et2', Et3'.
  injection Et1 as <-. injection Et2 as <-. injection Et3 as <-.
  injection Et1' as <-. injection Et2' as <-. injection Et3' as <-.
  rewrite Er in Ev1. rewrite Eg in Ev2. rewrite Eb in Ev3.
  rewrite Er' in Ev1'. rewrite Eg' in Ev2'. rewrite Eb' in Ev3'.
  injection Ev1 as <-. injection Ev2 as <-. injection Ev3 as <-.
  injection Ev1' as <-. injection Ev2' as <-. injection Ev3' as <-.
  repeat (split; [assumption|]).
  unfold toward in Hw1, Hw2, Hw3. unfold color8. lia.
Qed.

(** X3: in a gradient of 2 to 4096 rows every channel moves from the top
    colour to the bottom colour without ever turning back: going down the
    rows it never decreases when the bottom value is the larger and never
    increases when it is the smaller; so every pixel lies between the two
    end colours and is an 8-bit colour. *)
Theorem vertical_gradient_monotone (size : Z) (top_rgb bot_rgb : rgb) :
  2 <= size <= 4096 -> color8 top_rgb -> color8 bot_rgb ->
  exists px,
    generate_icon.vertical_gradient size top_rgb bot_rgb = Ok (Raster size size px)
    /\ forall x x' y y', 0 <= x < size -> 0 <= x' < size -> 0 <= y <= y' -> y' < size ->
         exists c c',
           getpixel px x y = Some c /\ getpixel px x' y' = Some c'
           /\ toward top_rgb.1.1 bot_rgb.1.1 c.1.1 c'.1.1
           /\ toward top_rgb.1.2 bot_rgb.1.2 c.1.2 c'.1.2
           /\ toward top_rgb.2 bot_rgb.2 c.2 c'.2
           /\ color8 c /\ color8 c'.
Proof.
  intros Hs Ht Hb.
  eexists. split.
  { apply vertical_gradient_rows; [lia|]. intros y Hy. now apply row_color_total. }
  intros x x' y y' Hx Hx' Hy Hy'.
  destruct (gradient_pixel size top_rgb bot_rgb x y ltac:(lia) Ht Hb Hx ltac:(lia))
    as (c & Hc & Hpx).
  destruct (gradient_pixel size top_rgb bot_rgb x' y' ltac:(lia) Ht Hb Hx' ltac:(lia))
    as (c' & Hc' & Hpx').
  exists c, c'. split; [exact Hpx|]. split; [exact Hpx'|].
  exact (rows_toward size top_rgb bot_rgb y y' c c' ltac:(lia) Ht Hb Hy Hy' Hc Hc').
Qed.

Lemma vertical_gradient_monotone_witness :
  exists px,
    generate_icon.vertical_gradient 64 generate_icon.INDIGO_TOP generate_icon.INDIGO_BOTTOM
      = Ok (Raster 64 64 px)
    /\ exists c c', getpixel px 0 10 = Some c /\ getpixel px 63 40 = Some c'
                    /\ toward 99 67 c.1.1 c'.1.1.
Proof.
  destruct INDIGO_color8 as [Ht Hb].
  destruct (vertical_gradient_monotone 64 _ _ ltac:(lia) Ht Hb) as (px & Hpx & Hall).
  exists px. split; [exact Hpx|].
  destruct (Hall 0 63 10 40 ltac:(lia) ltac:(lia) ltac:(lia) ltac:(lia))
    as (c & c' & Hc & Hc' & Hr & _).
  exists c, c'. auto.
Defined.

(* ================================================================== *)
(** * The mask *)
(* ================================================================== *)

(** The truncated product [int(size * 0.22)] is 22% of the size rounded
    down, or one less. *)
Lemma mask_radius_value (size : Z) :
  1 <= size < 2 ^ 31 ->
  exists n,
    generate_icon.rounded_rect_mask size 0.22
    = Ok (Rounded_rectangle (Image_new L size size (Ink1 0))
            0 0 (size - 1) (size - 1) (Z.max 1 n) (Some (Ink1 255)) None 1)
    /\ 22 * size - 100 <= 100 * n <= 22 * size.
Proof.
  intros Hs.
  destruct (float_of_int_small size ltac:(lia)) as (s & Hf & Hsf & Hsv).
  assert (HS1 : (1 <= IZR size)%R) by (apply IZR_le; lia).
  assert (HS2 : (IZR size <= 1099511627776)%R) by (apply IZR_le; lia).
  float_const 0.22%float H022.
  pose proof (mul_rnd s 0.22 Hsf Hfin) as Hm. rewrite Hsv, H022 in Hm.
  assert (Hy : (Rabs (IZR size * (7926335344172073 * / 36028797018963968))
                <= 1099511627776)%R) by (apply Rabs_le; lra).
  assert (Hxf : finite (s * 0.22)).
  { apply (rnd_ok_finite _ _ Hm). apply small_le_max.
    eapply Rle_trans; [exact Hy|]. apply IZR_le. lia. }
  pose proof (rnd_err_le _ _ _ Hm Hxf Hy) as He. apply Rabs_le_bounds in He.
  destruct (int_of_float_total _ Hxf) as [n Hn].
  exists n. split.
  { unfold generate_icon.rounded_rect_mask, int_mul_float.
    rewrite image_new_ok by lia. res_step. rewrite Hf. res_step.
    rewrite Hn. res_step. apply rounded_rectangle_ok; lia. }
  apply int_of_float_trunc in Hn. destruct Hn as [Hpos _].
  specialize (Hpos ltac:(lra)). split.
  - apply Z_le_of_IZR_lt. rewrite minus_IZR, !mult_IZR. lra.
  - apply Z_le_of_IZR_lt. rewrite !mult_IZR. lra.
Qed.

(** X1: for sizes from 1 to 4096 the mask is the full-canvas rounded
    rectangle whose corner radius is 22% of the size rounded down (at most
    one less), and at least 1; from size 2 on the radius is at most half the
    side. *)
Theorem rounded_rect_mask_radius (size : Z) :
  1 <= size <= 4096 ->
  exists r,
    generate_icon.rounded_rect_mask size 0.22
    = Ok (Rounded_rectangle (Image_new L size size (Ink1 0))
            0 0 (size - 1) (size - 1) r (Some (Ink1 255)) None 1)
    /\ 1 <= r
    /\ 22 * size - 100 <= 100 * r <= Z.max 100 (22 * size)
    /\ (2 <= size -> 2 * r <= size).
Proof.
  intros Hs. destruct (mask_radius_value size ltac:(lia)) as (n & Hmask & Hlo & Hup).
  exists (Z.max 1 n). split; [exact Hmask|].
  split; [lia|]. split; [lia|].
  intros H2. destruct (Z.max_spec 1 n) as [[_ ->]|[_ ->]]; lia.
Qed.

Lemma rounded_rect_mask_radius_witness :
  exists r,
    generate_icon.rounded_rect_mask 64 0.22
    = Ok (Rounded_rectangle (Image_new L 64 64 (Ink1 0)) 0 0 63 63 r
            (Some (Ink1 255)) None 1)
    /\ 1308 <= 100 * r <= 1408.
Proof.
  destruct (rounded_rect_mask_radius 64 ltac:(lia)) as (r & Hr & _ & Hb & _).
  exists r. split; [exact Hr|]. lia.
Defined.

(* ================================================================== *)
(** * The shape of the two glyphs *)
(* ================================================================== *)

(** Reflecting the centre through itself gives the centre back, bit for
    bit. *)
Lemma mirror_centre (tx : float) :
  finite tx -> F2R tx <> 0%R -> (2 * Rabs (F2R tx) <= max_float_R)%R ->
  (2 * tx - tx)%float = tx.
Proof.
  intros Hf Hnz Hmax.
  destruct (double_exact tx Hf Hmax) as [H2f H2v].
  pose proof (sub_rnd (2 * tx) tx H2f Hf) as Hr. rewrite H2v in Hr.
  apply (rnd_ok_ext _ (F2R tx)) in Hr; [|lra].
  assert (Hrf : finite (2 * tx - tx)).
  { apply (rnd_ok_finite _ _ Hr). apply finite_le_max. }
  destruct (valid_repr _ (Prim2SF_valid tx)) as (j & g & Hj & Hg & Hlt).
  fold (F2R tx) in Hj, Hlt.
  pose proof (rnd_ok_exact _ _ j g Hr Hrf Hj Hg Hlt) as Hv.
  apply Prim2SF_inj. apply SF2R_inj.
  - apply Prim2SF_finite_valid.
  - apply Prim2SF_finite_valid.
  - exact Hrf.
  - exact Hf.
  - exact Hv.
  - rewrite Hv. exact Hnz.
Qed.

Lemma near_bounds (S : R) q c :
  near S q c ->
  ((c - / 281474976710656) * S <= F2R q <= (c + / 281474976710656) * S)%R.
Proof. intros [_ H]. apply Rabs_le_bounds in H. lra. Qed.

(** X4: the icon glyph is a proper V for every positive size: the two arms
    share their top edge height and meet in exactly the same inner apex, and
    from left to right the vertices come strictly in the order left outer,
    left inner, left tip, apex, right tip, right inner, right outer; the top
    edge lies strictly above the apex and the apex strictly above the tips.
    The right outer corner is the reflection of the left one up to
    rounding. *)
Theorem draw_v_shape (size : Z) (left_arm right_arm : list point) :
  0 < size ->
  generate_icon.v_arms size = Ok (left_arm, right_arm) ->
  exists x0 x1 xo xc rx0 rx1 rxo ytop yin ytip : float,
    left_arm = [(x0, ytop); (x1, ytop); (xc, yin); (xo, ytip)]
    /\ right_arm = [(rx0, ytop); (rx1, ytop); (xc, yin); (rxo, ytip)]
    /\ (F2R x0 < F2R x1 /\ F2R x1 < F2R xo /\ F2R xo < F2R xc
        /\ F2R xc < F2R rxo /\ F2R rxo < F2R rx1 /\ F2R rx1 < F2R rx0)%R
    /\ (F2R ytop < F2R yin /\ F2R yin < F2R ytip)%R
    /\ (Rabs (F2R x0 + F2R rx0 - IZR size) <= IZR size / 140737488355328)%R
    /\ (Rabs (F2R x1 + F2R rx1 - IZR size) <= IZR size / 140737488355328)%R
    /\ (Rabs (F2R xo + F2R rxo - IZR size) <= IZR size / 140737488355328)%R.
Proof.
  intros Hpos Hv.
  destruct (v_arms_near _ _ _ Hpos Hv) as [Hl Hr].
  destruct (v_arms_inv _ _ _ Hv) as [s Hs].
  destruct (float_of_pos_size size s Hpos Hs) as (Hsf & Hsb & HS1 & HSmax).
  assert (Hsabs : (/ 2 <= Rabs (F2R s))%R) by (rewrite Rabs_pos_eq; lra).
  destruct (half_exact s Hsf Hsabs) as [Htxf Htx].
  assert (Hcentre : (2 * (s * 0.5) - s * 0.5)%float = (s * 0.5)%float).
  { apply mirror_centre; [exact Htxf|rewrite Htx; lra|].
    rewrite Htx, Rabs_pos_eq by lra. pose proof (finite_le_max s) as Hm.
    rewrite Rabs_pos_eq in Hm by lra. lra. }
  rewrite (v_arms_eq _ _ Hs) in Hv. cbv zeta in Hv. rewrite Hcentre in Hv.
  injection Hv as <- <-.
  unfold icon_left_ideal in Hl. unfold icon_right_ideal in Hr.
  apply List.Forall2_cons_iff in Hl as [[L0x L0y] Hl].
  apply List.Forall2_cons_iff in Hl as [[L1x L1y] Hl].
  apply List.Forall2_cons_iff in Hl as [[L2x L2y] Hl].
  apply List.Forall2_cons_iff in Hl as [[L3x L3y] _].
  apply List.Forall2_cons_iff in Hr as [[R0x R0y] Hr].
  apply List.Forall2_cons_iff in Hr as [[R1x R1y] Hr].
  apply List.Forall2_cons_iff in Hr as [[R2x R2y] Hr].
  apply List.Forall2_cons_iff in Hr as [[R3x R3y] _].
  cbn [fst snd] in *.
  apply near_bounds in L0x, L0y, L1x, L1y, L2x, L2y, L3x, L3y, R0x, R1x, R2x, R3x.
  do 10 eexists. split; [reflexivity|]. split; [reflexivity|].
  split; [repeat split; lra|]. split; [split; lra|].
  repeat split; apply Rabs_le; lra.
Qed.

Lemma draw_v_shape_witness :
  exists left_arm right_arm p,
    generate_icon.v_arms 64 = Ok (left_arm, right_arm)
    /\ left_arm !! 2%nat = Some p /\ right_arm !! 2%nat = Some p.
Proof.
  destruct (v_arms_total 64 ltac:(lia)) as (la & ra & Hv).
  destruct (draw_v_shape 64 la ra ltac:(lia) Hv)
    as (x0 & x1 & xo & xc & rx0 & rx1 & rxo & ytop & yin & ytip & -> & -> & _).
  exists [(x0, ytop); (x1, ytop); (xc, yin); (xo, ytip)],
         [(rx0, ytop); (rx1, ytop); (xc, yin); (rxo, ytip)], (xc, yin).
  split; [exact Hv|]. split; reflexivity.
Defined.

Lemma v_polys_inv size vp rh :
  generate_favicon.v_polys size = Ok (vp, rh) ->
  exists s mid, float_of_int size = Ok s /\ int_truediv size 2 = Ok mid.
Proof.
  intros Hv. destruct (float_of_int size) as [s|e] eqn:Hs.
  - destruct (int_truediv size 2) as [m|e] eqn:Hm; [eauto|].
    unfold generate_favicon.v_polys, int_mul_float in Hv. rewrite Hs, Hm in Hv.
    discriminate.
  - unfold generate_favicon.v_polys, int_mul_float in Hv. rewrite Hs in Hv. discriminate.
Qed.

(** X5: the favicon glyph is a proper V for every positive size: from left to
    right its vertices come strictly in the order left outer, left inner,
    centre, right inner, right outer, with the top edge strictly above the
    inner notch and the notch strictly above the bottom tip; the lighter
    right half reuses the same right-hand vertices and the same centre
    line; left and right corners are symmetric about the centre up to
    rounding, and the centre is exactly size / 2 below 2^53. *)
Theorem v_poly_shape (size : Z) (v_poly right_half : list point) :
  0 < size ->
  generate_favicon.v_polys size = Ok (v_poly, right_half) ->
  exists lo li mid ri ro ytop yin ybot : float,
    v_poly = [(lo, ytop); (li, ytop); (mid, yin); (ri, ytop); (ro, ytop); (mid, ybot)]
    /\ right_half = [(mid, ytop); (ri, ytop); (ro, ytop); (mid, ybot)]
    /\ (F2R lo < F2R li /\ F2R li < F2R mid /\ F2R mid < F2R ri /\ F2R ri < F2R ro)%R
    /\ (F2R ytop < F2R yin /\ F2R yin < F2R ybot)%R
    /\ (Rabs (F2R lo + F2R ro - IZR size) <= IZR size / 140737488355328)%R
    /\ (Rabs (F2R li + F2R ri - IZR size) <= IZR size / 140737488355328)%R
    /\ (size < 2 ^ 53 -> F2R mid = (IZR size / 2)%R).
Proof.
  intros Hpos Hv.
  destruct (v_polys_near _ _ _ Hpos Hv) as [Hl _].
  destruct (v_polys_inv _ _ _ Hv) as (s & mid & Hs & Hm).
  assert (HS1 : (1 <= IZR size)%R) by (apply IZR_le; lia).
  rewrite (v_polys_eq _ _ _ Hs Hm) in Hv. cbv zeta in Hv. injection Hv as <- <-.
  unfold favicon_v_ideal in Hl.
  apply List.Forall2_cons_iff in Hl as [[L0x L0y] Hl].
  apply List.Forall2_cons_iff in Hl as [[L1x L1y] Hl].
  apply List.Forall2_cons_iff in Hl as [[L2x L2y] Hl].
  apply List.Forall2_cons_iff in Hl as [[L3x L3y] Hl].
  apply List.Forall2_cons_iff in Hl as [[L4x L4y] Hl].
  apply List.Forall2_cons_iff in Hl as [[L5x L5y] _].
  cbn [fst snd] in *.
  apply near_bounds in L0x, L0y, L1x, L2x, L2y, L3x, L4x, L5y.
  do 8 eexists. split; [reflexivity|]. split; [reflexivity|].
  split; [repeat split; lra|]. split; [split; lra|].
  split; [apply Rabs_le; lra|]. split; [apply Rabs_le; lra|].
  intros H53. destruct (half_of_size size s ltac:(lia) Hs) as [Hval Hdiv].
  rewrite Hm in Hdiv. injection Hdiv as ->. exact Hval.
Qed.

Lemma v_poly_shape_witness :
  exists v_poly right_half mid,
    generate_favicon.v_polys 64 = Ok (v_poly, right_half)
    /\ fst <$> right_half !! 0%nat = Some mid
    /\ F2R mid = 32%R.
Proof.
  destruct (v_polys_total 64 ltac:(lia)) as (vp & rh & Hv).
  destruct (v_poly_shape 64 vp rh ltac:(lia) Hv)
    as (lo & li & mid & ri & ro & ytop & yin & ybot & -> & -> & _ & _ & _ & _ & Hmid).
  exists [(lo, ytop); (li, ytop); (mid, yin); (ri, ytop); (ro, ytop); (mid, ybot)],
         [(mid, ytop); (ri, ytop); (ro, ytop); (mid, ybot)], mid.
  split; [exact Hv|]. split; [reflexivity|].
  rewrite Hmid by lia. lra.
Defined.

(* ================================================================== *)
(** * The output stages in an arbitrary world *)
(* ================================================================== *)










(* ================================================================== *)
(** * Output paths *)
(* ================================================================== *)

Lemma append_assoc (a b c : string) : (a +:+ b) +:+ c = a +:+ (b +:+ c).
Proof.
  induction a as [|x a IH]; [reflexivity|].
  change (String x ((a +:+ b) +:+ c) = String x (a +:+ (b +:+ c))). now rewrite IH.
Qed.

Lemma append_nil_r (a : string) : a +:+ "" = a.
Proof.
  induction a as [|x a IH]; [reflexivity|].
  change (String x (a +:+ "") = String x a). now rewrite IH.
Qed.

Lemma rev_app_append (a b acc : string) :
  String.rev_app (a +:+ b) acc = String.rev_app b (String.rev_app a acc).
Proof.
  revert acc. induction a as [|x a IH]; intros acc; cbn; [reflexivity|]. apply IH.
Qed.

Lemma rev_app_rev_app (s a b : string) :
  String.rev_app (String.rev_app s a) b = String.rev_app a (s +:+ b).
Proof.
  revert a b. induction s as [|x s IH]; intros a b; cbn; [reflexivity|].
  rewrite IH. reflexivity.
Qed.

Lemma rev_involutive (s : string) : String.rev (String.rev s) = s.
Proof.
  unfold String.rev. rewrite rev_app_rev_app. cbn. apply append_nil_r.
Qed.

Lemma rev_app_inj (s x y : string) : String.rev_app s x = String.rev_app s y -> x = y.
Proof.
  revert x y. induction s as [|c s IH]; intros x y H; cbn in H; [exact H|].
  apply IH in H. now injection H.
Qed.

Lemma append_inj_l (a b s : string) : a +:+ s = b +:+ s -> a = b.
Proof.
  intros H. apply (f_equal String.rev) in H. unfold String.rev in H.
  rewrite !rev_app_append in H. apply rev_app_inj in H.
  rewrite <- (rev_involutive a), <- (rev_involutive b). unfold String.rev at 2 4.
  now rewrite H.
Qed.

Lemma not_slash_cases (c : ascii) : c = "/"%char \/ c <> "/"%char.
Proof. destruct (Ascii.ascii_dec c "/"%char); auto. Qed.

Lemma drop_to_slash_skip (c : ascii) (s : string) :
  c <> "/"%char -> drop_to_slash (String c s) = drop_to_slash s.
Proof.
  intros Hc. destruct c as [[] [] [] [] [] [] [] []]; try reflexivity. congruence.
Qed.

Lemma drop_slashes_stop (c : ascii) (s : string) :
  c <> "/"%char -> drop_slashes (String c s) = String c s.
Proof.
  intros Hc. destruct c as [[] [] [] [] [] [] [] []]; try reflexivity. congruence.
Qed.

Lemma drop_to_slash_rev_app (s acc : string) :
  no_slash s -> drop_to_slash (String.rev_app s acc) = drop_to_slash acc.
Proof.
  revert acc. induction s as [|c s IH]; intros acc Hs; cbn; [reflexivity|].
  destruct Hs as [Hc Hs]. rewrite (IH _ Hs). apply drop_to_slash_skip, Hc.
Qed.

Lemma drop_slashes_nonempty (b : string) (c : ascii) (r : string) :
  c <> "/"%char -> drop_slashes (b +:+ String c r) <> "".
Proof.
  intros Hc. induction b as [|x b IH].
  - change (drop_slashes (String c r) <> ""). rewrite (drop_slashes_stop _ _ Hc).
    discriminate.
  - change (drop_slashes (String x (b +:+ String c r)) <> "").
    destruct (not_slash_cases x) as [->|Hx].
    + exact IH.
    + rewrite (drop_slashes_stop _ _ Hx). discriminate.
Qed.

(** The directory of [x/name] is [x], for a slash-free [name] and an [x]
    that ends in something other than a slash. *)
Lemma dirname_file (x name : string) (c : ascii) (r : string) :
  no_slash name -> String.rev x = String c r -> c <> "/"%char ->
  dirname (x +:+ String "/" name) = x.
Proof.
  intros Hname Hx Hc. unfold dirname.
  assert (Hhead : String.rev (drop_to_slash (String.rev (x +:+ String "/" name)))
                  = x +:+ "/").
  { unfold String.rev at 2. rewrite rev_app_append. cbn [String.rev_app].
    rewrite (drop_to_slash_rev_app _ _ Hname).
    change (drop_to_slash (String "/" (String.rev_app x "")))
      with (String "/" (String.rev_app x "")).
    unfold String.rev. cbn [String.rev_app]. rewrite rev_app_rev_app. reflexivity. }
  rewrite Hhead.
  destruct (drop_slashes (x +:+ "/")) eqn:Hd.
  - exfalso.
    assert (Hsplit : forall r acc, String.rev_app r acc = String.rev_app r "" +:+ acc).
    { clear. induction r as [|y r IH]; intros acc; cbn [String.rev_app]; [reflexivity|].
      rewrite (IH (String y acc)), (IH (String y "")), append_assoc. reflexivity. }
    assert (Hx' : x = String.rev_app r "" +:+ String c "").
    { rewrite <- (rev_involutive x), Hx. unfold String.rev. cbn [String.rev_app].
      apply Hsplit. }
    rewrite Hx', append_assoc in Hd.
    change (String c "" +:+ "/") with (String c "/") in Hd.
    exact (drop_slashes_nonempty _ c "/" Hc Hd).
  - unfold String.rev at 2. rewrite rev_app_append. cbn [String.rev_app].
    change (drop_slashes (String "/" (String.rev_app x "")))
      with (drop_slashes (String.rev x)).
    rewrite Hx, (drop_slashes_stop _ _ Hc), <- Hx. apply rev_involutive.
Qed.







Lemma string_of_uint_no_slash (d : Decimal.uint) : no_slash (NilEmpty.string_of_uint d).
Proof. induction d; cbn; repeat split; try assumption; discriminate. Qed.

Lemma str_no_slash (n : Z) : no_slash (str n).
Proof.
  unfold str, NilZero.string_of_int, NilZero.string_of_uint.
  destruct (Z.to_int n) as [d|d].
  - destruct d; try apply string_of_uint_no_slash. cbn. split; [discriminate|exact I].
  - split; [discriminate|].
    destruct d; try apply string_of_uint_no_slash. cbn. split; [discriminate|exact I].
Qed.

Lemma no_slash_append (a b : string) : no_slash a -> no_slash b -> no_slash (a +:+ b).
Proof.
  intros Ha Hb. induction a as [|c a IH]; cbn; [exact Hb|].
  destruct Ha as [Hc Ha]. split; [exact Hc|]. apply IH, Ha.
Qed.

Lemma str_inj (a b : Z) : str a = str b -> a = b.
Proof.
  unfold str. intros H. apply DecimalZ.to_int_inj.
  assert (Hnn : forall n, Z.to_int n <> Decimal.Pos Decimal.Nil
                          /\ Z.to_int n <> Decimal.Neg Decimal.Nil).
  { intros [|p|p]; cbn; split; try discriminate;
      intros Hp; injection Hp as Hp; exact (DecimalPos.Unsigned.to_uint_nonnil p Hp). }
  destruct (Hnn a) as [Ha1 Ha2]. destruct (Hnn b) as [Hb1 Hb2].
  pose proof (NilZero.isi _ Ha1 Ha2) as Ia. pose proof (NilZero.isi _ Hb1 Hb2) as Ib.
  rewrite H in Ia. rewrite Ia in Ib. now injection Ib.
Qed.

(** X11: whatever the size, its icon goes to a file directly inside the
    directory the script creates, and two different sizes never go to the
    same file. *)
Theorem icon_path_distinct (a b : Z) :
  dirname (generate_icon.icon_path a) = generate_icon.OUT_DIR
  /\ (a <> b -> generate_icon.icon_path a <> generate_icon.icon_path b).
Proof.
  split.
  - unfold generate_icon.icon_path, generate_icon.OUT_DIR.
    change ("extension/icons" +:+ "/icon-" +:+ str a +:+ ".png")
      with ("extension/icons" +:+ String "/" ("icon-" +:+ str a +:+ ".png")).
    apply (dirname_file _ _ "s" "noci/noisnetxe").
    + apply (no_slash_append "icon-"); [cbn; repeat split; discriminate|].
      apply no_slash_append; [apply str_no_slash|cbn; repeat split; discriminate].
    + reflexivity.
    + discriminate.
  - intros Hne H. apply Hne. unfold generate_icon.icon_path in H.
    apply String.app_inj in H. apply String.app_inj in H.
    apply append_inj_l in H. apply str_inj, H.
Qed.

Lemma icon_path_distinct_witness :
  generate_icon.icon_path 16 <> generate_icon.icon_path 160.
Proof.
  apply (proj2 (icon_path_distinct 16 160)). lia.
Defined.

(* ================================================================== *)
(** * The icon pipeline as a whole *)
(* ================================================================== *)

(** X6: for every icon size from 1 to 1024, make_icon returns the composite
    of three well-formed layers on the 4x canvas, resampled to the size
    asked for: a gradient whose every pixel is an 8-bit colour, a rounded
    mask whose radius is at least 1 and at most half the canvas, about 22%
    of it, and a glyph whose vertices all lie on the canvas. *)
Theorem make_icon_layers (size : Z) :
  1 <= size <= 1024 ->
  let S := size * 4 in
  exists px r left_arm right_arm,
    generate_icon.make_icon size =
      Ok (Resize
            (Alpha_composite
               (Paste (Image_new RGBA S S (Ink4 0 0 0 0)) (Raster S S px)
                  (Rounded_rectangle (Image_new L S S (Ink1 0)) 0 0 (S - 1) (S - 1) r
                     (Some (Ink1 255)) None 1))
               (Polygon (Polygon (Image_new RGBA S S (Ink4 0 0 0 0))
                           left_arm generate_icon.WHITE)
                  right_arm generate_icon.WHITE))
            size size LANCZOS)
    /\ (forall x y, 0 <= x < S -> 0 <= y < S ->
          exists c, getpixel px x y = Some c /\ color8 c)
    /\ (1 <= r /\ 2 * r <= S /\ 88 * size - 100 <= 100 * r <= Z.max 100 (88 * size))
    /\ Forall (in_canvas S) (left_arm ++ right_arm).
Proof.
  intros Hs S. destruct INDIGO_color8 as [Ht Hb].
  assert (HS : 4 <= S <= 4096) by (unfold S; lia).
  destruct (make_icon_total size ltac:(lia) ltac:(lia)) as [icon Hicon].
  destruct (make_icon_inv _ _ Hicon) as (px & r & la & ra & Hbg & Hmask & Hv & ->).
  fold S in Hbg, Hmask, Hv.
  exists px, r, la, ra. split; [exact Hicon|]. split; [|split].
  - intros x y Hx Hy.
    rewrite vertical_gradient_rows in Hbg;
      [|lia|intros y0 Hy0; apply row_color_total; [lia|exact Hy0|exact Ht|exact Hb]].
    injection Hbg as <-.
    destruct (gradient_pixel S generate_icon.INDIGO_TOP generate_icon.INDIGO_BOTTOM x y
                ltac:(lia) Ht Hb Hx Hy) as (c & Hc & Hpx).
    exists c. split; [exact Hpx|].
    apply (rows_toward S _ _ y y c c ltac:(lia) Ht Hb ltac:(lia) ltac:(lia) Hc Hc).
  - destruct (mask_radius_value S ltac:(lia)) as (n & Hn & Hlo & Hup).
    rewrite Hmask in Hn. injection Hn as ->. unfold S in *. lia.
  - destruct ideals_inner as (I1 & I2 & _).
    destruct (v_arms_near S la ra ltac:(lia) Hv) as [Hl Hr].
    apply Forall_app. split; eapply near_in_canvas; eauto; lia.
Qed.

Lemma make_icon_layers_witness :
  exists icon base, generate_icon.make_icon 128 = Ok icon
                    /\ icon = Resize base 128 128 LANCZOS.
Proof.
  destruct (make_icon_layers 128 ltac:(lia)) as (px & r & la & ra & Hicon & _).
  eexists _, _. split; [exact Hicon|reflexivity].
Defined.

(* ================================================================== *)
(** * The favicon pipeline as a whole *)
(* ================================================================== *)

(** X7: for every size from 7 to 4096, make_vaulty_favicon returns an
    image with five rounded rectangles, the background and the four rings
    in this order, all with their corners in order and on the canvas, and
    with its glyph vertices on the canvas.  For sizes from 1 to 6 the box of
    a ring has its second corner before its first, and the function raises
    ValueError. *)
Theorem make_vaulty_favicon_drawing (size : Z) :
  (7 <= size <= 4096 ->
   exists img,
     generate_favicon.make_vaulty_favicon size = Ok img
     /\ boxes img = [(0, 0, size - 1, size - 1); (0, 0, size - 1, size - 1);
                     (1, 1, size - 2, size - 2); (2, 2, size - 3, size - 3);
                     (3, 3, size - 4, size - 4)]
     /\ Forall (box_on_canvas size) (boxes img)
     /\ Forall (in_canvas size) (vertices img))
  /\ (1 <= size < 7 ->
      generate_favicon.make_vaulty_favicon size = Raise ValueError
      /\ exists i, 0 <= i <= 3 /\ size - 1 - i < i).
Proof.
  split.
  - intros Hs. destruct (make_vaulty_favicon_total size ltac:(lia)) as [img Himg].
    destruct (make_vaulty_favicon_inv _ _ Himg) as (vp & rh & Hv & ->).
    eexists. split; [exact Himg|]. cbv zeta.
    cbn [boxes vertices ring_overlay app].
    replace (size - 1 - 0) with (size - 1) by lia.
    replace (size - 1 - 1) with (size - 2) by lia.
    replace (size - 1 - 2) with (size - 3) by lia.
    replace (size - 1 - 3) with (size - 4) by lia.
    split; [reflexivity|]. split.
    + unfold box_on_canvas.
      repeat (apply List.Forall_cons; [cbn [fst snd]; lia|]). apply List.Forall_nil.
    + destruct ideals_inner as (_ & _ & I3 & I4).
      destruct (v_polys_near size vp rh ltac:(lia) Hv) as [Hl Hr].
      apply Forall_app. split; eapply near_in_canvas; eauto; lia.
  - intros Hs. split; [apply make_vaulty_favicon_small, Hs|].
    exists 3. lia.
Qed.

Lemma make_vaulty_favicon_drawing_witness :
  exists img,
    generate_favicon.make_vaulty_favicon 64 = Ok img
    /\ Forall (box_on_canvas 64) (boxes img).
Proof.
  destruct (proj1 (make_vaulty_favicon_drawing 64) ltac:(lia)) as (img & Hi & _ & Hb & _).
  exists img. split; [exact Hi|exact Hb].
Defined.
